(** * ddwfttw_vehicle: blade-element rotor model, vehicle forces and RK4

    A shallow embedding of [airfoil.py], [blade.py], [rotor.py],
    [vehicle.py] and [rk4.py], and of the equation of motion of
    [sim.py]; the properties of the design specification proved (or
    refuted) on it; and further properties of the code.

    Numbers.  Python floats are idealised as the real numbers [R] of the
    Standard Library: rounding, overflow and the values inf/nan are not
    represented.  A division by zero stops the model with
    [ZeroDivisionError]; Python raises it for float operands, NumPy scalars
    return a non-finite value with a warning instead, and neither has an
    image in [R].  Python ints that count things (strips, iterations) are
    [Z].

    Effects.  Methods that mutate [self] or print are written in a
    state-and-exception monad [M S A] over the object [S] and the lines
    written to standard output; the state reached when an exception is
    raised is kept.  Methods that only read return a [result]. *)

From Stdlib Require Import String DecimalString.
From Stdlib Require Import Reals Lra Lia ZArith Bool List.
Set Warnings "-stdlib-vector".
From Stdlib Require Vector.
Import ListNotations.

Set Implicit Arguments.
Open Scope R_scope.

(** ** Exceptions and results *)

Inductive exn : Type :=
| ZeroDivisionError
| IndexError
| ValueError
| TypeError
| UnboundLocalError
| SystemExit (code : Z).

Inductive result (A : Type) : Type :=
| Ok (a : A)
| Raise (e : exn).

Arguments Ok {A} a.
Arguments Raise {A} e.

Definition rbind {A B} (r : result A) (k : A -> result B) : result B :=
  match r with
  | Ok a => k a
  | Raise e => Raise e
  end.

Declare Scope result_scope.
Delimit Scope result_scope with result.
Notation "x <- c ;; k" := (rbind c (fun x => k))
  (at level 61, c at next level, right associativity) : result_scope.

(** [a / b] on floats. *)
Definition fdiv (a b : R) : result R :=
  if Req_dec_T b 0 then Raise ZeroDivisionError else Ok (a / b).

(** [l[i]] for a non-negative index. *)
Definition getitem {A} (l : list A) (i : nat) : result A :=
  match nth_error l i with
  | Some a => Ok a
  | None => Raise IndexError
  end.

(** [l[i] = v] for a non-negative index: Python raises out of range. *)
Fixpoint setitem {A} (l : list A) (i : nat) (v : A) : result (list A) :=
  match l, i with
  | [], _ => Raise IndexError
  | _ :: l', O => Ok (v :: l')
  | a :: l', S i' =>
      match setitem l' i' v with
      | Ok l'' => Ok (a :: l'')
      | Raise e => Raise e
      end
  end.

(** A field that [__init__] sets to [None]: using it in arithmetic or
    taking its [len] is a [TypeError]. *)
Definition unNone {A} (o : option A) : result A :=
  match o with
  | Some a => Ok a
  | None => Raise TypeError
  end.

(** A local variable that may not have been assigned yet. *)
Definition bound {A} (o : option A) : result A :=
  match o with
  | Some a => Ok a
  | None => Raise UnboundLocalError
  end.

(** [sum(l)]: Python adds from the left, starting at 0. *)
Definition pysum (l : list R) : R := fold_left Rplus l 0.

(** ** The state-and-exception monad *)

Definition stdout : Type := list string.

Definition M (S A : Type) : Type := S -> stdout -> result A * S * stdout.

Definition ret {S A} (a : A) : M S A := fun s o => (Ok a, s, o).

Definition bind {S A B} (m : M S A) (k : A -> M S B) : M S B :=
  fun s o =>
    match m s o with
    | (Ok a, s', o') => k a s' o'
    | (Raise e, s', o') => (Raise e, s', o')
    end.

Definition raise {S A} (e : exn) : M S A := fun s o => (Raise e, s, o).

Definition get {S} : M S S := fun s o => (Ok s, s, o).

Definition modify {S} (f : S -> S) : M S unit := fun s o => (Ok tt, f s, o).

(** [print(msg)]. *)
Definition print {S} (msg : string) : M S unit :=
  fun s o => (Ok tt, s, o ++ [msg]).

(** A fallible update of the object; the object is unchanged when it
    raises. *)
Definition update {S} (f : S -> result S) : M S unit :=
  fun s o =>
    match f s with
    | Ok s' => (Ok tt, s', o)
    | Raise e => (Raise e, s, o)
    end.

(** A read-only computation run inside a method. *)
Definition lift {S A} (r : result A) : M S A :=
  fun s o => (r, s, o).

Declare Scope monad_scope.
Delimit Scope monad_scope with monad.
Notation "x <- c ;; k" := (bind c (fun x => k))
  (at level 61, c at next level, right associativity) : monad_scope.
Notation "c ;; k" := (bind c (fun _ => k))
  (at level 61, right associativity) : monad_scope.

(** [for x in xs: body(x)]. *)
Fixpoint for_each {S A} (xs : list A) (body : A -> M S unit) : M S unit :=
  match xs with
  | [] => ret tt
  | x :: xs' => bind (body x) (fun _ => for_each xs' body)
  end.

(** [range(n)]: empty when [n] is not positive. *)
Definition range (n : Z) : list nat := seq 0 (Z.to_nat n).

(** ** [numpy.interp]

    NumPy is not part of the repository; this is its documented behaviour
    (piecewise-linear interpolant of the points [(xp, fp)], [fp[0]] to the
    left of [xp[0]] and [fp[-1]] to the right of [xp[-1]]) written after
    its implementation: the range tests come first, then the index [j]
    with [xp[j] <= x < xp[j+1]] is searched, and [fp[j]] is returned
    without arithmetic when [j] is the last index or [xp[j] = x].  The
    search below is NumPy's linear one; NumPy bisects tables of more than
    four points, which finds the same index when [xp] is ascending, the
    only case NumPy documents. *)
Module np.

(** The number of leading entries [a] of [arr] with [key >= a]. *)
Fixpoint linear_search (key : R) (arr : list R) : nat :=
  match arr with
  | [] => O
  | a :: arr' =>
      if Rge_dec key a then S (linear_search key arr') else O
  end.

(** The interpolant at one point, for a non-empty [xp] as long as [fp]. *)
Definition interp_value (x : R) (xp fp : list R) : R :=
  if Rgt_dec x (last xp 0) then last fp 0
  else if Rlt_dec x (hd 0 xp) then hd 0 fp
  else
    let j := linear_search x (tl xp) in
    if Nat.eqb j (length xp - 1) then nth j fp 0
    else if Req_dec_T (nth j xp 0) x then nth j fp 0
    else
      let slope :=
        (nth (S j) fp 0 - nth j fp 0) / (nth (S j) xp 0 - nth j xp 0) in
      slope * (x - nth j xp 0) + nth j fp 0.

(** The argument checks of [interp]: both raise [ValueError]. *)
Definition interp_check (xp fp : list R) : result unit :=
  match xp with
  | [] => Raise ValueError
  | _ :: _ =>
      if Nat.eqb (length fp) (length xp) then Ok tt else Raise ValueError
  end.

(** [np.interp(x, xp, fp)] for a scalar [x]. *)
Definition interp (x : R) (xp fp : list R) : result R :=
  (_ <- interp_check xp fp ;; Ok (interp_value x xp fp))%result.

(** [np.interp(xs, xp, fp)] for a sequence [xs]. *)
Definition interp_array (xs xp fp : list R) : result (list R) :=
  (_ <- interp_check xp fp ;;
   Ok (map (fun x => interp_value x xp fp) xs))%result.

(** [np.sum(l)] *)
Definition sum (l : list R) : R := fold_right Rplus 0 l.

End np.

(** ** airfoil.py *)

(** A table file after tokenising: comment lines, and lines split into
    numeric fields.  [None] stands for a file that cannot be opened. *)
Inductive line : Type :=
| Comment
| Fields (fs : list R).

Definition file : Type := option (list line).

Module Airfoil.

Record t : Type := mk {
  _alphas : option (list (list R));
  _cls : option (list (list R));
  _cds : option (list (list R))
}.

(** [Airfoil()] *)
Definition init : t := mk None None None.

(** [_readTable]: three fields per row. *)
Fixpoint _readTable (f : list line)
  : result (list R * list R * list R) :=
  match f with
  | [] => Ok ([], [], [])
  | Comment :: f' => _readTable f'
  | Fields [a; cl; cd] :: f' =>
      match _readTable f' with
      | Ok (alphas, cls, cds) => Ok (a :: alphas, cl :: cls, cd :: cds)
      | Raise e => Raise e
      end
  | Fields _ :: _ => Raise (SystemExit 1)
  end.

Fixpoint readTables_loop (filenames : list file)
    (alphas cls cds : list (list R))
  : result (list (list R) * list (list R) * list (list R)) :=
  match filenames with
  | [] => Ok (alphas, cls, cds)
  | None :: _ => Raise (SystemExit 1)
  | Some f :: rest =>
      match _readTable f with
      | Ok (a, cl, cd) =>
          readTables_loop rest (alphas ++ [a]) (cls ++ [cl]) (cds ++ [cd])
      | Raise e => Raise e
      end
  end.

Definition readTables (filenames : list file) (self : t) : result t :=
  match readTables_loop filenames [] [] [] with
  | Ok (alphas, cls, cds) => Ok (mk (Some alphas) (Some cls) (Some cds))
  | Raise e => Raise e
  end.

(** The row loops of [readClCdTables]: two fields per row. *)
Fixpoint read_pairs (f : list line) : result (list R * list R) :=
  match f with
  | [] => Ok ([], [])
  | Comment :: f' => read_pairs f'
  | Fields [a; v] :: f' =>
      match read_pairs f' with
      | Ok (alphas, vals) => Ok (a :: alphas, v :: vals)
      | Raise e => Raise e
      end
  | Fields _ :: _ => Raise (SystemExit 1)
  end.

Definition readClCdTables (clfilename cdfilename : file) (self : t)
  : result t :=
  match clfilename, cdfilename with
  | None, _ => Raise (SystemExit 1)
  | _, None => Raise (SystemExit 1)
  | Some fcl, Some fcd =>
      (clt <- read_pairs fcl ;;
       cdt <- read_pairs fcd ;;
       let '(alphascl, cls) := clt in
       let '(alphascd, cds) := cdt in
       (* Interpolate to the finer set of alphas *)
       if Nat.ltb (length alphascd) (length alphascl) then
         cds' <- np.interp_array alphascl alphascd cds ;;
         Ok (mk (Some [alphascl]) (Some [cls]) (Some [cds']))
       else
         cls' <- np.interp_array alphascd alphascl cls ;;
         Ok (mk (Some [alphascd]) (Some [cls']) (Some [cds])))%result
  end.

(** The loop shared by [Cl] and [Cd]: one interpolated value per table. *)
Fixpoint table_values (alpha : R) (alphas : list (list R))
    (vals : option (list (list R))) (idx : list nat) : result (list R) :=
  match idx with
  | [] => Ok []
  | i :: idx' =>
      (a <- getitem alphas i ;;
       vs <- unNone vals ;;
       f <- getitem vs i ;;
       v <- np.interp alpha a f ;;
       rest <- table_values alpha alphas vals idx' ;;
       Ok (v :: rest))%result
  end.

Definition averaged (alpha : R) (alphas vals : option (list (list R)))
  : result R :=
  (als <- unNone alphas ;;
   let ntables := Z.of_nat (length als) in
   vs <- table_values alpha als vals (range ntables) ;;
   fdiv (pysum vs) (IZR ntables))%result.

(** Interpolates lift coefficient from tables and returns averaged
    result. *)
Definition Cl (self : t) (alpha : R) : result R :=
  averaged alpha (_alphas self) (_cls self).

(** Interpolates drag coefficient from tables and returns averaged
    result. *)
Definition Cd (self : t) (alpha : R) : result R :=
  averaged alpha (_alphas self) (_cds self).

End Airfoil.

(** ** blade.py *)

Module Blade.

Record t : Type := mk {
  _radial : list R;
  _chord : list R;
  _twist : list R;
  _airfoil : Airfoil.t
}.

(** [self._radial[0]] *)
Definition innerRadius (self : t) : result R := getitem (_radial self) 0.

(** [self._radial[-1]] *)
Definition outerRadius (self : t) : result R :=
  match _radial self with
  | [] => Raise IndexError
  | _ :: _ => Ok (last (_radial self) 0)
  end.

Definition chord (self : t) (r : R) : result R :=
  np.interp r (_radial self) (_chord self).

Definition twist (self : t) (r : R) : result R :=
  np.interp r (_radial self) (_twist self).

(** The loop of [plotChord] over the stations [idx]: it extends the
    leading edge [xLE] and the trailing edge [xTE] of the outline. *)
Fixpoint plotChord_edges (chord : list R) (idx : list nat)
    (xLE xTE : list R) : result (list R * list R) :=
  match idx with
  | [] => Ok (xLE, xTE)
  | i :: idx' =>
      (xLE' <- (if Nat.ltb 0 i then
                  prev <- getitem xLE (i - 1) ;;
                  ci <- getitem chord i ;;
                  cp <- getitem chord (i - 1) ;;
                  Ok (xLE ++ [prev + 0.5 * (ci - cp)])
                else Ok xLE) ;;
       le <- getitem xLE' i ;;
       ci <- getitem chord i ;;
       plotChord_edges chord idx' xLE' (xTE ++ [le - ci]))%result
  end.

(** Plots chord distribution.  This is the outline [(rLoop, xLoop)] that
    [plotChord] computes and hands to [ax.plot]; the drawing and the file
    [chord.png] are outside the model. *)
Definition plotChord (self : t) : result (list R * list R) :=
  (edges <- plotChord_edges (_chord self) (seq 0 (length (_radial self)))
              [0] [] ;;
   let '(xLE, xTE) := edges in
   x0 <- getitem xLE 0 ;;
   let xLoop := (xLE ++ rev xTE) ++ [x0] in
   r0 <- getitem (_radial self) 0 ;;
   let rLoop := (_radial self ++ rev (_radial self)) ++ [r0] in
   Ok (rLoop, xLoop))%result.

End Blade.

(** ** rotor.py *)

(** [math.degrees] *)
Definition degrees (x : R) : R := x * 180 / PI.

(** [math.acos]: a [ValueError] outside [[-1, 1]]. *)
Definition math_acos (x : R) : result R :=
  if Rle_dec (-1) x then
    if Rle_dec x 1 then Ok (acos x) else Raise ValueError
  else Raise ValueError.

(** [str(n)] for a non-negative int, as [{:d}] prints it. *)
Definition str_of_nat (n : nat) : string :=
  NilZero.string_of_uint (Nat.to_uint n).

Module Rotor.

Record t : Type := mk {
  _blade : Blade.t;
  _nblades : Z;
  _rstrip : list R;
  _chordstrip : list R;
  _twiststrip : list R;
  _dR : option R;
  _inflow : list R;
  _alpha : list R;
  _cl : list R;
  _cd : list R;
  _dT : list R;
  _dP : list R;
  _thrust : option R;
  _power : option R;
  _CT : option R;
  _CP : option R
}.

(** [Rotor(blade, nblades)] *)
Definition init (blade : Blade.t) (nblades : Z) : t :=
  mk blade nblades [] [] [] None [] [] [] [] [] [] None None None None.

(** Attribute assignments [self._x = v]. *)
Definition set_rstrip (v : list R) (s : t) : t :=
  mk (_blade s) (_nblades s) v (_chordstrip s) (_twiststrip s) (_dR s)
     (_inflow s) (_alpha s) (_cl s) (_cd s) (_dT s) (_dP s)
     (_thrust s) (_power s) (_CT s) (_CP s).
Definition set_chordstrip (v : list R) (s : t) : t :=
  mk (_blade s) (_nblades s) (_rstrip s) v (_twiststrip s) (_dR s)
     (_inflow s) (_alpha s) (_cl s) (_cd s) (_dT s) (_dP s)
     (_thrust s) (_power s) (_CT s) (_CP s).
Definition set_twiststrip (v : list R) (s : t) : t :=
  mk (_blade s) (_nblades s) (_rstrip s) (_chordstrip s) v (_dR s)
     (_inflow s) (_alpha s) (_cl s) (_cd s) (_dT s) (_dP s)
     (_thrust s) (_power s) (_CT s) (_CP s).
Definition set_dR (v : option R) (s : t) : t :=
  mk (_blade s) (_nblades s) (_rstrip s) (_chordstrip s) (_twiststrip s) v
     (_inflow s) (_alpha s) (_cl s) (_cd s) (_dT s) (_dP s)
     (_thrust s) (_power s) (_CT s) (_CP s).
Definition set_inflow (v : list R) (s : t) : t :=
  mk (_blade s) (_nblades s) (_rstrip s) (_chordstrip s) (_twiststrip s)
     (_dR s) v (_alpha s) (_cl s) (_cd s) (_dT s) (_dP s)
     (_thrust s) (_power s) (_CT s) (_CP s).
Definition set_alpha (v : list R) (s : t) : t :=
  mk (_blade s) (_nblades s) (_rstrip s) (_chordstrip s) (_twiststrip s)
     (_dR s) (_inflow s) v (_cl s) (_cd s) (_dT s) (_dP s)
     (_thrust s) (_power s) (_CT s) (_CP s).
Definition set_cl (v : list R) (s : t) : t :=
  mk (_blade s) (_nblades s) (_rstrip s) (_chordstrip s) (_twiststrip s)
     (_dR s) (_inflow s) (_alpha s) v (_cd s) (_dT s) (_dP s)
     (_thrust s) (_power s) (_CT s) (_CP s).
Definition set_cd (v : list R) (s : t) : t :=
  mk (_blade s) (_nblades s) (_rstrip s) (_chordstrip s) (_twiststrip s)
     (_dR s) (_inflow s) (_alpha s) (_cl s) v (_dT s) (_dP s)
     (_thrust s) (_power s) (_CT s) (_CP s).
Definition set_dT (v : list R) (s : t) : t :=
  mk (_blade s) (_nblades s) (_rstrip s) (_chordstrip s) (_twiststrip s)
     (_dR s) (_inflow s) (_alpha s) (_cl s) (_cd s) v (_dP s)
     (_thrust s) (_power s) (_CT s) (_CP s).
Definition set_dP (v : list R) (s : t) : t :=
  mk (_blade s) (_nblades s) (_rstrip s) (_chordstrip s) (_twiststrip s)
     (_dR s) (_inflow s) (_alpha s) (_cl s) (_cd s) (_dT s) v
     (_thrust s) (_power s) (_CT s) (_CP s).
Definition set_thrust (v : option R) (s : t) : t :=
  mk (_blade s) (_nblades s) (_rstrip s) (_chordstrip s) (_twiststrip s)
     (_dR s) (_inflow s) (_alpha s) (_cl s) (_cd s) (_dT s) (_dP s)
     v (_power s) (_CT s) (_CP s).
Definition set_power (v : option R) (s : t) : t :=
  mk (_blade s) (_nblades s) (_rstrip s) (_chordstrip s) (_twiststrip s)
     (_dR s) (_inflow s) (_alpha s) (_cl s) (_cd s) (_dT s) (_dP s)
     (_thrust s) v (_CT s) (_CP s).
Definition set_CT (v : option R) (s : t) : t :=
  mk (_blade s) (_nblades s) (_rstrip s) (_chordstrip s) (_twiststrip s)
     (_dR s) (_inflow s) (_alpha s) (_cl s) (_cd s) (_dT s) (_dP s)
     (_thrust s) (_power s) v (_CP s).
Definition set_CP (v : option R) (s : t) : t :=
  mk (_blade s) (_nblades s) (_rstrip s) (_chordstrip s) (_twiststrip s)
     (_dR s) (_inflow s) (_alpha s) (_cl s) (_cd s) (_dT s) (_dP s)
     (_thrust s) (_power s) (_CT s) v.

(** One pass of the [for strip in range(nstrips)] loop of [discretize].
    [self._dR] was assigned [dR] just before the loop, and the blade is
    not written to. *)
Definition discretize_strip (Ri dR : R) (strip : nat) : M t unit :=
  (let r := Ri + (INR strip + 0.5) * dR in
   modify (fun s => set_rstrip (_rstrip s ++ [r]) s) ;;
   self <- get ;;
   c <- lift (Blade.chord (_blade self) r) ;;
   modify (fun s => set_chordstrip (_chordstrip s ++ [c]) s) ;;
   self <- get ;;
   tw <- lift (Blade.twist (_blade self) r) ;;
   modify (fun s => set_twiststrip (_twiststrip s ++ [tw]) s))%monad.

(** Computes chord and twist distributions at strip centers. *)
Definition discretize (nstrips : Z) : M t unit :=
  (modify (set_chordstrip []) ;;
   modify (set_twiststrip []) ;;
   self <- get ;;
   Ri <- lift (Blade.innerRadius (_blade self)) ;;
   Ro <- lift (Blade.outerRadius (_blade self)) ;;
   dR <- lift (fdiv (Ro - Ri) (IZR nstrips)) ;;
   modify (set_dR (Some dR)) ;;
   for_each (range nstrips) (discretize_strip Ri dR) ;;
   (* Initialize outputs *)
   let zeros := repeat 0 (Z.to_nat nstrips) in
   modify (set_inflow zeros) ;;
   modify (set_alpha zeros) ;;
   modify (set_cl zeros) ;;
   modify (set_cd zeros) ;;
   modify (set_dT zeros) ;;
   modify (set_dP zeros))%monad.

(** The locals [alpha, cl, cd, dT, dP] of [calc], assigned together by
    an iteration of the inflow loop. *)
Record strip_out : Type := mk_out {
  o_alpha : R;
  o_cl : R;
  o_cd : R;
  o_dT : R;
  o_dP : R
}.

(** What one iteration of the inflow loop leaves in the locals. *)
Record iterate : Type := mk_iterate {
  i_out : strip_out;
  i_vim : R;
  i_inflow_err : R;
  i_vi : R
}.

(** Prandtl tip loss factor. *)
Definition tip_loss (b Ro r V vi phi : R) : result R :=
  if Rgt_dec (V + vi) 0 then
    (f <- fdiv (0.5 * b * (Ro - r)) (r * sin phi) ;;
     ac <- math_acos (exp (- f)) ;;
     Ok (2 / PI * ac))%result
  else Ok 1.

(** The radicand of the momentum-theory inflow, [arg] in the source. *)
Definition momentum_arg (rho r dR V dT : R) : result R :=
  (let a := 4 * PI * rho * r * dR in
   q <- fdiv dT a ;;
   Ok (0.25 * V ^ 2 + q))%result.

(** The body of [while inflow_err > tol and iters < maxiters]. *)
Definition inflow_step (self : t) (rho V om theta0 relax Ro : R)
    (strip : nat) (r vi : R) : result iterate :=
  (let b := IZR (_nblades self) in
   (* Strip aerodynamics *)
   let Ut := om * r in
   let Up := V + vi in
   let Usquare := Ut ^ 2 + Up ^ 2 in
   q <- fdiv Up Ut ;;
   let phi := atan q in
   tw <- getitem (_twiststrip self) strip ;;
   let alpha := theta0 + tw - degrees phi in
   cl <- Airfoil.Cl (Blade._airfoil (_blade self)) alpha ;;
   cd <- Airfoil.Cd (Blade._airfoil (_blade self)) alpha ;;
   ch <- getitem (_chordstrip self) strip ;;
   let Lp := 0.5 * rho * Usquare * ch * cl in
   let Dp := 0.5 * rho * Usquare * ch * cd in
   Ft <- tip_loss b Ro r V vi phi ;;
   (* Annular thrust and power *)
   dR <- unNone (_dR self) ;;
   let dT := b * Ft * dR * (Lp * cos phi - Dp * sin phi) in
   let dP := b * Ft * Ut * dR * (Dp * cos phi + Lp * sin phi) in
   (* Inflow according to momentum theory *)
   arg <- momentum_arg rho r dR V dT ;;
   let vim := -0.5 * V + sqrt (Rmax arg 0) in
   (* Error based on non-dimensional induced inflow, and update *)
   inflow_err <- fdiv (sqrt ((vim - vi) ^ 2)) (om * Ro) ;;
   Ok (mk_iterate (mk_out alpha cl cd dT dP) vim inflow_err
         (relax * vim + (1 - relax) * vi)))%result.

(** The inflow loop; [fuel] is [maxiters - iters]. *)
Fixpoint inflow_loop (self : t) (rho V om theta0 relax Ro tol : R)
    (strip : nat) (r : R) (fuel : nat) (vi inflow_err : R)
    (loc : option strip_out) : result (R * R * option strip_out) :=
  match fuel with
  | O => Ok (vi, inflow_err, loc)
  | S fuel' =>
      if Rgt_dec inflow_err tol then
        (it <- inflow_step self rho V om theta0 relax Ro strip r vi ;;
         inflow_loop self rho V om theta0 relax Ro tol strip r fuel'
           (i_vi it) (i_inflow_err it) (Some (i_out it)))%result
      else Ok (vi, inflow_err, loc)
  end.

Definition warning (strip : nat) : string :=
  ("Warning: inflow did not converge for strip " ++ str_of_nat strip ++ ".")
  %string.

(** The [# Integrate] block, which the source runs after every strip. *)
Definition integrate (rho om Ro : R) : M t unit :=
  (let A := PI * Ro ^ 2 in
   modify (fun s => set_thrust (Some (np.sum (_dT s))) s) ;;
   modify (fun s => set_power (Some (np.sum (_dP s))) s) ;;
   self <- get ;;
   thrust <- lift (unNone (_thrust self)) ;;
   CT <- lift (fdiv thrust (rho * A * (om * Ro) ^ 2)) ;;
   modify (set_CT (Some CT)) ;;
   self <- get ;;
   power <- lift (unNone (_power self)) ;;
   CP <- lift (fdiv power (rho * A * (om * Ro) ^ 3)) ;;
   modify (set_CP (Some CP)))%monad.

(** The body of [for strip in range(nstrips)] in [calc].  The locals
    survive from one strip to the next, so they are passed along. *)
Definition calc_strip (rho V om theta0 : R) (maxiters : Z) (tol relax Ro : R)
    (strip : nat) (loc : option strip_out) : M t (option strip_out) :=
  (self <- get ;;
   (* Iterate on local induced inflow vi *)
   r <- lift (getitem (_rstrip self) strip) ;;
   vi0 <- lift (getitem (_inflow self) strip) ;;
   fin <- lift (inflow_loop self rho V om theta0 relax Ro tol strip r
                  (Z.to_nat maxiters) vi0 1e6 loc) ;;
   let '(vi, inflow_err, loc') := fin in
   (* Warning if inflow didn't converge *)
   (if Rgt_dec inflow_err tol then print (warning strip) else ret tt) ;;
   (* Store converged values *)
   update (fun s => l <- setitem (_inflow s) strip vi ;;
                    Ok (set_inflow l s))%result ;;
   out <- lift (bound loc') ;;
   update (fun s => l <- setitem (_alpha s) strip (o_alpha out) ;;
                    Ok (set_alpha l s))%result ;;
   update (fun s => l <- setitem (_cl s) strip (o_cl out) ;;
                    Ok (set_cl l s))%result ;;
   update (fun s => l <- setitem (_cd s) strip (o_cd out) ;;
                    Ok (set_cd l s))%result ;;
   update (fun s => l <- setitem (_dT s) strip (o_dT out) ;;
                    Ok (set_dT l s))%result ;;
   update (fun s => l <- setitem (_dP s) strip (o_dP out) ;;
                    Ok (set_dP l s))%result ;;
   integrate rho om Ro ;;
   ret loc')%monad.

Fixpoint calc_strips (rho V om theta0 : R) (maxiters : Z) (tol relax Ro : R)
    (strips : list nat) (loc : option strip_out) : M t unit :=
  match strips with
  | [] => ret tt
  | strip :: strips' =>
      bind (calc_strip rho V om theta0 maxiters tol relax Ro strip loc)
           (calc_strips rho V om theta0 maxiters tol relax Ro strips')
  end.

(** Calculates forces and power on rotor in hover or climbing flight. *)
Definition calc (rho V rpm theta0 : R) (maxiters : Z) (tol relax : R)
  : M t unit :=
  (let om := rpm * 1 / 60 * 2 * PI in
   (* Calculate outputs for each strip *)
   self <- get ;;
   let nstrips := length (_rstrip self) in
   Ro <- lift (Blade.outerRadius (_blade self)) ;;
   calc_strips rho V om theta0 maxiters tol relax Ro (seq 0 nstrips)
     None)%monad.

(** The defaults of [calc]'s keyword arguments. *)
Definition maxiters_default : Z := 5000.
Definition tol_default : R := 1e-12.
Definition relax_default : R := 0.01.

End Rotor.

(** ** vehicle.py *)

Module Vehicle.

Record t : Type := mk {
  _rw : R;
  _trans : R;
  _eta_trans : R;
  _CDf : R;
  _CDb : R;
  _Crr : R;
  _A : R;
  _m : R;
  _rotor : Rotor.t;
  _Vvehicle : option R;
  _Fdrag_aero : option R;
  _Fdrag_rotor : option R;
  _Frr : option R
}.

(** [Vehicle(wheel_radius, gear_ratio, gear_efficiency, CDf, CDb, Crr, A,
    m, rotor)] *)
Definition init (wheel_radius gear_ratio gear_efficiency CDf CDb Crr A m : R)
    (rotor : Rotor.t) : t :=
  mk wheel_radius gear_ratio gear_efficiency CDf CDb Crr A m rotor
     None None None None.

Definition set_rotor (v : Rotor.t) (s : t) : t :=
  mk (_rw s) (_trans s) (_eta_trans s) (_CDf s) (_CDb s) (_Crr s) (_A s)
     (_m s) v (_Vvehicle s) (_Fdrag_aero s) (_Fdrag_rotor s) (_Frr s).
Definition set_Vvehicle (v : option R) (s : t) : t :=
  mk (_rw s) (_trans s) (_eta_trans s) (_CDf s) (_CDb s) (_Crr s) (_A s)
     (_m s) (_rotor s) v (_Fdrag_aero s) (_Fdrag_rotor s) (_Frr s).
Definition set_Fdrag_aero (v : option R) (s : t) : t :=
  mk (_rw s) (_trans s) (_eta_trans s) (_CDf s) (_CDb s) (_Crr s) (_A s)
     (_m s) (_rotor s) (_Vvehicle s) v (_Fdrag_rotor s) (_Frr s).
Definition set_Fdrag_rotor (v : option R) (s : t) : t :=
  mk (_rw s) (_trans s) (_eta_trans s) (_CDf s) (_CDb s) (_Crr s) (_A s)
     (_m s) (_rotor s) (_Vvehicle s) (_Fdrag_aero s) v (_Frr s).
Definition set_Frr (v : option R) (s : t) : t :=
  mk (_rw s) (_trans s) (_eta_trans s) (_CDf s) (_CDb s) (_Crr s) (_A s)
     (_m s) (_rotor s) (_Vvehicle s) (_Fdrag_aero s) (_Fdrag_rotor s) v.

(** A method of the rotor the vehicle owns, run on [self._rotor]. *)
Definition on_rotor {A} (m : M Rotor.t A) : M t A :=
  fun s o =>
    match m (_rotor s) o with
    | (r, rotor', o') => (r, set_rotor rotor' s, o')
    end.

(** Set vehicle speed (positive direction is downwind). *)
Definition setSpeed (Vvehicle : R) : M t unit :=
  modify (set_Vvehicle (Some Vvehicle)).

(** The force breakdown [computeForces] returns: the dict with the keys
    ["rotor_thrust"], ["aero_drag"], ["rotor_drag"] and ["rolling"]. *)
Record forces : Type := mk_forces {
  rotor_thrust : option R;
  aero_drag : option R;
  rotor_drag : option R;
  rolling : option R
}.

Definition diagnostic : string :=
  "Rotor speed is less than or equal to 0. Zeroing torque and power.".

(** Computes forces given wind speed, air density, collective pitch, and
    gravitational acceleration.  The message to stderr before
    [sys.exit(1)] is not modelled. *)
Definition computeForces (Vwind rho theta0 g : R) : M t forces :=
  (self <- get ;;
   match _Vvehicle self with
   | None => raise (SystemExit 1)
   | Some Vvehicle =>
       (* Wheel rotational speed *)
       wheel_rps <- lift (fdiv Vvehicle (2 * PI * _rw self)) ;;
       let wheel_rpm := wheel_rps * 60 in
       (* Rotor speed *)
       rotor_rpm <- lift (fdiv wheel_rpm (_trans self)) ;;
       (* Relative wind from front *)
       let vrel := Vvehicle - Vwind in
       (* Rotor forces *)
       (if Rgt_dec rotor_rpm 0 then
          on_rotor (Rotor.calc rho vrel rotor_rpm theta0
                      Rotor.maxiters_default Rotor.tol_default
                      Rotor.relax_default)
        else
          print diagnostic ;;
          on_rotor (modify (Rotor.set_thrust (Some 0))) ;;
          on_rotor (modify (Rotor.set_power (Some 0)))) ;;
       (* Aerodynamic drag force *)
       (if Rlt_dec vrel 0 then
          modify (fun s =>
            set_Fdrag_aero
              (Some (_CDb s * 0.5 * rho * vrel ^ 2 * _A s)) s)
        else
          modify (fun s =>
            set_Fdrag_aero
              (Some (- _CDf s * 0.5 * rho * vrel ^ 2 * _A s)) s)) ;;
       (* Drag force on wheels needed to turn the rotor *)
       (if Rgt_dec rotor_rpm 0 then
          let rotor_om := rotor_rpm * 1 / 60 * 2 * PI in
          self <- get ;;
          power <- lift (unNone (Rotor._power (_rotor self))) ;;
          rotor_torque <- lift (fdiv power rotor_om) ;;
          wheel_torque <-
            lift (fdiv rotor_torque (_trans self * _eta_trans self)) ;;
          Fdrag_rotor <- lift (fdiv (- wheel_torque) (_rw self)) ;;
          modify (set_Fdrag_rotor (Some Fdrag_rotor))
        else
          modify (set_Fdrag_rotor (Some 0))) ;;
       (* Rolling resistance *)
       modify (fun s => set_Frr (Some (- _Crr s * _m s * g)) s) ;;
       (* Return force breakdown *)
       self <- get ;;
       ret (mk_forces (Rotor._thrust (_rotor self)) (_Fdrag_aero self)
              (_Fdrag_rotor self) (_Frr self))
   end)%monad.

End Vehicle.

(** ** rk4.py *)

(** What [step] asks of the state vector [y] and of the values of
    [func]: a sum, and a product with a float.  Python floats and NumPy
    arrays both provide them; [s * v] and [v * s] are the same product. *)
Class Vec (Y : Type) : Type := {
  vadd : Y -> Y -> Y;
  vscale : R -> Y -> Y;
  vscale_vscale : forall (a b : R) (v : Y),
    vscale a (vscale b v) = vscale (a * b) v
}.

(** Python floats. *)
#[export] Instance Vec_float : Vec R := {
  vadd := Rplus;
  vscale := Rmult;
  vscale_vscale := fun a b v => eq_sym (Rmult_assoc a b v)
}.

(** NumPy arrays of [n] floats, such as the [(position, speed)] of
    [sim.py]: sum and product go element by element. *)
#[export] Instance Vec_array (n : nat) : Vec (Vector.t R n).
Proof.
  refine {| vadd := Vector.map2 Rplus;
            vscale := fun a => Vector.map (Rmult a) |}.
  intros a b v. induction v as [|x m v IH]; simpl.
  - reflexivity.
  - rewrite IH, Rmult_assoc. reflexivity.
Defined.

Module RK4.

Section Integrator.

Context {Y : Type} `{Vec Y}.

Record obj : Type := mk {
  func : R -> Y -> Y;
  t : R;
  y : Y;
  dt : R
}.

(** [RK4(func, t0, y0, dt)] *)
Definition init (func : R -> Y -> Y) (t0 : R) (y0 : Y) (dt : R) : obj :=
  mk func t0 y0 dt.

Definition step (self : obj) : obj :=
  let k1 := func self (t self) (y self) in
  let k2 := func self (t self + 0.5 * dt self)
                 (vadd (y self) (vscale (dt self) (vscale 0.5 k1))) in
  let k3 := func self (t self + 0.5 * dt self)
                 (vadd (y self) (vscale (dt self) (vscale 0.5 k2))) in
  let k4 := func self (t self + dt self)
                 (vadd (y self) (vscale (dt self) k3)) in
  let y' := vadd (y self)
                 (vscale (dt self / 6)
                    (vadd (vadd (vadd k1 (vscale 2 k2)) (vscale 2 k3)) k4)) in
  mk (func self) (t self + dt self) y' (dt self).

End Integrator.

End RK4.

(** [step] when [func] has effects on a state [S], as [motion] of
    [sim.py] has on the vehicle: the four calls are made in this order,
    and [y] and [t] are assigned after the last one. *)
Module RK4_effects.

Section Integrator.

Context {S Y : Type} `{Vec Y}.

Record obj : Type := mk {
  func : R -> Y -> M S Y;
  t : R;
  y : Y;
  dt : R
}.

Definition step (self : obj) : M S obj :=
  (k1 <- func self (t self) (y self) ;;
   k2 <- func self (t self + 0.5 * dt self)
           (vadd (y self) (vscale (dt self) (vscale 0.5 k1))) ;;
   k3 <- func self (t self + 0.5 * dt self)
           (vadd (y self) (vscale (dt self) (vscale 0.5 k2))) ;;
   k4 <- func self (t self + dt self)
           (vadd (y self) (vscale (dt self) k3)) ;;
   let y' := vadd (y self)
               (vscale (dt self / 6)
                  (vadd (vadd (vadd k1 (vscale 2 k2)) (vscale 2 k3)) k4)) in
   ret (mk (func self) (t self + dt self) y' (dt self)))%monad.

End Integrator.

End RK4_effects.

(** ** sim.py *)

Module Sim.

(** The globals [motion] reads.  The global [ddwfttw_vehicle] is the
    state of the monad. *)
Record globals : Type := mk_globals {
  Vwind : R;
  rho : R;
  g : R;
  v_schedule : list R;
  collective_schedule : list R
}.

(** [np.array([position, velocity])] *)
Definition state : Type := Vector.t R 2.

Definition array2 (a b : R) : state :=
  Vector.cons R a 1 (Vector.cons R b 0 (Vector.nil R)).

(** [x[0]] and [x[1]] *)
Definition item0 (x : state) : R := Vector.hd x.
Definition item1 (x : state) : R := Vector.hd (Vector.tl x).

(** [sum(forces.values())]: the values are added to 0 in the order of
    the keys; adding [None] is a [TypeError]. *)
Definition sum_values (f : Vehicle.forces) : result R :=
  (a <- unNone (Vehicle.rotor_thrust f) ;;
   b <- unNone (Vehicle.aero_drag f) ;;
   c <- unNone (Vehicle.rotor_drag f) ;;
   d <- unNone (Vehicle.rolling f) ;;
   Ok (0 + a + b + c + d))%result.

(** Equation of motion *)
Definition motion (G : globals) (t : R) (x : state) : M Vehicle.t state :=
  (* Set vehicle velocity *)
  (Vehicle.setSpeed (item1 x) ;;
   (* Get collective pitch from schedule *)
   theta0 <- lift (np.interp (item1 x) (v_schedule G)
                     (collective_schedule G)) ;;
   forces <- Vehicle.computeForces (Vwind G) (rho G) theta0 (g G) ;;
   f <- lift (sum_values forces) ;;
   (* Equations of motion *)
   self <- get ;;
   a <- lift (fdiv f (Vehicle._m self)) ;;
   ret (array2 (item1 x) a))%monad.

End Sim.

(** * Vocabulary of the specification

    The predicates the properties are stated with, and the data of the
    examples. *)

Unset Implicit Arguments.

(** The sample axis of a table is ascending: each sample point lies
    strictly above the one before it. *)
Fixpoint ascending (xp : list R) : Prop :=
  match xp with
  | [] => True
  | x :: xp' =>
      match xp' with
      | [] => True
      | x' :: _ => x < x' /\ ascending xp'
      end
  end.

(** A lookup over the table [(xp, fp)] is exact at the sample points,
    linear between adjacent ones and holds the end values outside. *)
Definition clamped_linear (lookup : R -> result R) (xp fp : list R) : Prop :=
  (forall i, (i < length xp)%nat -> lookup (nth i xp 0) = Ok (nth i fp 0)) /\
  (forall i x, (S i < length xp)%nat ->
     nth i xp 0 <= x <= nth (S i) xp 0 ->
     lookup x =
     Ok (nth i fp 0 +
         (nth (S i) fp 0 - nth i fp 0) / (nth (S i) xp 0 - nth i xp 0) *
         (x - nth i xp 0))) /\
  (forall x, x < hd 0 xp -> lookup x = Ok (hd 0 fp)) /\
  (forall x, last xp 0 < x -> lookup x = Ok (last fp 0)).

(** The arithmetic mean of a list of values. *)
Definition mean (l : list R) : R := fold_right Rplus 0 l / INR (length l).

(** A table as [np.interp] accepts it: a non-empty axis with one value
    per sample point. *)
Definition table_ok (xp fp : list R) : Prop :=
  xp <> [] /\ length fp = length xp.

(** The values the tables [(As[i], Fs[i])] interpolate at [alpha]. *)
Definition interp_values (alpha : R) (As Fs : list (list R)) : list R :=
  map (fun p => np.interp_value alpha (fst p) (snd p)) (combine As Fs).

(** The rotor speed [computeForces] derives from the vehicle speed. *)
Definition rotor_rpm_of (v : Vehicle.t) (Vvehicle : R) : R :=
  Vvehicle / (2 * PI * Vehicle._rw v) * 60 / Vehicle._trans v.

(** An airfoil whose single table has no lift and no drag. *)
Definition flat_airfoil : Airfoil.t :=
  Airfoil.mk (Some [[0; 10]]) (Some [[0; 0]]) (Some [[0; 0]]).

(** The blade of [validation_test.py] over that airfoil, and a vehicle
    whose rotor was never discretized, for the examples. *)
Definition blade0 : Blade.t :=
  Blade.mk [1.5; 5; 30] [0.75; 2; 2] [0; 0; 0] flat_airfoil.

Definition vehicle0 (Vvehicle : R) : Vehicle.t :=
  Vehicle.set_Vvehicle (Some Vvehicle)
    (Vehicle.init 1 1 1 0.3 0.4 1 1 1 (Rotor.init blade0 5)).

(** The discretization and the configuration of a rotor: everything but
    the per-strip outputs and the aggregates. *)
Definition same_configuration (s s' : Rotor.t) : Prop :=
  Rotor._blade s' = Rotor._blade s /\
  Rotor._nblades s' = Rotor._nblades s /\
  Rotor._rstrip s' = Rotor._rstrip s /\
  Rotor._chordstrip s' = Rotor._chordstrip s /\
  Rotor._twiststrip s' = Rotor._twiststrip s /\
  Rotor._dR s' = Rotor._dR s.

(** The inflow array keeps its length. *)
Definition same_inflow_length (s s' : Rotor.t) : Prop :=
  length (Rotor._inflow s') = length (Rotor._inflow s).

(** A method whose final state is related by [Rel] to the state it
    started in, whether it returns or raises. *)
Definition keeps (Rel : Rotor.t -> Rotor.t -> Prop) {A : Type}
    (m : M Rotor.t A) : Prop :=
  forall s o, Rel s (snd (fst (m s o))).

(** A rotor of two blades with one strip. *)
Definition rotor1 : Rotor.t :=
  Rotor.mk (Blade.mk [1; 2] [1; 1] [0; 0] flat_airfoil) 2
    [1.5] [1] [0] (Some 1) [0] [0] [0] [0] [0] [0] None None None None.

(** The strip centres [r_i = Ri + (i + 0.5)*dR] for [i = 0 .. n-1]. *)
Definition strip_centers (Ri dR : R) (n : nat) : list R :=
  map (fun i => Ri + (INR i + 0.5) * dR) (seq 0 n).

(** The state [discretize(nstrips)] leaves behind when it returns. *)
Definition discretized (nstrips : Z) (Ri Ro : R) (s : Rotor.t) : Rotor.t :=
  let n := Z.to_nat nstrips in
  let dR := (Ro - Ri) / IZR nstrips in
  let bl := Rotor._blade s in
  let rs := map (fun i => Ri + (INR i + 0.5) * dR) (range nstrips) in
  let zeros := repeat 0 n in
  Rotor.mk bl (Rotor._nblades s)
    (Rotor._rstrip s ++ rs)
    (map (fun r => np.interp_value r (Blade._radial bl) (Blade._chord bl)) rs)
    (map (fun r => np.interp_value r (Blade._radial bl) (Blade._twist bl)) rs)
    (Some dR) zeros zeros zeros zeros zeros zeros
    (Rotor._thrust s) (Rotor._power s) (Rotor._CT s) (Rotor._CP s).

(** The rotor of the examples after [discretize(2)], and a vehicle that
    carries it. *)
Definition rotor2 : Rotor.t :=
  discretized 2 1.5 30 (Rotor.init blade0 5).

Definition vehicle2 (Vvehicle : R) : Vehicle.t :=
  Vehicle.set_Vvehicle (Some Vvehicle)
    (Vehicle.init 1 1 1 0.3 0.4 0.01 20 20 rotor2).

(** A rotor of [n] strips that [calc] can be run on at hover: an airfoil
    without lift or drag, positive strip radii and strip width, and
    output arrays that hold zeros. *)
Record hover_ready (s : Rotor.t) (n : nat) : Prop := {
  hr_Cl : forall alpha,
    Airfoil.Cl (Blade._airfoil (Rotor._blade s)) alpha = Ok 0;
  hr_Cd : forall alpha,
    Airfoil.Cd (Blade._airfoil (Rotor._blade s)) alpha = Ok 0;
  hr_rstrip : length (Rotor._rstrip s) = n;
  hr_radii : Forall (fun r => 0 < r) (Rotor._rstrip s);
  hr_chordstrip : length (Rotor._chordstrip s) = n;
  hr_twiststrip : length (Rotor._twiststrip s) = n;
  hr_dR : exists dR, Rotor._dR s = Some dR /\ 0 < dR;
  hr_inflow : Rotor._inflow s = repeat 0 n;
  hr_alpha : length (Rotor._alpha s) = n;
  hr_cl : Rotor._cl s = repeat 0 n;
  hr_cd : Rotor._cd s = repeat 0 n;
  hr_dT : Rotor._dT s = repeat 0 n;
  hr_dP : Rotor._dP s = repeat 0 n
}.

(** The tabulated values do not decrease along the table. *)
Definition nondecreasing (fp : list R) : Prop :=
  forall i, (S i < length fp)%nat -> nth i fp 0 <= nth (S i) fp 0.

(** The rows of a table file: its lines that are not comments. *)
Fixpoint data_rows (f : list line) : list (list R) :=
  match f with
  | [] => []
  | Comment :: f' => data_rows f'
  | Fields fs :: f' => fs :: data_rows f'
  end.

(** Column [k] of the rows of a file. *)
Definition column (k : nat) (f : list line) : list R :=
  map (fun fs => nth k fs 0) (data_rows f).

(** A file [readTables] accepts: it can be opened and each of its rows
    has three fields. *)
Definition table_file_ok (f : file) : Prop :=
  match f with
  | None => False
  | Some ls => Forall (fun fs => length fs = 3%nat) (data_rows ls)
  end.

(** The contents of the files of a list, when all of them can be opened. *)
Definition opened (fs : list (list line)) : list file := map Some fs.

(** What [discretize] keeps of a rotor: the blade, the blade count and
    the aggregates of the last [calc], and the strip centres that were
    there, at the front of the new ones. *)
Definition discretize_keeps (s s' : Rotor.t) : Prop :=
  Rotor._blade s' = Rotor._blade s /\
  Rotor._nblades s' = Rotor._nblades s /\
  Rotor._thrust s' = Rotor._thrust s /\
  Rotor._power s' = Rotor._power s /\
  Rotor._CT s' = Rotor._CT s /\
  Rotor._CP s' = Rotor._CP s /\
  exists rs, Rotor._rstrip s' = Rotor._rstrip s ++ rs.

(** A method that prints nothing, whether it returns or raises. *)
Definition silent {S A : Type} (m : M S A) : Prop :=
  forall s o, snd (m s o) = o.

(** The aggregates of a rotor are those of its strip outputs: thrust and
    power are the sums over the strips, and the coefficients divide them
    by [rho*A*(om*Ro)^2] and [rho*A*(om*Ro)^3] with the disk area
    [A = pi*Ro^2]. *)
Definition aggregated (rho om Ro : R) (s : Rotor.t) : Prop :=
  let A := PI * Ro ^ 2 in
  Rotor._thrust s = Some (np.sum (Rotor._dT s)) /\
  Rotor._power s = Some (np.sum (Rotor._dP s)) /\
  Rotor._CT s = Some (np.sum (Rotor._dT s) / (rho * A * (om * Ro) ^ 2)) /\
  Rotor._CP s = Some (np.sum (Rotor._dP s) / (rho * A * (om * Ro) ^ 3)).

(** The outputs a rotor holds for a strip are the inflow [vi] and the
    locals [out]. *)
Definition stored (s : Rotor.t) (strip : nat) (vi : R)
    (out : Rotor.strip_out) : Prop :=
  nth_error (Rotor._inflow s) strip = Some vi /\
  nth_error (Rotor._alpha s) strip = Some (Rotor.o_alpha out) /\
  nth_error (Rotor._cl s) strip = Some (Rotor.o_cl out) /\
  nth_error (Rotor._cd s) strip = Some (Rotor.o_cd out) /\
  nth_error (Rotor._dT s) strip = Some (Rotor.o_dT out) /\
  nth_error (Rotor._dP s) strip = Some (Rotor.o_dP out).

(** Two rotors hold the same outputs for strip [j]. *)
Definition same_outputs_at (s s' : Rotor.t) (j : nat) : Prop :=
  nth_error (Rotor._inflow s') j = nth_error (Rotor._inflow s) j /\
  nth_error (Rotor._alpha s') j = nth_error (Rotor._alpha s) j /\
  nth_error (Rotor._cl s') j = nth_error (Rotor._cl s) j /\
  nth_error (Rotor._cd s') j = nth_error (Rotor._cd s) j /\
  nth_error (Rotor._dT s') j = nth_error (Rotor._dT s) j /\
  nth_error (Rotor._dP s') j = nth_error (Rotor._dP s) j.

(** What [computeForces] keeps of a vehicle: its parameters, its speed,
    and the configuration of its rotor. *)
Definition vehicle_keeps (v v' : Vehicle.t) : Prop :=
  Vehicle._rw v' = Vehicle._rw v /\
  Vehicle._trans v' = Vehicle._trans v /\
  Vehicle._eta_trans v' = Vehicle._eta_trans v /\
  Vehicle._CDf v' = Vehicle._CDf v /\
  Vehicle._CDb v' = Vehicle._CDb v /\
  Vehicle._Crr v' = Vehicle._Crr v /\
  Vehicle._A v' = Vehicle._A v /\
  Vehicle._m v' = Vehicle._m v /\
  Vehicle._Vvehicle v' = Vehicle._Vvehicle v /\
  same_configuration (Vehicle._rotor v) (Vehicle._rotor v').

(** A rotor [calc] is meant for: an airfoil with well-formed tables,
    blades, [n] strips of positive width centred strictly inside the
    disk of radius [Ro], and one entry per strip in every array. *)
Record calc_ready (s : Rotor.t) (n : nat) (Ro : R) : Prop := {
  cr_airfoil : exists As Cs Ds,
    Blade._airfoil (Rotor._blade s) =
      Airfoil.mk (Some As) (Some Cs) (Some Ds) /\
    As <> [] /\ Forall2 table_ok As Cs /\ Forall2 table_ok As Ds;
  cr_Ro : Blade.outerRadius (Rotor._blade s) = Ok Ro;
  cr_nblades : (0 < Rotor._nblades s)%Z;
  cr_dR : exists dR, Rotor._dR s = Some dR /\ 0 < dR;
  cr_radii : Forall (fun r => 0 < r < Ro) (Rotor._rstrip s);
  cr_rstrip : length (Rotor._rstrip s) = n;
  cr_chordstrip : length (Rotor._chordstrip s) = n;
  cr_twiststrip : length (Rotor._twiststrip s) = n;
  cr_inflow : length (Rotor._inflow s) = n;
  cr_alpha : length (Rotor._alpha s) = n;
  cr_cl : length (Rotor._cl s) = n;
  cr_cd : length (Rotor._cd s) = n;
  cr_dT : length (Rotor._dT s) = n;
  cr_dP : length (Rotor._dP s) = n
}.

(** A vehicle [computeForces] is meant for: a wheel radius, a gear ratio,
    a gear efficiency and a mass other than zero, and a rotor that is set
    up with at least one strip. *)
Record vehicle_ready (v : Vehicle.t) (n : nat) (Ro : R) : Prop := {
  vr_rotor : calc_ready (Vehicle._rotor v) n Ro;
  vr_strips : (0 < n)%nat;
  vr_rw : Vehicle._rw v <> 0;
  vr_trans : Vehicle._trans v <> 0;
  vr_eta_trans : Vehicle._eta_trans v <> 0;
  vr_m : Vehicle._m v <> 0
}.

(** [k] calls of [integrator.step()] one after the other, as the loop of
    [sim.py] makes them. *)
Fixpoint steps {S Y : Type} `{Vec Y} (k : nat) (self : RK4_effects.obj)
    : M S RK4_effects.obj :=
  match k with
  | O => ret self
  | Datatypes.S k' => bind (RK4_effects.step self) (steps k')
  end.

(** * Properties *)

(** ** Tables and interpolation *)

Lemma ascending_tail (x : R) (xp : list R) :
  ascending (x :: xp) -> ascending xp.
Proof.
  destruct xp as [|x' xp]; simpl; tauto.
Qed.

Lemma ascending_nth_lt (xp : list R) :
  ascending xp ->
  forall i j, (i < j)%nat -> (j < length xp)%nat -> nth i xp 0 < nth j xp 0.
Proof.
  induction xp as [|x xp IH]; intros Hasc i j Hij Hj; simpl in Hj; [lia|].
  assert (Hhd : forall k, (k < length xp)%nat -> x < nth k xp 0).
  { clear i j Hij Hj. intros k. revert Hasc IH. clear.
    revert x k. induction xp as [|x' xp IHxp]; intros x k Hasc IH Hk;
      simpl in Hk; [lia|].
    destruct Hasc as [Hlt Hasc].
    destruct k as [|k]; simpl; [exact Hlt|].
    apply Rlt_trans with x'; [exact Hlt|].
    apply IHxp; [exact Hasc| |lia].
    intros _ i j Hij Hj.
    specialize (IH Hasc (S i) (S j)). simpl in IH. apply IH; lia. }
  destruct j as [|j]; [lia|].
  destruct i as [|i]; simpl.
  - apply Hhd. lia.
  - apply IH; [eapply ascending_tail; eassumption|lia|lia].
Qed.

Lemma ascending_nth_le (xp : list R) (i j : nat) :
  ascending xp -> (i <= j)%nat -> (j < length xp)%nat ->
  nth i xp 0 <= nth j xp 0.
Proof.
  intros Hasc Hij Hj.
  destruct (Nat.eq_dec i j) as [->|Hne]; [lra|].
  left. apply ascending_nth_lt; [assumption|lia|assumption].
Qed.

Lemma last_nth (l : list R) : last l 0 = nth (length l - 1) l 0.
Proof.
  induction l as [|a l IH]; [reflexivity|].
  destruct l as [|b l]; [reflexivity|].
  change (last (a :: b :: l) 0) with (last (b :: l) 0).
  rewrite IH. simpl. rewrite Nat.sub_0_r. reflexivity.
Qed.

Lemma hd_nth (l : list R) : hd 0 l = nth 0 l 0.
Proof.
  destruct l; reflexivity.
Qed.

(** The linear search returns [k] when the first [k] entries are at most
    the key and the next one, if any, is above it. *)
Lemma linear_search_spec (key : R) (arr : list R) (k : nat) :
  (k <= length arr)%nat ->
  (forall i, (i < k)%nat -> nth i arr 0 <= key) ->
  ((k < length arr)%nat -> key < nth k arr 0) ->
  np.linear_search key arr = k.
Proof.
  revert k. induction arr as [|a arr IH]; intros k Hk Hle Hgt; simpl in *.
  - lia.
  - destruct (Rge_dec key a) as [Hge|Hnge].
    + destruct k as [|k].
      * specialize (Hgt ltac:(lia)). lra.
      * f_equal. apply IH; [lia| |].
        -- intros i Hi. apply (Hle (S i)). lia.
        -- intros Hk'. apply Hgt. lia.
    + destruct k as [|k]; [reflexivity|].
      specialize (Hle O ltac:(lia)). simpl in Hle. lra.
Qed.

Lemma linear_search_le (key : R) (arr : list R) :
  (np.linear_search key arr <= length arr)%nat.
Proof.
  induction arr as [|a arr IH]; simpl; [lia|].
  destruct (Rge_dec key a); simpl; lia.
Qed.

(** On an ascending axis the search finds the interval of the key. *)
Lemma linear_search_interval (x : R) (xp : list R) (i : nat) :
  ascending xp -> (i < length xp)%nat ->
  nth i xp 0 <= x ->
  ((S i < length xp)%nat -> x < nth (S i) xp 0) ->
  np.linear_search x (tl xp) = i.
Proof.
  intros Hasc Hi Hle Hlt.
  destruct xp as [|x0 xp]; simpl in *; [lia|].
  apply linear_search_spec.
  - lia.
  - intros k Hk.
    apply Rle_trans with (nth i (x0 :: xp) 0); [|exact Hle].
    change (nth k xp 0) with (nth (S k) (x0 :: xp) 0).
    apply ascending_nth_le; simpl; [assumption|lia|lia].
  - intros Hk. apply Hlt. lia.
Qed.

Lemma interp_ok (x : R) (xp fp : list R) :
  xp <> [] -> length fp = length xp ->
  np.interp x xp fp = Ok (np.interp_value x xp fp).
Proof.
  intros Hne Hlen. unfold np.interp, np.interp_check.
  destruct xp as [|x0 xp]; [congruence|].
  rewrite Hlen, Nat.eqb_refl. reflexivity.
Qed.

(** Inside the sampled range, at or above sample [i] and below the next
    one, the interpolant is the chord through the two samples. *)
Lemma interp_value_inside (x : R) (xp fp : list R) (i : nat) :
  ascending xp -> (S i < length xp)%nat ->
  nth i xp 0 <= x < nth (S i) xp 0 ->
  np.interp_value x xp fp =
  nth i fp 0 +
  (nth (S i) fp 0 - nth i fp 0) / (nth (S i) xp 0 - nth i xp 0) *
  (x - nth i xp 0).
Proof.
  intros Hasc Hi [Hle Hlt]. unfold np.interp_value.
  assert (Hlast : x <= last xp 0).
  { rewrite last_nth. left. apply Rlt_le_trans with (nth (S i) xp 0);
      [exact Hlt|]. apply ascending_nth_le; [assumption|lia|lia]. }
  assert (Hhd : hd 0 xp <= x).
  { rewrite hd_nth. apply Rle_trans with (nth i xp 0); [|exact Hle].
    apply ascending_nth_le; [assumption|lia|lia]. }
  destruct (Rgt_dec x (last xp 0)) as [Hgt|_]; [lra|].
  destruct (Rlt_dec x (hd 0 xp)) as [Hlt'|_]; [lra|].
  rewrite (linear_search_interval x xp i Hasc ltac:(lia) Hle (fun _ => Hlt)).
  destruct (Nat.eqb_spec i (length xp - 1)) as [Heq|_]; [lia|].
  destruct (Req_dec_T (nth i xp 0) x) as [Heq|_].
  - rewrite Heq. lra.
  - lra.
Qed.

(** At a sample point the interpolant is the tabulated value. *)
Lemma interp_value_sample (xp fp : list R) (i : nat) :
  ascending xp -> (i < length xp)%nat ->
  np.interp_value (nth i xp 0) xp fp = nth i fp 0.
Proof.
  intros Hasc Hi. unfold np.interp_value.
  assert (Hlast : nth i xp 0 <= last xp 0).
  { rewrite last_nth. apply ascending_nth_le; [assumption|lia|lia]. }
  assert (Hhd : hd 0 xp <= nth i xp 0).
  { rewrite hd_nth. apply ascending_nth_le; [assumption|lia|lia]. }
  destruct (Rgt_dec (nth i xp 0) (last xp 0)) as [Hgt|_]; [lra|].
  destruct (Rlt_dec (nth i xp 0) (hd 0 xp)) as [Hlt'|_]; [lra|].
  rewrite (linear_search_interval (nth i xp 0) xp i Hasc Hi (Rle_refl _)).
  - destruct (Nat.eqb i (length xp - 1)); [reflexivity|].
    destruct (Req_dec_T (nth i xp 0) (nth i xp 0)); [reflexivity|congruence].
  - intros Hi'. apply ascending_nth_lt; [assumption|lia|assumption].
Qed.

Lemma interp_value_left (x : R) (xp fp : list R) :
  ascending xp -> xp <> [] -> x < hd 0 xp ->
  np.interp_value x xp fp = hd 0 fp.
Proof.
  intros Hasc Hne Hlt. unfold np.interp_value.
  assert (Hlast : hd 0 xp <= last xp 0).
  { rewrite last_nth, hd_nth.
    destruct xp as [|x0 xp]; [congruence|].
    apply ascending_nth_le; simpl; [assumption|lia|lia]. }
  destruct (Rgt_dec x (last xp 0)) as [Hgt|_]; [lra|].
  destruct (Rlt_dec x (hd 0 xp)) as [_|Hn]; [reflexivity|lra].
Qed.

Lemma interp_value_right (x : R) (xp fp : list R) :
  last xp 0 < x -> np.interp_value x xp fp = last fp 0.
Proof.
  intros Hgt. unfold np.interp_value.
  destruct (Rgt_dec x (last xp 0)) as [_|Hn]; [reflexivity|lra].
Qed.

(** [np.interp] over an ascending axis is a clamped linear lookup. *)
Lemma interp_clamped_linear (xp fp : list R) :
  ascending xp -> xp <> [] -> length fp = length xp ->
  clamped_linear (fun x => np.interp x xp fp) xp fp.
Proof.
  intros Hasc Hne Hlen. unfold clamped_linear.
  repeat split; intros.
  - rewrite interp_ok by assumption. f_equal.
    apply interp_value_sample; assumption.
  - rewrite interp_ok by assumption. f_equal.
    destruct (Req_dec_T x (nth (S i) xp 0)) as [->|Hne'].
    + rewrite interp_value_sample by assumption.
      assert (nth i xp 0 < nth (S i) xp 0)
        by (apply ascending_nth_lt; [assumption|lia|assumption]).
      field. lra.
    + apply interp_value_inside; [assumption|assumption|lra].
  - rewrite interp_ok by assumption. f_equal.
    apply interp_value_left; assumption.
  - rewrite interp_ok by assumption. f_equal.
    apply interp_value_right; assumption.
Qed.

(** Decides the comparisons of reals a computation branches on, for a
    goal over concrete numbers. *)
Ltac real_cases :=
  repeat match goal with
    | |- context [Rgt_dec ?a ?b] => destruct (Rgt_dec a b)
    | |- context [Rlt_dec ?a ?b] => destruct (Rlt_dec a b)
    | |- context [Rge_dec ?a ?b] => destruct (Rge_dec a b); simpl
    | |- context [Rle_dec ?a ?b] => destruct (Rle_dec a b)
    | |- context [Req_dec_T ?a ?b] => destruct (Req_dec_T a b)
    end; try lra.

(** The table [(0, 3), (1, 5)]: half-way, to the left and to the right. *)
Example interp_between : np.interp 0.5 [0; 1] [3; 5] = Ok 4.
Proof.
  unfold np.interp, np.interp_value. simpl. f_equal. real_cases.
Qed.

Example interp_below : np.interp (-1) [0; 1] [3; 5] = Ok 3.
Proof.
  unfold np.interp, np.interp_value. simpl. f_equal. real_cases.
Qed.

Example interp_above : np.interp 2 [0; 1] [3; 5] = Ok 5.
Proof.
  unfold np.interp, np.interp_value. simpl. f_equal. real_cases.
Qed.

Example interp_no_points : np.interp 2 [] [] = Raise ValueError.
Proof.
  reflexivity.
Qed.

Example interp_lengths_differ : np.interp 2 [0; 1] [3] = Raise ValueError.
Proof.
  reflexivity.
Qed.

Lemma pysum_fold_right (l : list R) : pysum l = fold_right Rplus 0 l.
Proof.
  unfold pysum. apply fold_symmetric; intros; ring.
Qed.

Lemma getitem_nth {A : Type} (l : list A) (i : nat) (d : A) :
  (i < length l)%nat -> getitem l i = Ok (nth i l d).
Proof.
  intros Hi. unfold getitem.
  rewrite (nth_error_nth' l d Hi). reflexivity.
Qed.

Lemma table_values_ok (alpha : R) (As Fs : list (list R)) :
  Forall2 table_ok As Fs ->
  forall idx, (forall i, In i idx -> (i < length As)%nat) ->
  Airfoil.table_values alpha As (Some Fs) idx =
  Ok (map (fun i => np.interp_value alpha (nth i As []) (nth i Fs [])) idx).
Proof.
  intros Hok idx. induction idx as [|i idx IH]; intros Hidx; [reflexivity|].
  assert (Hi : (i < length As)%nat) by (apply Hidx; left; reflexivity).
  assert (Hlen : length As = length Fs) by (eapply Forall2_length; eassumption).
  assert (Hti : table_ok (nth i As []) (nth i Fs [])).
  { clear IH Hidx Hlen. revert i Hi.
    induction Hok as [|a f As Fs Haf _ IHok]; intros i Hi; simpl in Hi;
      [lia|].
    destruct i as [|i]; simpl; [exact Haf|]. apply IHok. lia. }
  destruct Hti as [Hne Hl].
  simpl.
  rewrite (getitem_nth As i []) by exact Hi. simpl.
  rewrite (getitem_nth Fs i []) by lia. simpl.
  rewrite interp_ok by assumption. simpl.
  rewrite IH by (intros k Hk; apply Hidx; right; exact Hk).
  reflexivity.
Qed.

Lemma map_nth_seq_combine (alpha : R) (As Fs : list (list R)) :
  length As = length Fs ->
  map (fun i => np.interp_value alpha (nth i As []) (nth i Fs []))
      (seq 0 (length As)) =
  interp_values alpha As Fs.
Proof.
  unfold interp_values. revert Fs.
  induction As as [|a As IH]; intros Fs Hlen; destruct Fs as [|f Fs];
    simpl in Hlen; try discriminate; [reflexivity|].
  simpl. f_equal. rewrite <- seq_shift, map_map. apply IH. lia.
Qed.

(** The averaging loop of [Cl] and [Cd] returns the mean of the tables'
    interpolated values. *)
Lemma averaged_mean (alpha : R) (As Fs : list (list R)) :
  As <> [] -> Forall2 table_ok As Fs ->
  Airfoil.averaged alpha (Some As) (Some Fs) =
  Ok (mean (interp_values alpha As Fs)).
Proof.
  intros Hne Hok.
  assert (Hlen : length As = length Fs) by (eapply Forall2_length; eassumption).
  unfold Airfoil.averaged, range. simpl. rewrite Nat2Z.id.
  rewrite table_values_ok
    by (try assumption; intros i Hi; apply in_seq in Hi; lia).
  simpl. rewrite map_nth_seq_combine by assumption.
  unfold fdiv. rewrite <- INR_IZR_INZ.
  destruct (Req_dec_T (INR (length As)) 0) as [H0|_].
  - change 0 with (INR 0) in H0. apply INR_eq in H0.
    destruct As; [congruence|discriminate].
  - unfold mean, interp_values.
    rewrite pysum_fold_right, length_map, length_combine, <- Hlen,
      Nat.min_id.
    reflexivity.
Qed.

Lemma nth_map_offset (off : R) (l : list R) (i : nat) :
  (i < length l)%nat ->
  nth i (map (fun v => v + off) l) 0 = nth i l 0 + off.
Proof.
  intros Hi.
  rewrite (nth_indep _ 0 (0 + off)) by (rewrite length_map; exact Hi).
  apply (map_nth (fun v => v + off)).
Qed.

(** Raising every tabulated value by [off] raises the interpolant by
    [off]. *)
Lemma interp_value_offset (x off : R) (xp fp : list R) :
  table_ok xp fp ->
  np.interp_value x xp (map (fun v => v + off) fp) =
  np.interp_value x xp fp + off.
Proof.
  intros [Hne Hlen]. unfold np.interp_value.
  assert (Hpos : (0 < length fp)%nat).
  { rewrite Hlen. destruct xp; [congruence|simpl; lia]. }
  assert (Hj : (np.linear_search x (tl xp) <= length fp - 1)%nat).
  { rewrite Hlen. pose proof (linear_search_le x (tl xp)) as Hs.
    destruct xp; [congruence|simpl in *; lia]. }
  rewrite !last_nth, !hd_nth, length_map.
  destruct (Rgt_dec x (nth (length xp - 1) xp 0)).
  { apply nth_map_offset. lia. }
  destruct (Rlt_dec x (nth 0 xp 0)).
  { apply nth_map_offset. lia. }
  set (j := np.linear_search x (tl xp)) in *.
  destruct (Nat.eqb_spec j (length xp - 1)) as [Heq|Hneq].
  { apply nth_map_offset. lia. }
  rewrite !nth_map_offset by lia.
  destruct (Req_dec_T (nth j xp 0) x); [reflexivity|].
  lra.
Qed.

(** C7: [Cl] and [Cd] return the arithmetic mean over the loaded tables of
    each table's interpolated value; for two identical tables that is the
    single-table value, and for two tables whose Cl (Cd) values differ by
    a constant offset it is the single-table value plus half the offset. *)
Theorem airfoil_tables_averaged
    (alpha off : R) (As Cs Ds : list (list R)) (a c d : list R) :
  As <> [] -> Forall2 table_ok As Cs -> Forall2 table_ok As Ds ->
  table_ok a c -> table_ok a d ->
  let shifted := map (fun v => v + off) in
  (Airfoil.Cl (Airfoil.mk (Some As) (Some Cs) (Some Ds)) alpha =
     Ok (mean (interp_values alpha As Cs)) /\
   Airfoil.Cd (Airfoil.mk (Some As) (Some Cs) (Some Ds)) alpha =
     Ok (mean (interp_values alpha As Ds))) /\
  (Airfoil.Cl (Airfoil.mk (Some [a]) (Some [c]) (Some [d])) alpha =
     np.interp alpha a c /\
   Airfoil.Cd (Airfoil.mk (Some [a]) (Some [c]) (Some [d])) alpha =
     np.interp alpha a d) /\
  (Airfoil.Cl (Airfoil.mk (Some [a; a]) (Some [c; c]) (Some [d; d])) alpha =
     np.interp alpha a c /\
   Airfoil.Cd (Airfoil.mk (Some [a; a]) (Some [c; c]) (Some [d; d])) alpha =
     np.interp alpha a d) /\
  (Airfoil.Cl (Airfoil.mk (Some [a; a]) (Some [c; shifted c])
                 (Some [d; shifted d])) alpha =
     Ok (np.interp_value alpha a c + off / 2) /\
   Airfoil.Cd (Airfoil.mk (Some [a; a]) (Some [c; shifted c])
                 (Some [d; shifted d])) alpha =
     Ok (np.interp_value alpha a d + off / 2)).
Proof.
  intros HAs HCs HDs Hc Hd shifted.
  assert (Hsh : forall f, table_ok a f -> table_ok a (shifted f)).
  { intros f [Hne Hl]. split; [exact Hne|].
    unfold shifted. rewrite length_map. exact Hl. }
  assert (H1 : forall f, table_ok a f -> Forall2 table_ok [a] [f])
    by (intros f Hf; apply Forall2_cons; [exact Hf|apply Forall2_nil]).
  assert (H2 : forall f g, table_ok a f -> table_ok a g ->
                 Forall2 table_ok [a; a] [f; g])
    by (intros f g Hf Hg; apply Forall2_cons; [exact Hf|apply H1; exact Hg]).
  unfold Airfoil.Cl, Airfoil.Cd. simpl.
  split; [split; apply averaged_mean; assumption|].
  repeat split.
  - rewrite averaged_mean by (try discriminate; auto).
    rewrite interp_ok by apply Hc. f_equal.
    unfold mean, interp_values. simpl. field.
  - rewrite averaged_mean by (try discriminate; auto).
    rewrite interp_ok by apply Hd. f_equal.
    unfold mean, interp_values. simpl. field.
  - rewrite averaged_mean by (try discriminate; auto).
    rewrite interp_ok by apply Hc. f_equal.
    unfold mean, interp_values. simpl. field.
  - rewrite averaged_mean by (try discriminate; auto).
    rewrite interp_ok by apply Hd. f_equal.
    unfold mean, interp_values. simpl. field.
  - rewrite averaged_mean
      by (try discriminate; auto).
    f_equal. unfold mean, interp_values. simpl.
    unfold shifted. rewrite interp_value_offset by assumption. field.
  - rewrite averaged_mean
      by (try discriminate; auto).
    f_equal. unfold mean, interp_values. simpl.
    unfold shifted. rewrite interp_value_offset by assumption. field.
Qed.

(** With a single table the average is the table's interpolated value. *)
Lemma averaged_single (alpha : R) (a f : list R) :
  table_ok a f ->
  Airfoil.averaged alpha (Some [a]) (Some [f]) = np.interp alpha a f.
Proof.
  intros Hf.
  rewrite averaged_mean;
    [|discriminate|apply Forall2_cons; [exact Hf|apply Forall2_nil]].
  rewrite interp_ok by apply Hf. f_equal.
  unfold mean, interp_values. simpl. field.
Qed.

(** C8: over a table whose sample axis is ascending, the interpolated
    lookups ([np.interp] itself, [Blade.chord] and [Blade.twist] over the
    radius, [Airfoil.Cl] and [Airfoil.Cd] over the angle of attack) return
    the tabulated value at a sample point, interpolate linearly between
    adjacent sample points, and return the first or the last tabulated
    value outside the sampled range. *)
Theorem lookups_clamped_linear (xp fp : list R) :
  ascending xp -> table_ok xp fp ->
  clamped_linear (fun x => np.interp x xp fp) xp fp /\
  (forall tw af, clamped_linear (Blade.chord (Blade.mk xp fp tw af)) xp fp) /\
  (forall ch af, clamped_linear (Blade.twist (Blade.mk xp ch fp af)) xp fp) /\
  (forall cds,
     clamped_linear
       (Airfoil.Cl (Airfoil.mk (Some [xp]) (Some [fp]) cds)) xp fp) /\
  (forall cls,
     clamped_linear
       (Airfoil.Cd (Airfoil.mk (Some [xp]) cls (Some [fp]))) xp fp).
Proof.
  intros Hasc Hok.
  assert (Hi : clamped_linear (fun x => np.interp x xp fp) xp fp)
    by (destruct Hok; apply interp_clamped_linear; assumption).
  assert (Hav : clamped_linear
                  (fun x => Airfoil.averaged x (Some [xp]) (Some [fp])) xp fp).
  { destruct Hi as (H1 & H2 & H3 & H4).
    repeat split; intros; rewrite averaged_single by exact Hok; auto. }
  repeat split; intros; try apply Hi; try apply Hav; assumption.
Qed.

Lemma lookups_clamped_linear_witness :
  ascending [0; 1] /\ table_ok [0; 1] [3; 5] /\
  Blade.chord (Blade.mk [0; 1] [3; 5] [0; 0] Airfoil.init) 1 = Ok 5.
Proof.
  assert (Ha : ascending [0; 1]) by (simpl; split; [lra|exact I]).
  assert (Ht : table_ok [0; 1] [3; 5])
    by (split; [discriminate|reflexivity]).
  split; [exact Ha|split; [exact Ht|]].
  destruct (lookups_clamped_linear [0; 1] [3; 5] Ha Ht)
    as (_ & Hch & _).
  destruct (Hch [0; 0] Airfoil.init) as (Hs & _).
  exact (Hs 1%nat (le_n 2)).
Defined.

Lemma airfoil_tables_averaged_witness :
  let t := [0; 1] in
  [t] <> [] /\ Forall2 table_ok [t] [t] /\ table_ok t t /\
  Airfoil.Cl (Airfoil.mk (Some [t; t])
                (Some [t; map (fun v => v + 4) t])
                (Some [t; map (fun v => v + 4) t])) 7 =
  Ok (np.interp_value 7 t t + 4 / 2).
Proof.
  intros t.
  assert (Ht : table_ok t t) by (split; [discriminate|reflexivity]).
  assert (HT : Forall2 table_ok [t] [t])
    by (apply Forall2_cons; [exact Ht|apply Forall2_nil]).
  assert (Hne : [t] <> []) by discriminate.
  split; [exact Hne|split; [exact HT|split; [exact Ht|]]].
  exact (proj1 (proj2 (proj2 (proj2
    (airfoil_tables_averaged 7 4 [t] [t] [t] t t t Hne HT HT Ht Ht))))).
Defined.

(** Two tables on the grid [0, 1], the second one 2 above the first. *)
Example Cl_two_tables :
  Airfoil.Cl (Airfoil.mk (Some [[0; 1]; [0; 1]]) (Some [[3; 5]; [5; 7]])
                None) 0.5 = Ok 5.
Proof.
  unfold Airfoil.Cl, Airfoil.averaged, range. simpl.
  unfold fdiv, pysum, np.interp_value. simpl.
  destruct (Req_dec_T 2 0) as [H0|_]; [exfalso; lra|].
  f_equal. real_cases.
Qed.

(** Before any table is read, the lookups raise. *)
Example Cl_no_tables : Airfoil.Cl Airfoil.init 0 = Raise TypeError.
Proof.
  reflexivity.
Qed.

Lemma read_pairs_length (f : list line) (xs vs : list R) :
  Airfoil.read_pairs f = Ok (xs, vs) -> length vs = length xs.
Proof.
  revert xs vs. induction f as [|l f IH]; intros xs vs H; simpl in H.
  - injection H as <- <-. reflexivity.
  - destruct l as [|fs]; [apply IH; exact H|].
    destruct fs as [|a [|v [|w fs]]]; try discriminate.
    destruct (Airfoil.read_pairs f) as [[xs' vs']|e]; [|discriminate].
    injection H as <- <-. simpl. f_equal. apply IH. reflexivity.
Qed.

Lemma interp_array_ok (xs xp fp : list R) :
  table_ok xp fp ->
  np.interp_array xs xp fp = Ok (map (fun x => np.interp_value x xp fp) xs).
Proof.
  intros [Hne Hlen]. unfold np.interp_array, np.interp_check.
  destruct xp as [|x0 xp]; [congruence|].
  rewrite Hlen, Nat.eqb_refl. reflexivity.
Qed.

(** C9: from two non-empty tables of Cl and of Cd read on their own angle
    grids, [readClCdTables] stores one table on the grid with more sample
    points (the Cd grid when both have as many): the quantity read on that
    grid is kept, the other one is resampled onto it with [np.interp], and
    Cl and Cd then have one value per point of the stored grid. *)
Theorem readClCdTables_common_grid
    (fcl fcd : list line) (self : Airfoil.t)
    (alphascl cls alphascd cds : list R) :
  Airfoil.read_pairs fcl = Ok (alphascl, cls) ->
  Airfoil.read_pairs fcd = Ok (alphascd, cds) ->
  alphascl <> [] -> alphascd <> [] ->
  exists grid cls' cds',
    Airfoil.readClCdTables (Some fcl) (Some fcd) self =
      Ok (Airfoil.mk (Some [grid]) (Some [cls']) (Some [cds'])) /\
    length cls' = length grid /\ length cds' = length grid /\
    ((length alphascd < length alphascl)%nat ->
       grid = alphascl /\ cls' = cls /\
       cds' = map (fun x => np.interp_value x alphascd cds) alphascl /\
       np.interp_array alphascl alphascd cds = Ok cds') /\
    ((length alphascl <= length alphascd)%nat ->
       grid = alphascd /\ cds' = cds /\
       cls' = map (fun x => np.interp_value x alphascl cls) alphascd /\
       np.interp_array alphascd alphascl cls = Ok cls').
Proof.
  intros Hcl Hcd Hnecl Hnecd.
  pose proof (read_pairs_length _ _ _ Hcl) as Hlcl.
  pose proof (read_pairs_length _ _ _ Hcd) as Hlcd.
  assert (Hokcl : table_ok alphascl cls) by (split; assumption).
  assert (Hokcd : table_ok alphascd cds) by (split; assumption).
  unfold Airfoil.readClCdTables. rewrite Hcl, Hcd. simpl.
  destruct (Nat.ltb_spec (length alphascd) (length alphascl)) as [Hlt|Hge].
  - rewrite interp_array_ok by assumption. simpl.
    exists alphascl, cls,
      (map (fun x => np.interp_value x alphascd cds) alphascl).
    rewrite length_map.
    repeat split; try assumption; try reflexivity; try lia.
  - rewrite interp_array_ok by assumption. simpl.
    exists alphascd,
      (map (fun x => np.interp_value x alphascl cls) alphascd), cds.
    rewrite length_map.
    repeat split; try assumption; try reflexivity; try lia.
Qed.

Lemma readClCdTables_common_grid_witness :
  let fcl := [Comment; Fields [0; 1]; Fields [2; 3]; Fields [4; 5]] in
  let fcd := [Fields [0; 7]; Fields [4; 9]] in
  Airfoil.read_pairs fcl = Ok ([0; 2; 4], [1; 3; 5]) /\
  Airfoil.read_pairs fcd = Ok ([0; 4], [7; 9]) /\
  exists cds',
    Airfoil.readClCdTables (Some fcl) (Some fcd) Airfoil.init =
      Ok (Airfoil.mk (Some [[0; 2; 4]]) (Some [[1; 3; 5]]) (Some [cds'])) /\
    length cds' = 3%nat.
Proof.
  intros fcl fcd.
  assert (Hcl : Airfoil.read_pairs fcl = Ok ([0; 2; 4], [1; 3; 5]))
    by reflexivity.
  assert (Hcd : Airfoil.read_pairs fcd = Ok ([0; 4], [7; 9]))
    by reflexivity.
  split; [exact Hcl|split; [exact Hcd|]].
  destruct (readClCdTables_common_grid fcl fcd Airfoil.init
              [0; 2; 4] [1; 3; 5] [0; 4] [7; 9] Hcl Hcd
              ltac:(discriminate) ltac:(discriminate))
    as (grid & cls' & cds' & Hr & Hl1 & Hl2 & Hfine & _).
  destruct (Hfine (le_n 3)) as (-> & -> & _ & _).
  exists cds'. split; [exact Hr|exact Hl2].
Defined.

(** ** The RK4 integrator *)
(** C3: one call to [step] advances [(t, y)] by the classical four-stage
    formula: [k1 = f(t, y)], [k2 = f(t + dt/2, y + dt/2*k1)],
    [k3 = f(t + dt/2, y + dt/2*k2)], [k4 = f(t + dt, y + dt*k3)], the new
    [y] is [y + dt/6*(k1 + 2*k2 + 2*k3 + k4)] and the new [t] is [t + dt];
    [func] and [dt] are kept. *)
Theorem rk4_step_classical {Y : Type} `{Vec Y}
    (f : R -> Y -> Y) (t y dt : _) :
  let k1 := f t y in
  let k2 := f (t + dt / 2) (vadd y (vscale (dt / 2) k1)) in
  let k3 := f (t + dt / 2) (vadd y (vscale (dt / 2) k2)) in
  let k4 := f (t + dt) (vadd y (vscale dt k3)) in
  RK4.step (RK4.mk f t y dt) =
  RK4.mk f (t + dt)
    (vadd y (vscale (dt / 6)
       (vadd (vadd (vadd k1 (vscale 2 k2)) (vscale 2 k3)) k4)))
    dt.
Proof.
  intros k1 k2 k3 k4. unfold RK4.step. simpl.
  rewrite !vscale_vscale.
  replace (dt * 0.5) with (dt / 2) by lra.
  replace (t + 0.5 * dt) with (t + dt / 2) by lra.
  reflexivity.
Qed.

(** On floats, [y' = -y] from [y = 1] with [dt = 1]: one step gives
    [1 - 1 + 1/2 - 1/6 + 1/24]. *)
Example rk4_step_decay :
  RK4.y (RK4.step (RK4.init (fun _ y => - y) 0 1 1)) = 3 / 8.
Proof.
  unfold RK4.step, RK4.init. simpl. lra.
Qed.

(** On arrays, a body at rest under a constant acceleration [a]: one step
    of length [dt = 2] moves it by [a*dt^2/2] and brings it to the speed
    [a*dt]. *)
Example rk4_step_free_fall (a : R) :
  let motion (_ : R) (x : Vector.t R 2) : Vector.t R 2 :=
    Vector.cons R (Vector.hd (Vector.tl x)) 1
      (Vector.cons R a 0 (Vector.nil R)) in
  let x0 := Vector.cons R 0 1 (Vector.cons R 0 0 (Vector.nil R)) in
  Vector.to_list (RK4.y (RK4.step (RK4.init motion 0 x0 2))) =
  [2 * a; 2 * a].
Proof.
  unfold RK4.step, RK4.init. cbn. f_equal; [lra|f_equal; lra].
Qed.

(** ** Vehicle forces *)

Lemma two_PI_rw_neq_0 (rw : R) : rw <> 0 -> 2 * PI * rw <> 0.
Proof.
  intros Hrw. pose proof PI_RGT_0 as Hpi.
  apply Rmult_integral_contrapositive_currified; [lra|exact Hrw].
Qed.

(** With a rotor speed that is not positive, [computeForces] runs to the
    end without calling [calc]. *)
Lemma computeForces_nonpositive
    (v : Vehicle.t) (out : stdout) (Vwind rho theta0 g Vvehicle : R) :
  Vehicle._Vvehicle v = Some Vvehicle ->
  Vehicle._rw v <> 0 -> Vehicle._trans v <> 0 ->
  ~ rotor_rpm_of v Vvehicle > 0 ->
  let vrel := Vvehicle - Vwind in
  let aero :=
    if Rlt_dec vrel 0
    then Vehicle._CDb v * 0.5 * rho * vrel ^ 2 * Vehicle._A v
    else - Vehicle._CDf v * 0.5 * rho * vrel ^ 2 * Vehicle._A v in
  let rolling := - Vehicle._Crr v * Vehicle._m v * g in
  Vehicle.computeForces Vwind rho theta0 g v out =
  (Ok (Vehicle.mk_forces (Some 0) (Some aero) (Some 0) (Some rolling)),
   Vehicle.set_Frr (Some rolling)
     (Vehicle.set_Fdrag_rotor (Some 0)
        (Vehicle.set_Fdrag_aero (Some aero)
           (Vehicle.set_rotor
              (Rotor.set_power (Some 0)
                 (Rotor.set_thrust (Some 0) (Vehicle._rotor v))) v))),
   out ++ [Vehicle.diagnostic]).
Proof.
  intros HV Hrw Htr Hrpm vrel aero rolling.
  unfold rotor_rpm_of in Hrpm.
  unfold Vehicle.computeForces, bind, get. rewrite HV.
  unfold lift, fdiv.
  destruct (Req_dec_T (2 * PI * Vehicle._rw v) 0) as [H0|_];
    [exfalso; revert H0; apply two_PI_rw_neq_0; exact Hrw|].
  destruct (Req_dec_T (Vehicle._trans v) 0) as [H0|_]; [contradiction|].
  destruct (Rgt_dec (Vvehicle / (2 * PI * Vehicle._rw v) * 60 /
                     Vehicle._trans v) 0) as [Hgt|_]; [contradiction|].
  unfold print, Vehicle.on_rotor, modify. simpl.
  unfold aero, vrel.
  destruct (Rlt_dec (Vvehicle - Vwind) 0); reflexivity.
Qed.

(** With a positive rotor speed, [computeForces] starts by running [calc]
    on the vehicle's rotor, and the rotor and the output are what [calc]
    left. *)
Lemma computeForces_positive
    (v : Vehicle.t) (out : stdout) (Vwind rho theta0 g Vvehicle : R)
    (r : result unit) (rotor' : Rotor.t) (out' : stdout) :
  Vehicle._Vvehicle v = Some Vvehicle ->
  Vehicle._rw v <> 0 -> Vehicle._trans v <> 0 ->
  rotor_rpm_of v Vvehicle > 0 ->
  Rotor.calc rho (Vvehicle - Vwind) (rotor_rpm_of v Vvehicle) theta0
    Rotor.maxiters_default Rotor.tol_default Rotor.relax_default
    (Vehicle._rotor v) out = (r, rotor', out') ->
  exists res v',
    Vehicle.computeForces Vwind rho theta0 g v out = (res, v', out') /\
    Vehicle._rotor v' = rotor' /\
    (forall e, r = Raise e -> res = Raise e) /\
    (forall f, res = Ok f ->
       r = Ok tt /\ Vehicle.rotor_thrust f = Rotor._thrust rotor').
Proof.
  intros HV Hrw Htr Hrpm Hcalc.
  unfold rotor_rpm_of in *.
  unfold Vehicle.computeForces, bind, get. rewrite HV.
  unfold lift, fdiv.
  destruct (Req_dec_T (2 * PI * Vehicle._rw v) 0) as [H0|_];
    [exfalso; revert H0; apply two_PI_rw_neq_0; exact Hrw|].
  destruct (Req_dec_T (Vehicle._trans v) 0) as [H0|_]; [contradiction|].
  destruct (Rgt_dec (Vvehicle / (2 * PI * Vehicle._rw v) * 60 /
                     Vehicle._trans v) 0) as [_|Hn]; [|contradiction].
  unfold Vehicle.on_rotor at 1. rewrite Hcalc.
  destruct r as [[]|e].
  - unfold modify, unNone. simpl.
    destruct (Rlt_dec (Vvehicle - Vwind) 0); simpl;
      destruct (Rotor._power rotor') as [power|]; simpl;
      repeat match goal with
        | |- context [Req_dec_T ?a ?b] => destruct (Req_dec_T a b); simpl
        end;
      eexists; eexists; (split; [reflexivity|]);
      (split; [reflexivity|]);
      (split; [intros e' He'; discriminate|]);
      intros f Hf; try discriminate;
      injection Hf as <-; (split; reflexivity).
  - eexists; eexists. split; [reflexivity|].
    split; [reflexivity|].
    split; [intros e' He; injection He as <-; reflexivity
           |intros f Hf; discriminate].
Qed.

(** Whenever [computeForces] returns, the rolling entry of the force
    breakdown is [- Crr * m * g], and the speed had been set. *)
Lemma computeForces_rolling
    (v v' : Vehicle.t) (out out' : stdout) (Vwind rho theta0 g : R)
    (f : Vehicle.forces) :
  Vehicle.computeForces Vwind rho theta0 g v out = (Ok f, v', out') ->
  Vehicle.rolling f = Some (- Vehicle._Crr v * Vehicle._m v * g) /\
  Vehicle._Frr v' = Vehicle.rolling f /\
  exists Vvehicle, Vehicle._Vvehicle v = Some Vvehicle.
Proof.
  unfold Vehicle.computeForces, bind, get, raise.
  destruct (Vehicle._Vvehicle v) as [Vvehicle|]; [|discriminate].
  unfold lift, fdiv.
  destruct (Req_dec_T (2 * PI * Vehicle._rw v) 0); [discriminate|].
  destruct (Req_dec_T (Vehicle._trans v) 0); [discriminate|].
  set (rpm := Vvehicle / (2 * PI * Vehicle._rw v) * 60 / Vehicle._trans v).
  set (aero := fun s : Vehicle.t =>
                 Vehicle.set_Fdrag_aero
                   (Some (Vehicle._CDb s * 0.5 * rho *
                          (Vvehicle - Vwind) ^ 2 * Vehicle._A s)) s).
  set (aero' := fun s : Vehicle.t =>
                  Vehicle.set_Fdrag_aero
                    (Some (- Vehicle._CDf s * 0.5 * rho *
                           (Vvehicle - Vwind) ^ 2 * Vehicle._A s)) s).
  destruct (Rgt_dec rpm 0).
  - unfold Vehicle.on_rotor.
    set (c := Rotor.calc _ _ _ _ _ _ _). clearbody c.
    destruct (c (Vehicle._rotor v) out) as [[[[]|e] rot'] o'];
      [|discriminate].
    unfold modify, unNone, ret.
    destruct (Rlt_dec (Vvehicle - Vwind) 0); cbn -[pow];
      (destruct (Rotor._power rot'); [|discriminate]);
      repeat match goal with
        | |- context [Req_dec_T ?a ?b] =>
            destruct (Req_dec_T a b); [discriminate|]
        end;
      intros H; injection H as <- <- <-; cbn -[pow];
      (split; [reflexivity|]); (split; [reflexivity|]);
      eexists; reflexivity.
  - unfold print, Vehicle.on_rotor, modify, ret.
    destruct (Rlt_dec (Vvehicle - Vwind) 0); cbn -[pow];
      intros H; injection H as <- <- <-; cbn -[pow];
      (split; [reflexivity|]); (split; [reflexivity|]);
      eexists; reflexivity.
Qed.

(** C5 (as the code has it): the rolling-resistance force [computeForces]
    returns is [- Crr * m * g] whatever the speed of the vehicle; for
    [Crr * m * g > 0] it points backwards, so it opposes the motion of a
    vehicle that moves in the positive (downwind) direction and acts
    along the motion of one that moves in the negative direction. *)
Theorem rolling_resistance_constant
    (v v' : Vehicle.t) (out out' : stdout) (Vwind rho theta0 g : R)
    (f : Vehicle.forces) :
  Vehicle.computeForces Vwind rho theta0 g v out = (Ok f, v', out') ->
  exists Vvehicle F,
    Vehicle._Vvehicle v = Some Vvehicle /\
    Vehicle.rolling f = Some F /\
    F = - Vehicle._Crr v * Vehicle._m v * g /\
    (0 < Vehicle._Crr v * Vehicle._m v * g ->
     F < 0 /\
     (0 < Vvehicle -> F * Vvehicle < 0) /\
     (Vvehicle < 0 -> 0 < F * Vvehicle)).
Proof.
  intros Hrun.
  destruct (computeForces_rolling _ _ _ _ _ _ _ _ _ Hrun)
    as (Hroll & _ & Vvehicle & HV).
  exists Vvehicle, (- Vehicle._Crr v * Vehicle._m v * g).
  repeat split; try assumption; nra.
Qed.

Lemma rotor_rpm_vehicle0 (Vvehicle : R) :
  Vvehicle <= 0 -> ~ rotor_rpm_of (vehicle0 Vvehicle) Vvehicle > 0.
Proof.
  intros HV. unfold rotor_rpm_of, vehicle0. simpl.
  pose proof PI_RGT_0 as Hpi.
  assert (Hinv : 0 < / (2 * PI * 1)) by (apply Rinv_0_lt_compat; lra).
  unfold Rdiv. intros Hgt.
  assert (Vvehicle * / (2 * PI * 1) <= 0) by nra.
  lra.
Qed.

Lemma rolling_resistance_constant_witness :
  exists f v' out',
    Vehicle.computeForces 0 1 0 1 (vehicle0 (-1)) [] = (Ok f, v', out') /\
    exists Vvehicle F,
      Vehicle._Vvehicle (vehicle0 (-1)) = Some Vvehicle /\
      Vehicle.rolling f = Some F /\
      F = - Vehicle._Crr (vehicle0 (-1)) * Vehicle._m (vehicle0 (-1)) * 1.
Proof.
  pose proof (computeForces_nonpositive (vehicle0 (-1)) [] 0 1 0 1 (-1)
                eq_refl R1_neq_R0 R1_neq_R0
                (rotor_rpm_vehicle0 (-1) ltac:(lra))) as Hrun.
  cbv zeta in Hrun.
  eexists; eexists; eexists. split; [exact Hrun|].
  destruct (rolling_resistance_constant _ _ _ _ _ _ _ _ _ Hrun)
    as (Vvehicle & F & HV & HF & HF' & _).
  exists Vvehicle, F. repeat split; assumption.
Defined.

(** C5 as stated fails: a vehicle that rolls backwards (speed [-1]) gets
    the rolling force [-1], along its motion and not against it. *)
Lemma rolling_resistance_along_motion :
  exists f v' out' F Vvehicle,
    Vehicle.computeForces 0 1 0 1 (vehicle0 (-1)) [] = (Ok f, v', out') /\
    Vehicle._Vvehicle (vehicle0 (-1)) = Some Vvehicle /\
    Vehicle.rolling f = Some F /\
    Vvehicle <> 0 /\ 0 < F * Vvehicle.
Proof.
  pose proof (computeForces_nonpositive (vehicle0 (-1)) [] 0 1 0 1 (-1)
                eq_refl R1_neq_R0 R1_neq_R0
                (rotor_rpm_vehicle0 (-1) ltac:(lra))) as Hrun.
  cbv zeta in Hrun.
  eexists; eexists; eexists. exists (-1), (-1).
  split; [exact Hrun|].
  split; [reflexivity|]. split; [|split; lra].
  simpl. f_equal. lra.
Qed.

(** C6: with the speed set, a rotor speed that is not strictly positive
    makes [computeForces] return without raising and without calling
    [calc] (the rotor is the one before with thrust and power set to
    zero): the returned rotor thrust, the rotor power and the returned
    rotor drag are zero and the diagnostic is printed.  A strictly
    positive rotor speed makes it call [calc] on its rotor with the air
    density, the vehicle speed minus the wind speed, the rotor rpm and the
    collective pitch. *)
Theorem computeForces_rotor_speed_cases
    (v : Vehicle.t) (out : stdout) (Vwind rho theta0 g Vvehicle : R) :
  Vehicle._Vvehicle v = Some Vvehicle ->
  Vehicle._rw v <> 0 -> Vehicle._trans v <> 0 ->
  let rotor_rpm := rotor_rpm_of v Vvehicle in
  (~ rotor_rpm > 0 ->
   exists f v',
     Vehicle.computeForces Vwind rho theta0 g v out =
       (Ok f, v', out ++ [Vehicle.diagnostic]) /\
     Vehicle._rotor v' =
       Rotor.set_power (Some 0)
         (Rotor.set_thrust (Some 0) (Vehicle._rotor v)) /\
     Vehicle.rotor_thrust f = Some 0 /\
     Rotor._thrust (Vehicle._rotor v') = Some 0 /\
     Rotor._power (Vehicle._rotor v') = Some 0 /\
     Vehicle.rotor_drag f = Some 0) /\
  (rotor_rpm > 0 ->
   forall r rotor' out',
     Rotor.calc rho (Vvehicle - Vwind) rotor_rpm theta0
       Rotor.maxiters_default Rotor.tol_default Rotor.relax_default
       (Vehicle._rotor v) out = (r, rotor', out') ->
     exists res v',
       Vehicle.computeForces Vwind rho theta0 g v out = (res, v', out') /\
       Vehicle._rotor v' = rotor' /\
       (forall e, r = Raise e -> res = Raise e) /\
       (forall f, res = Ok f ->
          r = Ok tt /\ Vehicle.rotor_thrust f = Rotor._thrust rotor')).
Proof.
  intros HV Hrw Htr rotor_rpm. split.
  - intros Hrpm.
    pose proof (computeForces_nonpositive v out Vwind rho theta0 g Vvehicle
                  HV Hrw Htr Hrpm) as Hrun.
    cbv zeta in Hrun.
    eexists; eexists. split; [exact Hrun|].
    repeat split; reflexivity.
  - intros Hrpm r rotor' out' Hcalc.
    eapply computeForces_positive; eassumption.
Qed.

Lemma rotor_rpm_vehicle0_pos (Vvehicle : R) :
  0 < Vvehicle -> rotor_rpm_of (vehicle0 Vvehicle) Vvehicle > 0.
Proof.
  intros HV. unfold rotor_rpm_of, vehicle0. simpl.
  pose proof PI_RGT_0 as Hpi.
  assert (Hinv : 0 < / (2 * PI * 1)) by (apply Rinv_0_lt_compat; lra).
  unfold Rdiv.
  assert (0 < Vvehicle * / (2 * PI * 1)) by nra.
  lra.
Qed.

Lemma computeForces_rotor_speed_cases_witness :
  (exists f v',
     Vehicle.computeForces 10 1 2 32 (vehicle0 0) [] =
       (Ok f, v', [Vehicle.diagnostic]) /\
     Vehicle.rotor_thrust f = Some 0 /\
     Vehicle.rotor_drag f = Some 0) /\
  (exists res v' out',
     Vehicle.computeForces 10 1 2 32 (vehicle0 20) [] = (res, v', out') /\
     Vehicle._rotor v' =
       snd (fst (Rotor.calc 1 (20 - 10) (rotor_rpm_of (vehicle0 20) 20) 2
                   Rotor.maxiters_default Rotor.tol_default
                   Rotor.relax_default (Rotor.init blade0 5) []))).
Proof.
  split.
  - destruct (proj1 (computeForces_rotor_speed_cases (vehicle0 0) []
                       10 1 2 32 0 eq_refl R1_neq_R0 R1_neq_R0)
                    (rotor_rpm_vehicle0 0 (Rle_refl 0)))
      as (f & v' & Hrun & _ & Hth & _ & _ & Hdr).
    exists f, v'. repeat split; assumption.
  - destruct (Rotor.calc 1 (20 - 10) (rotor_rpm_of (vehicle0 20) 20) 2
                Rotor.maxiters_default Rotor.tol_default
                Rotor.relax_default (Rotor.init blade0 5) [])
      as [[r rotor'] out'] eqn:Hcalc.
    destruct (proj2 (computeForces_rotor_speed_cases (vehicle0 20) []
                       10 1 2 32 20 eq_refl R1_neq_R0 R1_neq_R0)
                    (rotor_rpm_vehicle0_pos 20 ltac:(lra))
                    r rotor' out' Hcalc)
      as (res & v' & Hrun & Hrot & _).
    exists res, v', out'. split; [exact Hrun|exact Hrot].
Defined.

(** ** The rotor solver *)

Lemma setitem_length {A : Type} (l l' : list A) (i : nat) (v : A) :
  setitem l i v = Ok l' -> length l' = length l.
Proof.
  revert l' i. induction l as [|a l IH]; intros l' i H; simpl in H.
  - discriminate.
  - destruct i as [|i].
    + injection H as <-. reflexivity.
    + destruct (setitem l i v) as [l''|] eqn:E; [|discriminate].
      injection H as <-. simpl. f_equal. eapply IH. exact E.
Qed.

(** What [calc] keeps: any relation between rotor states that is a
    preorder and that holds across each of the writes [calc] performs. *)
Section Frame.

Variable Rel : Rotor.t -> Rotor.t -> Prop.

Hypothesis Rel_refl : forall s, Rel s s.
Hypothesis Rel_trans : forall s1 s2 s3, Rel s1 s2 -> Rel s2 s3 -> Rel s1 s3.
Hypothesis Rel_inflow : forall s l,
  length l = length (Rotor._inflow s) -> Rel s (Rotor.set_inflow l s).
Hypothesis Rel_alpha : forall s l, Rel s (Rotor.set_alpha l s).
Hypothesis Rel_cl : forall s l, Rel s (Rotor.set_cl l s).
Hypothesis Rel_cd : forall s l, Rel s (Rotor.set_cd l s).
Hypothesis Rel_dT : forall s l, Rel s (Rotor.set_dT l s).
Hypothesis Rel_dP : forall s l, Rel s (Rotor.set_dP l s).
Hypothesis Rel_thrust : forall s v, Rel s (Rotor.set_thrust v s).
Hypothesis Rel_power : forall s v, Rel s (Rotor.set_power v s).
Hypothesis Rel_CT : forall s v, Rel s (Rotor.set_CT v s).
Hypothesis Rel_CP : forall s v, Rel s (Rotor.set_CP v s).

Lemma keeps_ret {A : Type} (a : A) : keeps Rel (ret a).
Proof.
  intros s o. apply Rel_refl.
Qed.

Lemma keeps_lift {A : Type} (r : result A) : keeps Rel (lift r).
Proof.
  intros s o. apply Rel_refl.
Qed.

Lemma keeps_get : keeps Rel get.
Proof.
  intros s o. apply Rel_refl.
Qed.

Lemma keeps_print (msg : string) : keeps Rel (print msg).
Proof.
  intros s o. apply Rel_refl.
Qed.

Lemma keeps_bind {A B : Type} (m : M Rotor.t A) (k : A -> M Rotor.t B) :
  keeps Rel m -> (forall a, keeps Rel (k a)) -> keeps Rel (bind m k).
Proof.
  intros Hm Hk s o. unfold bind.
  specialize (Hm s o).
  destruct (m s o) as [[[a|e] s'] o']; simpl in *.
  - eapply Rel_trans; [exact Hm|apply Hk].
  - exact Hm.
Qed.

Lemma keeps_modify (f : Rotor.t -> Rotor.t) :
  (forall s, Rel s (f s)) -> keeps Rel (modify f).
Proof.
  intros Hf s o. apply Hf.
Qed.

Lemma keeps_update (f : Rotor.t -> result Rotor.t) :
  (forall s s', f s = Ok s' -> Rel s s') -> keeps Rel (update f).
Proof.
  intros Hf s o. unfold update.
  destruct (f s) as [s'|e] eqn:E; simpl.
  - apply Hf. exact E.
  - apply Rel_refl.
Qed.

(** A store [self._x[strip] = v] into one of the output arrays. *)
Lemma keeps_store (proj : Rotor.t -> list R)
    (set : list R -> Rotor.t -> Rotor.t) (strip : nat) (v : R) :
  (forall s l, length l = length (proj s) -> Rel s (set l s)) ->
  keeps Rel (update (fun s => l <- setitem (proj s) strip v ;;
                              Ok (set l s))%result).
Proof.
  intros Hset. apply keeps_update. intros s s' Hs.
  destruct (setitem (proj s) strip v) as [l|] eqn:E; simpl in Hs;
    [|discriminate].
  injection Hs as <-. apply Hset. eapply setitem_length. exact E.
Qed.

Lemma keeps_integrate (rho om Ro : R) :
  keeps Rel (Rotor.integrate rho om Ro).
Proof.
  unfold Rotor.integrate.
  repeat (apply keeps_bind; [|intros ?]);
    try apply keeps_get; try apply keeps_lift;
    apply keeps_modify; intros s; auto.
Qed.

Lemma keeps_calc_strip
    (rho V om theta0 : R) (maxiters : Z) (tol relax Ro : R)
    (strip : nat) (loc : option Rotor.strip_out) :
  keeps Rel
    (Rotor.calc_strip rho V om theta0 maxiters tol relax Ro strip loc).
Proof.
  unfold Rotor.calc_strip.
  apply keeps_bind; [apply keeps_get|intros self].
  apply keeps_bind; [apply keeps_lift|intros r].
  apply keeps_bind; [apply keeps_lift|intros vi0].
  apply keeps_bind; [apply keeps_lift|intros [[vi inflow_err] loc']].
  apply keeps_bind;
    [destruct (Rgt_dec inflow_err tol);
       [apply keeps_print|apply keeps_ret]|intros _].
  apply keeps_bind; [apply keeps_store; exact Rel_inflow|intros _].
  apply keeps_bind; [apply keeps_lift|intros o].
  apply keeps_bind; [apply keeps_store; auto|intros _].
  apply keeps_bind; [apply keeps_store; auto|intros _].
  apply keeps_bind; [apply keeps_store; auto|intros _].
  apply keeps_bind; [apply keeps_store; auto|intros _].
  apply keeps_bind; [apply keeps_store; auto|intros _].
  apply keeps_bind; [apply keeps_integrate|intros _].
  apply keeps_ret.
Qed.

Lemma keeps_calc_strips
    (rho V om theta0 : R) (maxiters : Z) (tol relax Ro : R)
    (strips : list nat) :
  forall loc,
  keeps Rel
    (Rotor.calc_strips rho V om theta0 maxiters tol relax Ro strips loc).
Proof.
  induction strips as [|strip strips IH]; intros loc; simpl.
  - apply keeps_ret.
  - apply keeps_bind; [apply keeps_calc_strip|exact IH].
Qed.

Lemma keeps_calc (rho V rpm theta0 : R) (maxiters : Z) (tol relax : R) :
  keeps Rel (Rotor.calc rho V rpm theta0 maxiters tol relax).
Proof.
  unfold Rotor.calc.
  apply keeps_bind; [apply keeps_get|intros s].
  apply keeps_bind; [apply keeps_lift|intros Ro].
  apply keeps_calc_strips.
Qed.

End Frame.

Lemma same_configuration_trans (s1 s2 s3 : Rotor.t) :
  same_configuration s1 s2 -> same_configuration s2 s3 ->
  same_configuration s1 s3.
Proof.
  unfold same_configuration.
  intros (H1 & H2 & H3 & H4 & H5 & H6) (K1 & K2 & K3 & K4 & K5 & K6).
  repeat split; congruence.
Qed.

Lemma calc_keeps_configuration
    (rho V rpm theta0 : R) (maxiters : Z) (tol relax : R) :
  keeps same_configuration (Rotor.calc rho V rpm theta0 maxiters tol relax).
Proof.
  apply keeps_calc; try (intros; repeat split; fail).
  apply same_configuration_trans.
Qed.

Lemma calc_strip_keeps_inflow_length
    (rho V om theta0 : R) (maxiters : Z) (tol relax Ro : R)
    (strip : nat) (loc : option Rotor.strip_out) :
  keeps same_inflow_length
    (Rotor.calc_strip rho V om theta0 maxiters tol relax Ro strip loc).
Proof.
  apply keeps_calc_strip; unfold same_inflow_length;
    try (intros; reflexivity).
  - intros s1 s2 s3 H1 H2. congruence.
  - intros s l Hl. exact Hl.
Qed.

(** C10: [calc] never modifies the discretization or the configuration of
    the rotor: whatever the arguments, and whether it returns or raises,
    the strip-centre radii, the chord and twist arrays, the strip width,
    the blade count and the blade (with its airfoil tables) are the same
    after the call as before; what it writes is among the per-strip
    outputs and the aggregates. *)
Theorem calc_preserves_configuration
    (rho V rpm theta0 : R) (maxiters : Z) (tol relax : R)
    (self : Rotor.t) (out : stdout) :
  let self' := snd (fst (Rotor.calc rho V rpm theta0 maxiters tol relax
                           self out)) in
  Rotor._rstrip self' = Rotor._rstrip self /\
  Rotor._chordstrip self' = Rotor._chordstrip self /\
  Rotor._twiststrip self' = Rotor._twiststrip self /\
  Rotor._dR self' = Rotor._dR self /\
  Rotor._nblades self' = Rotor._nblades self /\
  Rotor._blade self' = Rotor._blade self.
Proof.
  intros self'.
  destruct (calc_keeps_configuration rho V rpm theta0 maxiters tol relax
              self out) as (H1 & H2 & H3 & H4 & H5 & H6).
  repeat split; assumption.
Qed.

(** A strip index beyond the inflow array makes its pass raise. *)
Lemma calc_strip_beyond_inflow
    (rho V om theta0 : R) (maxiters : Z) (tol relax Ro : R)
    (strip : nat) (loc : option Rotor.strip_out)
    (s : Rotor.t) (o : stdout) :
  (length (Rotor._inflow s) <= strip)%nat ->
  fst (fst (Rotor.calc_strip rho V om theta0 maxiters tol relax Ro strip loc
              s o)) = Raise IndexError.
Proof.
  intros Hlen. unfold Rotor.calc_strip, bind, get, lift.
  unfold getitem at 1.
  destruct (nth_error (Rotor._rstrip s) strip); [|reflexivity].
  unfold getitem at 1.
  replace (nth_error (Rotor._inflow s) strip) with (@None R)
    by (symmetry; apply nth_error_None; exact Hlen).
  reflexivity.
Qed.

(** [calc] cannot return from a loop over strips that holds an index
    beyond the inflow array. *)
Lemma calc_strips_beyond_inflow
    (rho V om theta0 : R) (maxiters : Z) (tol relax Ro : R)
    (strips : list nat) :
  forall loc s o,
  (exists i, In i strips /\ (length (Rotor._inflow s) <= i)%nat) ->
  exists e,
    fst (fst (Rotor.calc_strips rho V om theta0 maxiters tol relax Ro
                strips loc s o)) = Raise e.
Proof.
  induction strips as [|strip strips IH]; intros loc s o (i & Hin & Hi).
  - destruct Hin.
  - simpl. unfold bind.
    pose proof (calc_strip_keeps_inflow_length rho V om theta0 maxiters tol
                  relax Ro strip loc s o) as Hkeep.
    pose proof (calc_strip_beyond_inflow rho V om theta0 maxiters tol
                  relax Ro strip loc s o) as Hbeyond.
    destruct (Rotor.calc_strip rho V om theta0 maxiters tol relax Ro strip
                loc s o) as [[[loc'|e] s'] o']; simpl in *.
    + destruct Hin as [<-|Hin].
      * specialize (Hbeyond Hi). discriminate.
      * apply IH. exists i. split; [exact Hin|].
        unfold same_inflow_length in Hkeep. lia.
    + exists e. reflexivity.
Qed.

(** With more strip centres than inflow values, [calc] raises. *)
Lemma calc_raises_on_short_inflow
    (rho V rpm theta0 : R) (maxiters : Z) (tol relax : R)
    (s : Rotor.t) (o : stdout) :
  (length (Rotor._inflow s) < length (Rotor._rstrip s))%nat ->
  exists e,
    fst (fst (Rotor.calc rho V rpm theta0 maxiters tol relax s o)) = Raise e.
Proof.
  intros Hlen. unfold Rotor.calc, bind, get, lift.
  destruct (Blade.outerRadius (Rotor._blade s)) as [Ro|e];
    [|exists e; reflexivity].
  apply calc_strips_beyond_inflow.
  exists (length (Rotor._inflow s)). split; [|lia].
  apply in_seq. lia.
Qed.

Lemma acos_le_PI2 (x : R) : 0 <= x <= 1 -> acos x <= PI / 2.
Proof.
  intros Hx.
  destruct (Rle_dec (acos x) (PI / 2)) as [Hle|Hgt]; [exact Hle|].
  exfalso.
  pose proof (acos_bound x) as Hb.
  pose proof PI_RGT_0 as Hpi.
  assert (Hcos : cos (acos x) < 0) by (apply cos_lt_0; lra).
  rewrite cos_acos in Hcos by lra. lra.
Qed.

Lemma atan_pos (x : R) : 0 < x -> 0 < atan x < PI / 2.
Proof.
  intros Hx. split.
  - rewrite <- atan_0. apply atan_increasing. exact Hx.
  - apply atan_bound.
Qed.

(** On a strip inside the disk, turning forwards in an axial flow
    through the disk, with blades, the tip-loss factor is computed and
    lies in [(0, 1]]. *)
Lemma tip_loss_in_range (b Ro r V vi om : R) :
  let phi := atan ((V + vi) / (om * r)) in
  let f := 0.5 * b * (Ro - r) / (r * sin phi) in
  V + vi > 0 -> 0 < r < Ro -> 0 < om -> 0 < b ->
  Rotor.tip_loss b Ro r V vi phi = Ok (2 / PI * acos (exp (- f))) /\
  0 < 2 / PI * acos (exp (- f)) <= 1.
Proof.
  intros phi f Hpos [Hr HrRo] Hom Hb.
  unfold Rotor.tip_loss, fdiv, math_acos. fold f.
  pose proof PI_RGT_0 as Hpi.
  assert (Hq : 0 < (V + vi) / (om * r)).
  { apply Rdiv_lt_0_compat; [lra|]. apply Rmult_lt_0_compat; lra. }
  destruct (atan_pos _ Hq) as [Hphi0 Hphi1]. fold phi in Hphi0, Hphi1.
  assert (Hsin : 0 < sin phi) by (apply sin_gt_0; lra).
  assert (Hden : 0 < r * sin phi) by (apply Rmult_lt_0_compat; lra).
  assert (Hf : 0 < f).
  { unfold f. apply Rdiv_lt_0_compat; [|exact Hden].
    apply Rmult_lt_0_compat; [lra|lra]. }
  assert (He0 : 0 < exp (- f)) by apply exp_pos.
  assert (He1 : exp (- f) < 1).
  { rewrite <- exp_0. apply exp_increasing. lra. }
  destruct (Rgt_dec (V + vi) 0); [|contradiction].
  destruct (Req_dec_T (r * sin phi) 0); simpl; [lra|]. fold f.
  destruct (Rle_dec (-1) (exp (- f))); [|lra].
  destruct (Rle_dec (exp (- f)) 1); [|lra].
  split; [reflexivity|].
  assert (Hac0 : 0 < acos (exp (- f)))
    by (apply acos_bound_lt; lra).
  assert (Hac1 : acos (exp (- f)) <= PI / 2)
    by (apply acos_le_PI2; lra).
  assert (Hinv : 0 < / PI) by (apply Rinv_0_lt_compat; exact Hpi).
  split.
  - apply Rmult_lt_0_compat; [|exact Hac0].
    unfold Rdiv. apply Rmult_lt_0_compat; lra.
  - replace 1 with (2 / PI * (PI / 2)) by (field; lra).
    apply Rmult_le_compat_l; [|exact Hac1].
    unfold Rdiv. apply Rlt_le, Rmult_lt_0_compat; lra.
Qed.

(** C2: the tip-loss factor is [F = 2/pi * acos(exp(-f))] with
    [f = 0.5*B*(R_outer - r)/(r*sin(phi))] when [V + v_i > 0], and [F = 1]
    otherwise; on a strip with [0 < r < R_outer], at a positive rotational
    speed, with [V + v_i > 0] and at least one blade ([B > 0]), the factor
    is computed without error and lies in [(0, 1]]. *)
Theorem tip_loss_factor (b Ro r V vi om : R) :
  let phi := atan ((V + vi) / (om * r)) in
  let f := 0.5 * b * (Ro - r) / (r * sin phi) in
  (~ V + vi > 0 -> Rotor.tip_loss b Ro r V vi phi = Ok 1) /\
  (V + vi > 0 ->
   forall F, Rotor.tip_loss b Ro r V vi phi = Ok F ->
             F = 2 / PI * acos (exp (- f))) /\
  (V + vi > 0 -> 0 < r < Ro -> 0 < om -> 0 < b ->
   Rotor.tip_loss b Ro r V vi phi = Ok (2 / PI * acos (exp (- f))) /\
   0 < 2 / PI * acos (exp (- f)) <= 1).
Proof.
  intros phi f.
  split; [|split].
  - intros Hn. unfold Rotor.tip_loss.
    destruct (Rgt_dec (V + vi) 0); [contradiction|reflexivity].
  - intros Hpos F. unfold Rotor.tip_loss, fdiv, math_acos. fold f.
    destruct (Rgt_dec (V + vi) 0); [|contradiction].
    destruct (Req_dec_T (r * sin phi) 0); simpl; [discriminate|].
    fold f.
    destruct (Rle_dec (-1) (exp (- f))); [|discriminate].
    destruct (Rle_dec (exp (- f)) 1); [|discriminate].
    simpl. intros H. injection H as <-. reflexivity.
  - apply tip_loss_in_range.
Qed.

Lemma tip_loss_factor_witness :
  1 + 0 > 0 /\ 0 < 1 < 2 /\ 0 < 3 /\ 0 < 5 /\
  exists F, Rotor.tip_loss 5 2 1 1 0 (atan ((1 + 0) / (3 * 1))) = Ok F /\
            0 < F <= 1.
Proof.
  assert (H1 : 1 + 0 > 0) by lra.
  assert (H2 : 0 < 1 < 2) by lra.
  assert (H3 : 0 < 3) by lra.
  assert (H4 : 0 < 5) by lra.
  split; [exact H1|split; [exact H2|split; [exact H3|split; [exact H4|]]]].
  destruct (proj2 (proj2 (tip_loss_factor 5 2 1 1 0 3)) H1 H2 H3 H4)
    as [Hrun Hbound].
  eexists. split; [exact Hrun|exact Hbound].
Defined.



(** On a strip inside the disk of a discretized rotor with blades and
    well-formed airfoil tables, turning forwards in air of positive
    density, an iteration of the inflow loop completes. *)
Lemma inflow_step_total
    (self : Rotor.t) (rho V om theta0 relax Ro : R) (strip : nat)
    (r vi dR : R) (As Cs Ds : list (list R)) :
  Blade._airfoil (Rotor._blade self) =
    Airfoil.mk (Some As) (Some Cs) (Some Ds) ->
  As <> [] -> Forall2 table_ok As Cs -> Forall2 table_ok As Ds ->
  (strip < length (Rotor._twiststrip self))%nat ->
  (strip < length (Rotor._chordstrip self))%nat ->
  Rotor._dR self = Some dR -> 0 < dR ->
  0 < rho -> 0 < om -> 0 < r < Ro -> (0 < Rotor._nblades self)%Z ->
  exists it,
    Rotor.inflow_step self rho V om theta0 relax Ro strip r vi = Ok it.
Proof.
  intros Haf HAs HCs HDs Htw Hch HdR HdRpos Hrho Hom [Hr HrRo] Hb.
  pose proof PI_RGT_0 as Hpi.
  assert (Homr : 0 < om * r) by (apply Rmult_lt_0_compat; assumption).
  assert (HomRo : 0 < om * Ro) by (apply Rmult_lt_0_compat; lra).
  assert (Hbpos : 0 < IZR (Rotor._nblades self)) by (apply IZR_lt; exact Hb).
  unfold Rotor.inflow_step.
  unfold fdiv at 1.
  destruct (Req_dec_T (om * r) 0) as [H0|_]; [exfalso; lra|].
  cbn [rbind].
  rewrite (getitem_nth _ _ 0 Htw). cbn [rbind].
  unfold Airfoil.Cl, Airfoil.Cd. rewrite Haf.
  cbn [Airfoil._alphas Airfoil._cls Airfoil._cds].
  rewrite !averaged_mean by assumption. cbn [rbind].
  rewrite (getitem_nth _ _ 0 Hch). cbn [rbind].
  assert (Hft : exists Ft,
            Rotor.tip_loss (IZR (Rotor._nblades self)) Ro r V vi
              (atan ((V + vi) / (om * r))) = Ok Ft).
  { destruct (Rgt_dec (V + vi) 0) as [Hpos|Hneg].
    - eexists.
      apply (tip_loss_in_range (IZR (Rotor._nblades self)) Ro r V vi om);
        try assumption. split; assumption.
    - exists 1. unfold Rotor.tip_loss.
      destruct (Rgt_dec (V + vi) 0); [contradiction|reflexivity]. }
  destruct Hft as [Ft ->]. cbn [rbind].
  rewrite HdR. cbn [unNone rbind].
  unfold Rotor.momentum_arg, fdiv.
  destruct (Req_dec_T (4 * PI * rho * r * dR) 0) as [H0|_].
  { exfalso. assert (0 < 4 * PI * rho * r * dR)
      by (apply Rmult_lt_0_compat; [|lra]; apply Rmult_lt_0_compat; [|lra];
          apply Rmult_lt_0_compat; lra).
    lra. }
  cbn [rbind].
  destruct (Req_dec_T (om * Ro) 0) as [H0|_]; [exfalso; lra|].
  eexists. reflexivity.
Qed.

(** The locals [calc] stores after the inflow loop were left either by an
    earlier strip or by a completed iteration of this loop, and then the
    inflow and the error it returns are those of that iteration. *)
Lemma inflow_loop_locals
    (self : Rotor.t) (rho V om theta0 relax Ro tol : R) (strip : nat)
    (r : R) (fuel : nat) :
  forall (vi err : R) (loc : option Rotor.strip_out)
         (vi' err' : R) (loc' : option Rotor.strip_out),
  Rotor.inflow_loop self rho V om theta0 relax Ro tol strip r fuel
    vi err loc = Ok (vi', err', loc') ->
  (vi' = vi /\ err' = err /\ loc' = loc) \/
  (exists vi0 it,
     Rotor.inflow_step self rho V om theta0 relax Ro strip r vi0 = Ok it /\
     loc' = Some (Rotor.i_out it) /\
     vi' = Rotor.i_vi it /\ err' = Rotor.i_inflow_err it).
Proof.
  induction fuel as [|fuel IH]; intros vi err loc vi' err' loc' H;
    simpl in H.
  - injection H as <- <- <-. left. repeat split.
  - destruct (Rgt_dec err tol).
    + destruct (Rotor.inflow_step self rho V om theta0 relax Ro strip r vi)
        as [it|] eqn:Hstep; simpl in H; [|discriminate].
      destruct (IH _ _ _ _ _ _ H) as [(-> & -> & ->)|Hlater].
      * right. exists vi, it. repeat split. exact Hstep.
      * right. exact Hlater.
    + injection H as <- <- <-. left. repeat split.
Qed.

Lemma flat_airfoil_Cl (alpha : R) : Airfoil.Cl flat_airfoil alpha = Ok 0.
Proof.
  unfold Airfoil.Cl, flat_airfoil. simpl.
  rewrite averaged_single by (split; [discriminate|reflexivity]).
  rewrite interp_ok by (try discriminate; reflexivity). f_equal.
  unfold np.interp_value. simpl. real_cases.
Qed.

Lemma rotor1_step :
  exists it, Rotor.inflow_step rotor1 1 0 1 0 0.01 2 0 1.5 0 = Ok it.
Proof.
  unfold Rotor.inflow_step, rotor1.
  cbn [Rotor._nblades Rotor._twiststrip Rotor._chordstrip Rotor._dR
       Rotor._blade Blade._airfoil getitem nth_error rbind unNone].
  unfold fdiv at 1.
  destruct (Req_dec_T (1 * 1.5) 0) as [H0|_]; [exfalso; lra|].
  cbn [rbind].
  pose proof flat_airfoil_Cl as Hcl.
  assert (Hcd : forall alpha, Airfoil.Cd flat_airfoil alpha = Ok 0)
    by exact Hcl.
  rewrite Hcl, Hcd. cbn [rbind].
  unfold Rotor.tip_loss.
  destruct (Rgt_dec (0 + 0) 0) as [H0|_]; [exfalso; lra|].
  cbn [rbind].
  unfold Rotor.momentum_arg, fdiv.
  pose proof PI_RGT_0 as Hpi.
  destruct (Req_dec_T (4 * PI * 1 * 1.5 * 1) 0) as [H0|_];
    [exfalso; lra|].
  cbn [rbind].
  destruct (Req_dec_T (1 * 2) 0) as [H0|_]; [exfalso; lra|].
  eexists. reflexivity.
Defined.


(** ** Discretization *)

Lemma discretize_loop_run (bl : Blade.t) (Ri dR : R) (idx : list nat) :
  table_ok (Blade._radial bl) (Blade._chord bl) ->
  table_ok (Blade._radial bl) (Blade._twist bl) ->
  forall s o, Rotor._blade s = bl ->
  let rs := map (fun i => Ri + (INR i + 0.5) * dR) idx in
  for_each idx (Rotor.discretize_strip Ri dR) s o =
  (Ok tt,
   Rotor.set_twiststrip
     (Rotor._twiststrip s ++
      map (fun r => np.interp_value r (Blade._radial bl) (Blade._twist bl))
          rs)
     (Rotor.set_chordstrip
        (Rotor._chordstrip s ++
         map (fun r => np.interp_value r (Blade._radial bl) (Blade._chord bl))
             rs)
        (Rotor.set_rstrip (Rotor._rstrip s ++ rs) s)),
   o).
Proof.
  intros [Hne Hch] [_ Htw].
  induction idx as [|i idx IH]; intros s o Hbl rs.
  - destruct s. simpl. rewrite !app_nil_r. reflexivity.
  - simpl. unfold bind at 1.
    unfold Rotor.discretize_strip, bind, modify, get, lift.
    cbn [Rotor._blade Rotor.set_rstrip Rotor.set_chordstrip].
    unfold Blade.chord, Blade.twist. rewrite Hbl.
    rewrite !interp_ok by assumption.
    rewrite IH by (destruct s; exact Hbl).
    destruct s. simpl. rewrite <- !app_assoc. reflexivity.
Qed.

(** On a blade with well-formed tables, [discretize(nstrips)] returns for
    every [nstrips] other than zero, in the state [discretized]. *)
Lemma discretize_run (nstrips : Z) (s : Rotor.t) (o : stdout) (Ri : R)
    (radial' : list R) :
  Blade._radial (Rotor._blade s) = Ri :: radial' ->
  table_ok (Blade._radial (Rotor._blade s)) (Blade._chord (Rotor._blade s)) ->
  table_ok (Blade._radial (Rotor._blade s)) (Blade._twist (Rotor._blade s)) ->
  IZR nstrips <> 0 ->
  Rotor.discretize nstrips s o =
  (Ok tt, discretized nstrips Ri (last (Ri :: radial') 0) s, o).
Proof.
  intros Hrad Hch Htw HN.
  unfold Rotor.discretize.
  unfold bind at 1, modify at 1.
  unfold bind at 1, modify at 1.
  unfold bind at 1, get at 1.
  cbn [Rotor._blade Rotor.set_chordstrip Rotor.set_twiststrip].
  unfold Blade.innerRadius, Blade.outerRadius. rewrite Hrad.
  unfold bind at 1, lift at 1. cbn [getitem nth_error].
  unfold bind at 1, lift at 1.
  unfold bind at 1, lift at 1, fdiv.
  destruct (Req_dec_T (IZR nstrips) 0) as [|_]; [contradiction|].
  unfold bind at 1, modify at 1.
  unfold bind at 1.
  rewrite (discretize_loop_run (Rotor._blade s))
    by (try assumption; reflexivity).
  unfold bind, modify, discretized.
  destruct s. reflexivity.
Qed.

(** The first call on a new rotor gives the strip centres
    [Ri + (i + 0.5)*dR] with [dR = (Ro - Ri)/N], and as many chords and
    twists. *)
Lemma discretize_new_rotor (N : Z) (bl : Blade.t) (b : Z) (o : stdout)
    (Ri : R) (radial' : list R) :
  Blade._radial bl = Ri :: radial' ->
  table_ok (Blade._radial bl) (Blade._chord bl) ->
  table_ok (Blade._radial bl) (Blade._twist bl) ->
  (1 <= N)%Z ->
  let dR := (last (Ri :: radial') 0 - Ri) / IZR N in
  exists s,
    Rotor.discretize N (Rotor.init bl b) o = (Ok tt, s, o) /\
    Rotor._dR s = Some dR /\
    Rotor._rstrip s = strip_centers Ri dR (Z.to_nat N) /\
    length (Rotor._rstrip s) = Z.to_nat N /\
    length (Rotor._chordstrip s) = Z.to_nat N /\
    length (Rotor._twiststrip s) = Z.to_nat N /\
    length (Rotor._inflow s) = Z.to_nat N.
Proof.
  intros Hrad Hch Htw HN dR.
  assert (HN0 : IZR N <> 0) by (apply not_0_IZR; lia).
  eexists. split.
  - apply (discretize_run N (Rotor.init bl b) o Ri radial'); assumption.
  - unfold discretized, strip_centers, range. simpl.
    rewrite !length_map, length_seq, repeat_length.
    repeat split; reflexivity.
Qed.

(** A call on a rotor that has been discretized appends the new strip
    centres to the old ones. *)
Lemma discretize_again (N : Z) (s : Rotor.t) (o : stdout)
    (Ri : R) (radial' : list R) :
  Blade._radial (Rotor._blade s) = Ri :: radial' ->
  table_ok (Blade._radial (Rotor._blade s)) (Blade._chord (Rotor._blade s)) ->
  table_ok (Blade._radial (Rotor._blade s)) (Blade._twist (Rotor._blade s)) ->
  (1 <= N)%Z ->
  let dR := (last (Ri :: radial') 0 - Ri) / IZR N in
  exists s',
    Rotor.discretize N s o = (Ok tt, s', o) /\
    Rotor._blade s' = Rotor._blade s /\
    Rotor._rstrip s' = Rotor._rstrip s ++ strip_centers Ri dR (Z.to_nat N) /\
    length (Rotor._chordstrip s') = Z.to_nat N /\
    length (Rotor._twiststrip s') = Z.to_nat N /\
    length (Rotor._inflow s') = Z.to_nat N.
Proof.
  intros Hrad Hch Htw HN dR.
  assert (HN0 : IZR N <> 0) by (apply not_0_IZR; lia).
  eexists. split.
  - apply (discretize_run N s o Ri radial'); assumption.
  - unfold discretized, strip_centers, range. simpl.
    rewrite !length_map, length_seq, repeat_length.
    repeat split; reflexivity.
Qed.

(** ** A rotor without lift at hover *)

Lemma getitem_repeat_0 (n i : nat) :
  (i < n)%nat -> getitem (repeat 0 n) i = Ok 0.
Proof.
  intros Hi. rewrite (getitem_nth _ _ 0) by (rewrite repeat_length; exact Hi).
  f_equal. apply nth_repeat.
Qed.

Lemma setitem_repeat_0 (n i : nat) :
  (i < n)%nat -> setitem (repeat 0 n) i 0 = Ok (repeat 0 n).
Proof.
  revert i. induction n as [|n IH]; intros i Hi; [lia|].
  destruct i as [|i]; simpl; [reflexivity|].
  rewrite IH by lia. reflexivity.
Qed.

Lemma setitem_in_range {A : Type} (l : list A) (i : nat) (v : A) :
  (i < length l)%nat -> exists l', setitem l i v = Ok l'.
Proof.
  revert i. induction l as [|a l IH]; intros i Hi; simpl in Hi; [lia|].
  destruct i as [|i]; simpl; [eexists; reflexivity|].
  destruct (IH i ltac:(lia)) as [l' ->]. eexists; reflexivity.
Qed.

Lemma sum_repeat_0 (n : nat) : np.sum (repeat 0 n) = 0.
Proof.
  unfold np.sum.
  induction n as [|n IH]; simpl; [reflexivity|].
  rewrite IH. lra.
Qed.

(** At hover ([V = 0]) and from a zero inflow, an iteration over an
    airfoil without lift or drag finds no thrust, no power and a zero
    inflow candidate. *)
Lemma inflow_step_hover (s : Rotor.t) (n : nat)
    (rho om theta0 relax Ro : R) (strip : nat) (r : R) :
  hover_ready s n -> (strip < n)%nat -> 0 < r ->
  0 < rho -> 0 < om -> 0 < Ro ->
  exists alpha,
    Rotor.inflow_step s rho 0 om theta0 relax Ro strip r 0 =
    Ok (Rotor.mk_iterate (Rotor.mk_out alpha 0 0 0 0) 0 0 0).
Proof.
  intros Hs Hstrip Hr Hrho Hom HRo.
  destruct Hs as [HCl HCd Hlr _ Hlc Hlt (dR & HdR & HdRpos) _ _ _ _ _ _].
  pose proof PI_RGT_0 as Hpi.
  assert (Homr : 0 < om * r) by (apply Rmult_lt_0_compat; assumption).
  assert (HomRo : 0 < om * Ro) by (apply Rmult_lt_0_compat; assumption).
  unfold Rotor.inflow_step.
  unfold fdiv at 1.
  destruct (Req_dec_T (om * r) 0) as [H0|_]; [exfalso; lra|].
  cbn [rbind].
  destruct (nth_error (Rotor._twiststrip s) strip) as [tw|] eqn:Etw;
    [|apply nth_error_None in Etw; lia].
  unfold getitem at 1. rewrite Etw. cbn [rbind].
  rewrite HCl, HCd. cbn [rbind].
  destruct (nth_error (Rotor._chordstrip s) strip) as [ch|] eqn:Ech;
    [|apply nth_error_None in Ech; lia].
  unfold getitem at 1. rewrite Ech. cbn [rbind].
  unfold Rotor.tip_loss.
  destruct (Rgt_dec (0 + 0) 0) as [H0|_]; [exfalso; lra|].
  cbn [rbind]. rewrite HdR. cbn [unNone rbind].
  unfold Rotor.momentum_arg, fdiv.
  destruct (Req_dec_T (4 * PI * rho * r * dR) 0) as [H0|_].
  { exfalso. assert (0 < 4 * PI * rho * r * dR)
      by (apply Rmult_lt_0_compat; [|lra]; apply Rmult_lt_0_compat; [|lra];
          apply Rmult_lt_0_compat; lra).
    lra. }
  cbn [rbind].
  destruct (Req_dec_T (om * Ro) 0) as [H0|_]; [exfalso; lra|].
  eexists. f_equal.
  set (phi := atan ((0 + 0) / (om * r))).
  set (b := IZR (Rotor._nblades s)).
  set (Usq := (om * r) ^ 2 + (0 + 0) ^ 2).
  assert (HdT : b * 1 * dR *
                (0.5 * rho * Usq * ch * 0 * cos phi -
                 0.5 * rho * Usq * ch * 0 * sin phi) = 0).
  { rewrite !Rmult_0_r, !Rmult_0_l. unfold Rminus.
    rewrite Ropp_0, Rplus_0_r, Rmult_0_r. reflexivity. }
  assert (HdP : b * 1 * (om * r) * dR *
                (0.5 * rho * Usq * ch * 0 * cos phi +
                 0.5 * rho * Usq * ch * 0 * sin phi) = 0).
  { rewrite !Rmult_0_r, !Rmult_0_l, Rplus_0_r, Rmult_0_r. reflexivity. }
  rewrite HdT, HdP.
  assert (Hvim : -0.5 * 0 + sqrt (Rmax (0.25 * 0 ^ 2 +
                                       0 / (4 * PI * rho * r * dR)) 0) = 0).
  { replace (0.25 * 0 ^ 2 + 0 / (4 * PI * rho * r * dR)) with 0
      by (unfold Rdiv; rewrite Rmult_0_l; lra).
    rewrite Rmax_left by lra. rewrite sqrt_0. lra. }
  rewrite Hvim.
  replace ((0 - 0) ^ 2) with 0 by lra.
  rewrite sqrt_0.
  replace (0 / (om * Ro)) with 0 by (unfold Rdiv; rewrite Rmult_0_l; lra).
  replace (relax * 0 + (1 - relax) * 0) with 0 by lra.
  reflexivity.
Qed.

Lemma inflow_loop_hover (s : Rotor.t) (n : nat)
    (rho om theta0 relax Ro tol : R) (strip : nat) (r : R) (fuel : nat)
    (loc : option Rotor.strip_out) :
  hover_ready s n -> (strip < n)%nat -> 0 < r ->
  0 < rho -> 0 < om -> 0 < Ro -> 0 <= tol < 1e6 -> (2 <= fuel)%nat ->
  exists alpha,
    Rotor.inflow_loop s rho 0 om theta0 relax Ro tol strip r fuel 0 1e6 loc =
    Ok (0, 0, Some (Rotor.mk_out alpha 0 0 0 0)).
Proof.
  intros Hs Hstrip Hr Hrho Hom HRo Htol Hfuel.
  destruct (inflow_step_hover s n rho om theta0 relax Ro strip r
              Hs Hstrip Hr Hrho Hom HRo) as [alpha Hstep].
  exists alpha.
  destruct fuel as [|[|fuel]]; try lia.
  cbn [Rotor.inflow_loop].
  destruct (Rgt_dec 1e6 tol) as [_|Hn]; [|exfalso; lra].
  rewrite Hstep. cbn [rbind Rotor.i_vi Rotor.i_inflow_err Rotor.i_out].
  destruct (Rgt_dec 0 tol) as [Hgt|_]; [exfalso; lra|].
  reflexivity.
Qed.

Lemma getitem_Forall {A : Type} (P : A -> Prop) (l : list A) (i : nat) :
  Forall P l -> (i < length l)%nat -> exists a, getitem l i = Ok a /\ P a.
Proof.
  intros HP Hi. unfold getitem.
  destruct (nth_error l i) as [a|] eqn:E.
  - exists a. split; [reflexivity|].
    rewrite Forall_forall in HP. apply HP. eapply nth_error_In. exact E.
  - apply nth_error_None in E. lia.
Qed.

(** One pass of [calc] over a strip of such a rotor returns, keeps the
    rotor as it was but for the stored angle of attack, and finds no
    thrust and no power. *)
Lemma calc_strip_hover (s : Rotor.t) (n : nat) (o : stdout)
    (rho om theta0 : R) (maxiters : Z) (tol relax Ro : R) (strip : nat)
    (loc : option Rotor.strip_out) :
  hover_ready s n -> (strip < n)%nat ->
  0 < rho -> 0 < om -> 0 < Ro -> 0 <= tol < 1e6 -> (2 <= maxiters)%Z ->
  exists loc' s',
    Rotor.calc_strip rho 0 om theta0 maxiters tol relax Ro strip loc s o =
      (Ok loc', s', o) /\
    hover_ready s' n /\
    Rotor._thrust s' = Some 0 /\ Rotor._power s' = Some 0 /\
    Rotor._CT s' = Some 0 /\ Rotor._CP s' = Some 0.
Proof.
  intros Hs Hstrip Hrho Hom HRo Htol Hmax.
  pose proof Hs as [HCl HCd Hlr Hrad Hlc Hlt HdR Hinf Hal Hcl Hcd HdT HdP].
  pose proof PI_RGT_0 as Hpi.
  destruct (getitem_Forall _ _ strip Hrad ltac:(lia)) as (r & Hgr & Hr).
  destruct (inflow_loop_hover s n rho om theta0 relax Ro tol strip r
              (Z.to_nat maxiters) loc Hs Hstrip Hr Hrho Hom HRo Htol
              ltac:(lia)) as [alpha Hloop].
  destruct (setitem_in_range (Rotor._alpha s) strip alpha ltac:(lia))
    as [al' Hal'].
  pose proof (setitem_length _ _ _ _ Hal') as Hlal'.
  assert (HomRo : 0 < om * Ro) by (apply Rmult_lt_0_compat; assumption).
  assert (HA : 0 < rho * (PI * Ro ^ 2)).
  { apply Rmult_lt_0_compat; [lra|]. apply Rmult_lt_0_compat; [lra|].
    apply pow_lt. lra. }
  assert (H2 : rho * (PI * Ro ^ 2) * (om * Ro) ^ 2 <> 0).
  { apply Rgt_not_eq. apply Rmult_lt_0_compat; [lra|]. apply pow_lt. lra. }
  assert (H3 : rho * (PI * Ro ^ 2) * (om * Ro) ^ 3 <> 0).
  { apply Rgt_not_eq. apply Rmult_lt_0_compat; [lra|]. apply pow_lt. lra. }
  unfold Rotor.calc_strip, bind, get, lift.
  rewrite Hgr, Hinf, getitem_repeat_0 by exact Hstrip.
  rewrite Hloop.
  destruct (Rgt_dec 0 tol) as [Hgt|_]; [exfalso; lra|].
  unfold ret at 1, update at 1.
  rewrite Hinf, setitem_repeat_0 by exact Hstrip. cbn [rbind bound].
  repeat (unfold update at 1;
          cbn [Rotor._alpha Rotor._cl Rotor._cd Rotor._dT Rotor._dP
               Rotor.set_inflow Rotor.set_alpha Rotor.set_cl Rotor.set_cd
               Rotor.set_dT Rotor.set_dP
               Rotor.o_alpha Rotor.o_cl Rotor.o_cd Rotor.o_dT Rotor.o_dP];
          rewrite ?Hal', ?Hcl, ?Hcd, ?HdT, ?HdP;
          rewrite ?setitem_repeat_0 by exact Hstrip;
          cbn [rbind]).
  unfold Rotor.integrate, bind, modify, get, lift, ret.
  cbn [Rotor._dT Rotor._dP Rotor._thrust Rotor._power Rotor.set_thrust
       Rotor.set_power Rotor.set_CT Rotor.set_dP Rotor.set_dT unNone].
  rewrite !sum_repeat_0.
  unfold fdiv.
  destruct (Req_dec_T (rho * (PI * Ro ^ 2) * (om * Ro) ^ 2) 0) as [H0|_];
    [contradiction|].
  destruct (Req_dec_T (rho * (PI * Ro ^ 2) * (om * Ro) ^ 3) 0) as [H0|_];
    [contradiction|].
  eexists; eexists. split; [reflexivity|].
  cbn. unfold Rdiv. rewrite !Rmult_0_l.
  repeat split; try reflexivity; try assumption.
  cbn. lia.
Qed.

Lemma calc_strips_hover (n : nat)
    (rho om theta0 : R) (maxiters : Z) (tol relax Ro : R)
    (strips : list nat) :
  0 < rho -> 0 < om -> 0 < Ro -> 0 <= tol < 1e6 -> (2 <= maxiters)%Z ->
  (forall i, In i strips -> (i < n)%nat) ->
  forall loc s o, hover_ready s n ->
  exists s',
    Rotor.calc_strips rho 0 om theta0 maxiters tol relax Ro strips loc s o =
      (Ok tt, s', o) /\
    hover_ready s' n /\
    (strips <> [] -> Rotor._thrust s' = Some 0 /\ Rotor._power s' = Some 0).
Proof.
  intros Hrho Hom HRo Htol Hmax.
  induction strips as [|strip strips IH]; intros Hin loc s o Hs.
  - exists s. split; [reflexivity|]. split; [exact Hs|congruence].
  - destruct (calc_strip_hover s n o rho om theta0 maxiters tol relax Ro
                strip loc Hs (Hin strip (or_introl eq_refl))
                Hrho Hom HRo Htol Hmax)
      as (loc' & s1 & Hrun & Hs1 & Hth & Hpw & _).
    destruct (IH (fun i Hi => Hin i (or_intror Hi)) loc' s1 o Hs1)
      as (s' & Hrun' & Hs' & Hrest).
    exists s'. simpl. unfold bind. rewrite Hrun.
    split; [exact Hrun'|]. split; [exact Hs'|].
    intros _. destruct strips as [|strip' strips].
    + simpl in Hrun'. unfold ret in Hrun'. injection Hrun' as <-.
      split; assumption.
    + apply Hrest. discriminate.
Qed.

(** At hover, [calc] returns on a rotor without lift whose arrays have
    one entry per strip, and finds no thrust and no power. *)
Lemma calc_hover (s : Rotor.t) (n : nat) (o : stdout)
    (rho rpm theta0 : R) (maxiters : Z) (tol relax : R) :
  hover_ready s n -> (0 < n)%nat ->
  Blade._radial (Rotor._blade s) <> [] ->
  0 < last (Blade._radial (Rotor._blade s)) 0 ->
  0 < rho -> 0 < rpm -> 0 <= tol < 1e6 -> (2 <= maxiters)%Z ->
  exists s',
    Rotor.calc rho 0 rpm theta0 maxiters tol relax s o = (Ok tt, s', o) /\
    Rotor._thrust s' = Some 0 /\ Rotor._power s' = Some 0.
Proof.
  intros Hs Hn Hrad HRo Hrho Hrpm Htol Hmax.
  pose proof PI_RGT_0 as Hpi.
  assert (Hom : 0 < rpm * 1 / 60 * 2 * PI).
  { apply Rmult_lt_0_compat; [lra|exact Hpi]. }
  unfold Rotor.calc, bind, get, lift. unfold Blade.outerRadius.
  destruct (Blade._radial (Rotor._blade s)) as [|r0 radial] eqn:E;
    [congruence|].
  destruct (calc_strips_hover n rho (rpm * 1 / 60 * 2 * PI) theta0 maxiters
              tol relax (last (r0 :: radial) 0)
              (seq 0 (length (Rotor._rstrip s)))
              Hrho Hom HRo Htol Hmax) with (loc := @None Rotor.strip_out)
              (s := s) (o := o)
    as (s' & Hrun & _ & Hout).
  - intros i Hi. apply in_seq in Hi. rewrite (hr_rstrip _ _ Hs) in Hi. lia.
  - exact Hs.
  - exists s'. split; [exact Hrun|]. apply Hout.
    rewrite (hr_rstrip _ _ Hs). destruct n; [lia|discriminate].
Qed.

(** [rotor2] is what [discretize(2)] makes of a new rotor: strips centred
    at 8.625 and 22.875, 14.25 wide. *)
Example rotor2_discretized :
  Rotor.discretize 2 (Rotor.init blade0 5) [] = (Ok tt, rotor2, []) /\
  Forall2 (fun r c => r = c) (Rotor._rstrip rotor2) [8.625; 22.875] /\
  Rotor._dR rotor2 = Some ((30 - 1.5) / 2).
Proof.
  split; [|split].
  - apply (discretize_run 2 (Rotor.init blade0 5) [] 1.5 [5; 30]);
      try (split; [discriminate|reflexivity]); [reflexivity|lra].
  - unfold rotor2, discretized, range. simpl.
    repeat constructor; lra.
  - reflexivity.
Qed.

Lemma rotor2_hover_ready : hover_ready rotor2 2.
Proof.
  constructor; try reflexivity.
  - intros alpha. apply flat_airfoil_Cl.
  - intros alpha. apply flat_airfoil_Cl.
  - unfold rotor2, discretized, range. simpl.
    repeat constructor; lra.
  - eexists. split; [reflexivity|]. simpl. lra.
Qed.

(** A vehicle that rolls at the speed of the wind: the rotor turns in
    still air, [calc] runs and [computeForces] returns the four forces,
    of which only the rolling resistance is not zero. *)
Example computeForces_at_wind_speed :
  exists v',
    Vehicle.computeForces 10 1 0 32 (vehicle2 10) [] =
    (Ok (Vehicle.mk_forces (Some 0) (Some 0) (Some 0) (Some (-6.4))),
     v', []).
Proof.
  pose proof PI_RGT_0 as Hpi.
  assert (Hinv : 0 < / (2 * PI * 1)) by (apply Rinv_0_lt_compat; lra).
  set (rpm := 10 / (2 * PI * 1) * 60 / 1).
  assert (Hrpm : 0 < rpm) by (unfold rpm, Rdiv; nra).
  assert (Hom : 0 < rpm * 1 / 60 * 2 * PI)
    by (apply Rmult_lt_0_compat; lra).
  destruct (calc_hover rotor2 2 [] 1 rpm 0 Rotor.maxiters_default
              Rotor.tol_default Rotor.relax_default rotor2_hover_ready)
    as (rotor' & Hcalc & Hthrust & Hpower);
    try (unfold Rotor.tol_default; lra);
    [lia|discriminate|simpl; lra|unfold Rotor.maxiters_default; lia|].
  unfold Vehicle.computeForces, bind, get, lift, fdiv, vehicle2.
  cbn [Vehicle._Vvehicle Vehicle._rw Vehicle._trans Vehicle.set_Vvehicle
       Vehicle.init].
  destruct (Req_dec_T (2 * PI * 1) 0) as [H0|_]; [exfalso; lra|].
  destruct (Req_dec_T 1 0) as [H0|_]; [exfalso; lra|].
  fold rpm.
  destruct (Rgt_dec rpm 0) as [_|Hn]; [|exfalso; lra].
  unfold Vehicle.on_rotor at 1.
  cbn [Vehicle._rotor Vehicle.set_Vvehicle Vehicle.init].
  replace (10 - 10) with 0 by lra.
  rewrite Hcalc.
  destruct (Rlt_dec 0 0) as [H0|_]; [exfalso; lra|].
  unfold modify, ret, unNone.
  cbn [Vehicle._rotor Vehicle.set_rotor Vehicle.set_Fdrag_aero
       Vehicle._eta_trans Vehicle._trans Vehicle._rw].
  rewrite Hpower.
  repeat (cbn;
          match goal with
          | |- context [Req_dec_T ?a 0] =>
              destruct (Req_dec_T a 0) as [H0|_]; [exfalso; lra|]
          end).
  eexists. cbn. rewrite Hthrust.
  repeat f_equal; unfold Rdiv; rewrite ?Rmult_0_l; lra.
Qed.

(** C4 fails on the code: [discretize] empties the chord and twist arrays
    but not [_rstrip].  On the blade of the validation case, a second
    [discretize(2)] leaves four strip centres (the two of the first call,
    twice) next to two chords, two twists and two inflow values, so the
    second call is not idempotent; [calc], which returns after the first
    call, raises after the second. *)
Theorem discretize_twice_appends :
  exists s1 s2,
    Rotor.discretize 2 (Rotor.init blade0 5) [] = (Ok tt, s1, []) /\
    Rotor.discretize 2 s1 [] = (Ok tt, s2, []) /\
    Rotor._rstrip s1 = strip_centers 1.5 ((30 - 1.5) / 2) 2 /\
    Rotor._rstrip s2 = Rotor._rstrip s1 ++ Rotor._rstrip s1 /\
    length (Rotor._rstrip s2) = 4%nat /\
    length (Rotor._chordstrip s2) = 2%nat /\
    length (Rotor._twiststrip s2) = 2%nat /\
    length (Rotor._inflow s2) = 2%nat /\
    s2 <> s1 /\
    (exists s1',
       Rotor.calc 1 0 960 0 Rotor.maxiters_default Rotor.tol_default
         Rotor.relax_default s1 [] = (Ok tt, s1', [])) /\
    (forall rho V rpm theta0 maxiters tol relax o,
     exists e,
       fst (fst (Rotor.calc rho V rpm theta0 maxiters tol relax s2 o)) =
       Raise e).
Proof.
  assert (Hch : table_ok (Blade._radial blade0) (Blade._chord blade0))
    by (split; [discriminate|reflexivity]).
  assert (Htw : table_ok (Blade._radial blade0) (Blade._twist blade0))
    by (split; [discriminate|reflexivity]).
  assert (H2 : IZR 2 <> 0) by lra.
  pose proof (discretize_run 2 (Rotor.init blade0 5) [] 1.5 [5; 30]
                eq_refl Hch Htw H2) as Hrun1.
  set (s1 := discretized 2 1.5 (last [1.5; 5; 30] 0) (Rotor.init blade0 5))
    in Hrun1.
  pose proof (discretize_run 2 s1 [] 1.5 [5; 30] eq_refl Hch Htw H2)
    as Hrun2.
  set (s2 := discretized 2 1.5 (last [1.5; 5; 30] 0) s1) in Hrun2.
  exists s1, s2.
  split; [exact Hrun1|]. split; [exact Hrun2|].
  split; [reflexivity|]. split; [reflexivity|].
  split; [reflexivity|]. split; [reflexivity|].
  split; [reflexivity|]. split; [reflexivity|].
  split.
  { intros Heq.
    apply (f_equal (fun s => length (Rotor._rstrip s))) in Heq.
    discriminate Heq. }
  split.
  - destruct (calc_hover s1 2 [] 1 960 0 Rotor.maxiters_default
                Rotor.tol_default Rotor.relax_default rotor2_hover_ready)
      as (s1' & Hcalc & _); try lra.
    + lia.
    + discriminate.
    + simpl. lra.
    + unfold Rotor.tol_default. lra.
    + unfold Rotor.maxiters_default. lia.
    + exists s1'. exact Hcalc.
  - intros. apply calc_raises_on_short_inflow. simpl. lia.
Qed.

(** * Further properties of the code *)

(** ** Interpolated lookups never overshoot *)

(** Where the linear search stops: the entries before the index are at
    most the key, and the entry at the index, if any, is above it. *)
Lemma linear_search_stop (key : R) (arr : list R) :
  let j := np.linear_search key arr in
  (forall i, (i < j)%nat -> nth i arr 0 <= key) /\
  ((j < length arr)%nat -> key < nth j arr 0).
Proof.
  induction arr as [|a arr IH]; simpl.
  - split; intros; lia.
  - destruct (Rge_dec key a) as [Hge|Hlt]; simpl.
    + destruct IH as [IH1 IH2]. split.
      * intros [|i] Hi; [lra|]. apply IH1. lia.
      * intros Hj. apply IH2. lia.
    + split; [intros i Hi; lia|]. intros _. lra.
Qed.

(** The interval of a key that is inside the range of the axis. *)
Lemma interp_interval (x : R) (xp : list R) :
  xp <> [] -> ~ x < hd 0 xp ->
  let j := np.linear_search x (tl xp) in
  (j < length xp)%nat /\ nth j xp 0 <= x /\
  ((S j < length xp)%nat -> x < nth (S j) xp 0).
Proof.
  intros Hne Hhd j.
  destruct xp as [|x0 xp]; [congruence|]. simpl in *.
  pose proof (linear_search_le x xp) as Hle.
  destruct (linear_search_stop x xp) as [Hbefore Hat].
  fold j in Hle, Hbefore, Hat.
  split; [lia|]. split.
  - destruct j as [|j]; [lra|]. apply Hbefore. lia.
  - intros Hj. apply Hat. lia.
Qed.

Lemma nth_in_bounds (lo hi : R) (fp : list R) (i : nat) :
  Forall (fun v => lo <= v <= hi) fp -> (i < length fp)%nat ->
  lo <= nth i fp 0 <= hi.
Proof.
  intros Hall Hi. rewrite Forall_forall in Hall.
  apply Hall. apply nth_In. exact Hi.
Qed.

(** A point of the chord between two values lies between them. *)
Lemma chord_between (lo hi f0 f1 x0 x1 x : R) :
  lo <= f0 <= hi -> lo <= f1 <= hi -> x0 <= x < x1 ->
  lo <= (f1 - f0) / (x1 - x0) * (x - x0) + f0 <= hi.
Proof.
  intros H0 H1 Hx.
  set (t := (x - x0) / (x1 - x0)).
  assert (Ht : 0 <= t <= 1).
  { unfold t. split.
    - apply Rmult_le_pos; [lra|]. apply Rlt_le, Rinv_0_lt_compat. lra.
    - apply Rmult_le_reg_r with (x1 - x0); [lra|].
      unfold Rdiv. rewrite Rmult_assoc, Rinv_l by lra. lra. }
  replace ((f1 - f0) / (x1 - x0) * (x - x0) + f0)
    with (f0 + t * (f1 - f0)) by (unfold t; field; lra).
  nra.
Qed.

(** Values between [lo] and [hi] interpolate to a value between [lo] and
    [hi], wherever the lookup is made. *)
Lemma interp_value_bounded (lo hi x : R) (xp fp : list R) :
  table_ok xp fp -> Forall (fun v => lo <= v <= hi) fp ->
  lo <= np.interp_value x xp fp <= hi.
Proof.
  intros [Hne Hlen] Hall.
  assert (Hpos : (0 < length fp)%nat).
  { rewrite Hlen. destruct xp; [congruence|simpl; lia]. }
  unfold np.interp_value.
  destruct (Rgt_dec x (last xp 0)) as [_|_].
  { rewrite last_nth. apply nth_in_bounds; [exact Hall|lia]. }
  destruct (Rlt_dec x (hd 0 xp)) as [_|Hhd].
  { rewrite hd_nth. apply nth_in_bounds; [exact Hall|lia]. }
  destruct (interp_interval x xp Hne Hhd) as (Hj & Hle & Hlt).
  set (j := np.linear_search x (tl xp)) in *.
  destruct (Nat.eqb_spec j (length xp - 1)) as [_|Hnl].
  { apply nth_in_bounds; [exact Hall|lia]. }
  destruct (Req_dec_T (nth j xp 0) x) as [_|Hneq].
  { apply nth_in_bounds; [exact Hall|lia]. }
  apply chord_between.
  - apply nth_in_bounds; [exact Hall|lia].
  - apply nth_in_bounds; [exact Hall|lia].
  - split; [exact Hle|]. apply Hlt. lia.
Qed.

Lemma nondecreasing_nth (fp : list R) (i j : nat) :
  nondecreasing fp -> (i <= j)%nat -> (j < length fp)%nat ->
  nth i fp 0 <= nth j fp 0.
Proof.
  intros Hnd Hij Hj. induction j as [|j IH].
  - replace i with 0%nat by lia. lra.
  - destruct (Nat.eq_dec i (S j)) as [->|Hne]; [lra|].
    apply Rle_trans with (nth j fp 0); [apply IH; lia|].
    apply Hnd. exact Hj.
Qed.

(** Inside the range of the axis the interpolant is the tabulated value
    at the last sample point, and the chord of its interval elsewhere. *)
Lemma interp_value_formula (x : R) (xp fp : list R) :
  ~ x > last xp 0 -> ~ x < hd 0 xp ->
  let j := np.linear_search x (tl xp) in
  (j = (length xp - 1)%nat -> np.interp_value x xp fp = nth j fp 0) /\
  (j <> (length xp - 1)%nat ->
   np.interp_value x xp fp =
   (nth (S j) fp 0 - nth j fp 0) / (nth (S j) xp 0 - nth j xp 0) *
   (x - nth j xp 0) + nth j fp 0).
Proof.
  intros Hlast Hhd. cbv zeta. unfold np.interp_value.
  destruct (Rgt_dec x (last xp 0)); [contradiction|].
  destruct (Rlt_dec x (hd 0 xp)); [contradiction|].
  generalize (np.linear_search x (tl xp)). intros j.
  split; intros Hj.
  - rewrite Hj, Nat.eqb_refl. reflexivity.
  - destruct (Nat.eqb_spec j (length xp - 1)); [contradiction|].
    destruct (Req_dec_T (nth j xp 0) x) as [<-|_]; [|reflexivity].
    unfold Rminus at 3. rewrite Rplus_opp_r, Rmult_0_r. lra.
Qed.

(** Over an ascending axis, values that do not decrease along the table
    interpolate to a lookup that does not decrease either. *)
Lemma interp_value_monotone (x x' : R) (xp fp : list R) :
  ascending xp -> table_ok xp fp -> nondecreasing fp -> x <= x' ->
  np.interp_value x xp fp <= np.interp_value x' xp fp.
Proof.
  intros Hasc Hok Hnd Hxx'.
  pose proof Hok as [Hne Hlen].
  assert (Hn : (0 < length xp)%nat) by (destruct xp; [congruence|simpl; lia]).
  assert (Hall : Forall (fun v => hd 0 fp <= v <= last fp 0) fp).
  { apply Forall_forall. intros v Hv.
    destruct (In_nth _ _ 0 Hv) as (i & Hi & <-).
    rewrite hd_nth, last_nth.
    split; apply nondecreasing_nth; try assumption; lia. }
  assert (Hends : hd 0 xp <= last xp 0).
  { rewrite hd_nth, last_nth. apply ascending_nth_le; [assumption|lia|lia]. }
  destruct (Rgt_dec x' (last xp 0)) as [Hgt'|Hlast'].
  { rewrite (interp_value_right x') by lra.
    apply (interp_value_bounded _ _ x xp fp Hok Hall). }
  destruct (Rlt_dec x (hd 0 xp)) as [Hlt|Hhd].
  { rewrite (interp_value_left x) by assumption.
    apply (interp_value_bounded _ _ x' xp fp Hok Hall). }
  assert (Hlast : ~ x > last xp 0) by lra.
  assert (Hhd' : ~ x' < hd 0 xp) by lra.
  destruct (interp_interval x xp Hne Hhd) as (Hj & Hle & Hlt).
  destruct (interp_interval x' xp Hne Hhd') as (Hj' & Hle' & Hlt').
  destruct (interp_value_formula x xp fp Hlast Hhd) as [Hend Hmid].
  destruct (interp_value_formula x' xp fp Hlast' Hhd') as [Hend' Hmid'].
  set (j := np.linear_search x (tl xp)) in *.
  set (j' := np.linear_search x' (tl xp)) in *.
  assert (Hjj' : (j <= j')%nat).
  { destruct (Nat.le_gt_cases j j') as [H|H]; [exact H|exfalso].
    assert (Hs : (S j' < length xp)%nat) by lia.
    specialize (Hlt' Hs).
    assert (nth (S j') xp 0 <= nth j xp 0)
      by (apply ascending_nth_le; [assumption|lia|lia]).
    lra. }
  (* the value at a key lies between the values at the ends of its interval *)
  assert (Hlow' : nth j' fp 0 <= np.interp_value x' xp fp).
  { destruct (Nat.eq_dec j' (length xp - 1)) as [E|E].
    - rewrite (Hend' E). lra.
    - rewrite (Hmid' E).
      assert (Hf : nth j' fp 0 <= nth (S j') fp 0) by (apply Hnd; lia).
      apply (chord_between (nth j' fp 0) (nth (S j') fp 0)); try lra.
      split; [exact Hle'|apply Hlt'; lia]. }
  destruct (Nat.eq_dec j (length xp - 1)) as [E|E].
  - rewrite (Hend E).
    apply Rle_trans with (nth j' fp 0); [|exact Hlow'].
    apply nondecreasing_nth; [assumption|lia|lia].
  - rewrite (Hmid E).
    assert (Hf : nth j fp 0 <= nth (S j) fp 0) by (apply Hnd; lia).
    assert (Hd : nth j xp 0 < nth (S j) xp 0)
      by (apply ascending_nth_lt; [assumption|lia|lia]).
    destruct (Nat.eq_dec j j') as [Ejj|Ejj].
    + rewrite <- Ejj in *. rewrite (Hmid' E).
      apply Rplus_le_compat_r. apply Rmult_le_compat_l; [|lra].
      apply Rmult_le_pos; [lra|]. apply Rlt_le, Rinv_0_lt_compat. lra.
    + apply Rle_trans with (nth (S j) fp 0).
      * apply (chord_between (nth j fp 0) (nth (S j) fp 0)); try lra.
        split; [exact Hle|apply Hlt; lia].
      * apply Rle_trans with (nth j' fp 0); [|exact Hlow'].
        apply nondecreasing_nth; [assumption|lia|lia].
Qed.

(** X1: a lookup over a well-formed table never leaves the range of the
    tabulated values: if every tabulated value lies in [[lo, hi]], so does
    [np.interp] at any point, inside or outside the sampled range, and so
    do [Blade.chord] and [Blade.twist] at any radius. *)
Theorem lookups_within_table (lo hi : R) (xp fp : list R) :
  table_ok xp fp -> Forall (fun v => lo <= v <= hi) fp ->
  forall x,
    (exists v, np.interp x xp fp = Ok v /\ lo <= v <= hi) /\
    (forall tw af,
       exists c, Blade.chord (Blade.mk xp fp tw af) x = Ok c /\
                 lo <= c <= hi) /\
    (forall ch af,
       exists w, Blade.twist (Blade.mk xp ch fp af) x = Ok w /\
                 lo <= w <= hi).
Proof.
  intros Hok Hall x.
  assert (H : exists v, np.interp x xp fp = Ok v /\ lo <= v <= hi).
  { exists (np.interp_value x xp fp). split.
    - apply interp_ok; apply Hok.
    - apply interp_value_bounded; assumption. }
  split; [exact H|]. split; intros; exact H.
Qed.

Lemma lookups_within_table_witness :
  table_ok [1.5; 5; 30] [0.75; 2; 2] /\
  Forall (fun v => 0.75 <= v <= 2) [0.75; 2; 2] /\
  exists c, Blade.chord blade0 100 = Ok c /\ 0.75 <= c <= 2.
Proof.
  assert (Hok : table_ok [1.5; 5; 30] [0.75; 2; 2])
    by (split; [discriminate|reflexivity]).
  assert (Hall : Forall (fun v => 0.75 <= v <= 2) [0.75; 2; 2])
    by (repeat constructor; lra).
  split; [exact Hok|split; [exact Hall|]].
  exact (proj1 (proj2 (lookups_within_table 0.75 2 [1.5; 5; 30]
                         [0.75; 2; 2] Hok Hall 100))
               [0; 0; 0] flat_airfoil).
Defined.

(** X2: over an ascending axis, a table whose values do not decrease
    gives lookups that do not decrease: [x <= x'] implies
    [np.interp(x) <= np.interp(x')], and the same for [Blade.chord] and
    [Blade.twist] over the radius. *)
Theorem lookups_monotone (xp fp : list R) (x x' : R) :
  ascending xp -> table_ok xp fp -> nondecreasing fp -> x <= x' ->
  exists v v',
    np.interp x xp fp = Ok v /\ np.interp x' xp fp = Ok v' /\ v <= v' /\
    (forall tw af,
       Blade.chord (Blade.mk xp fp tw af) x = Ok v /\
       Blade.chord (Blade.mk xp fp tw af) x' = Ok v') /\
    (forall ch af,
       Blade.twist (Blade.mk xp ch fp af) x = Ok v /\
       Blade.twist (Blade.mk xp ch fp af) x' = Ok v').
Proof.
  intros Hasc Hok Hnd Hxx'.
  exists (np.interp_value x xp fp), (np.interp_value x' xp fp).
  assert (H : forall y, np.interp y xp fp = Ok (np.interp_value y xp fp))
    by (intros y; apply interp_ok; apply Hok).
  split; [apply H|]. split; [apply H|].
  split; [apply interp_value_monotone; assumption|].
  split; intros; split; apply H.
Qed.

Lemma lookups_monotone_witness :
  ascending [1.5; 5; 30] /\ table_ok [1.5; 5; 30] [0.75; 2; 2] /\
  nondecreasing [0.75; 2; 2] /\ 2 <= 7 /\
  exists v v',
    Blade.chord blade0 2 = Ok v /\ Blade.chord blade0 7 = Ok v' /\ v <= v'.
Proof.
  assert (Hasc : ascending [1.5; 5; 30]) by (simpl; repeat split; lra).
  assert (Hok : table_ok [1.5; 5; 30] [0.75; 2; 2])
    by (split; [discriminate|reflexivity]).
  assert (Hnd : nondecreasing [0.75; 2; 2]).
  { intros [|[|i]] Hi; simpl in *; try lra; lia. }
  assert (Hle : 2 <= 7) by lra.
  split; [exact Hasc|split; [exact Hok|split; [exact Hnd|split;
    [exact Hle|]]]].
  destruct (lookups_monotone [1.5; 5; 30] [0.75; 2; 2] 2 7
              Hasc Hok Hnd Hle) as (v & v' & _ & _ & Hvv' & Hch & _).
  exists v, v'.
  destruct (Hch [0; 0; 0] flat_airfoil) as [H1 H2].
  split; [exact H1|split; [exact H2|exact Hvv']].
Defined.

(** ** Reading airfoil tables *)

(** [_readTable] returns the three columns of the rows, or exits at a row
    that does not have three fields. *)
Lemma readTable_columns (f : list line) :
  (Forall (fun fs => length fs = 3%nat) (data_rows f) ->
   Airfoil._readTable f = Ok (column 0 f, column 1 f, column 2 f)) /\
  (~ Forall (fun fs => length fs = 3%nat) (data_rows f) ->
   Airfoil._readTable f = Raise (SystemExit 1)).
Proof.
  unfold column.
  induction f as [|l f [IHok IHbad]]; simpl.
  - split; [reflexivity|]. intros H. exfalso. apply H. constructor.
  - destruct l as [|fs]; [split; assumption|]. simpl. split.
    + intros H. inversion H as [|? ? Hfs Hrest]; subst.
      destruct fs as [|a [|b [|c [|d fs]]]]; try discriminate.
      rewrite (IHok Hrest). reflexivity.
    + intros H.
      destruct fs as [|a [|b [|c [|d fs]]]]; try reflexivity.
      rewrite IHbad; [reflexivity|].
      intros Hrest. apply H. constructor; [reflexivity|exact Hrest].
Qed.

Lemma Forall_rows_dec (rows : list (list R)) :
  {Forall (fun fs => length fs = 3%nat) rows} +
  {~ Forall (fun fs => length fs = 3%nat) rows}.
Proof.
  apply Forall_dec. intros fs. apply Nat.eq_dec.
Qed.

Lemma table_file_ok_dec (f : file) : {table_file_ok f} + {~ table_file_ok f}.
Proof.
  destruct f as [ls|]; simpl; [apply Forall_rows_dec|right; tauto].
Qed.

(** The loop of [readTables] appends one table per file, or exits at the
    first file that cannot be opened or read. *)
Lemma readTables_loop_run (files : list file) :
  forall As Cs Ds,
  (Forall table_file_ok files ->
   exists fs, files = opened fs /\
     Airfoil.readTables_loop files As Cs Ds =
     Ok (As ++ map (column 0) fs, Cs ++ map (column 1) fs,
         Ds ++ map (column 2) fs)) /\
  (~ Forall table_file_ok files ->
   Airfoil.readTables_loop files As Cs Ds = Raise (SystemExit 1)).
Proof.
  induction files as [|f files IH]; intros As Cs Ds.
  - split.
    + intros _. exists []. simpl. rewrite !app_nil_r. split; reflexivity.
    + intros H. exfalso. apply H. constructor.
  - destruct (table_file_ok_dec f) as [Hf|Hf].
    + destruct f as [ls|]; [|contradiction]. simpl in Hf. simpl.
      rewrite (proj1 (readTable_columns ls) Hf).
      destruct (IH (As ++ [column 0 ls]) (Cs ++ [column 1 ls])
                   (Ds ++ [column 2 ls])) as [IHok IHbad].
      split.
      * intros H. inversion H as [|? ? _ Hrest]; subst.
        destruct (IHok Hrest) as (fs & -> & Hrun).
        exists (ls :: fs). split; [reflexivity|].
        rewrite Hrun. simpl. rewrite <- !app_assoc. reflexivity.
      * intros H. apply IHbad. intros Hrest. apply H.
        constructor; assumption.
    + split.
      * intros H. inversion H; subst. contradiction.
      * intros _. destruct f as [ls|]; [|reflexivity]. simpl.
        simpl in Hf. rewrite (proj2 (readTable_columns ls) Hf). reflexivity.
Qed.



Lemma interp_values_map {A : Type} (alpha : R) (c0 c1 : A -> list R)
    (fs : list A) :
  interp_values alpha (map c0 fs) (map c1 fs) =
  map (fun f => np.interp_value alpha (c0 f) (c1 f)) fs.
Proof.
  unfold interp_values.
  induction fs as [|f fs IH]; simpl; [reflexivity|]. f_equal. exact IH.
Qed.

Lemma column_length (k : nat) (f : list line) :
  length (column k f) = length (data_rows f).
Proof.
  unfold column. apply length_map.
Qed.

Lemma columns_table_ok (j k : nat) (fs : list (list line)) :
  Forall (fun f => data_rows f <> []) fs ->
  Forall2 table_ok (map (column j) fs) (map (column k) fs).
Proof.
  induction 1 as [|f fs Hf _ IH]; simpl; constructor; [|exact IH].
  split.
  - unfold column. destruct (data_rows f); [congruence|discriminate].
  - rewrite !column_length. reflexivity.
Qed.

(** X4: tables loaded by [readTables] from at least one file, each with
    rows of three fields and at least one row, can be looked up at every
    angle: [Cl] and [Cd] return, and return the mean over the files of the
    value interpolated in the file's first and second (third) column. *)
Theorem readTables_then_lookup (fs : list (list line)) (self : Airfoil.t) :
  fs <> [] ->
  Forall (fun f => Forall (fun r => length r = 3%nat) (data_rows f)) fs ->
  Forall (fun f => data_rows f <> []) fs ->
  exists af,
    Airfoil.readTables (opened fs) self = Ok af /\
    forall alpha,
      Airfoil.Cl af alpha =
        Ok (mean (map (fun f => np.interp_value alpha (column 0 f)
                                  (column 1 f)) fs)) /\
      Airfoil.Cd af alpha =
        Ok (mean (map (fun f => np.interp_value alpha (column 0 f)
                                  (column 2 f)) fs)).
Proof.
  intros Hne Hrows Hdata.
  assert (Hfiles : Forall table_file_ok (opened fs)).
  { unfold opened. apply Forall_map. exact Hrows. }
  unfold Airfoil.readTables.
  destruct (proj1 (readTables_loop_run (opened fs) [] [] []) Hfiles)
    as (fs' & Hfs' & Hrun).
  assert (fs' = fs) as ->.
  { unfold opened in Hfs'. clear -Hfs'. revert fs' Hfs'.
    induction fs as [|f fs IH]; intros [|f' fs'] H; simpl in H;
      try discriminate; [reflexivity|].
    injection H as -> H. f_equal. apply IH. exact H. }
  rewrite Hrun. simpl.
  eexists. split; [reflexivity|].
  intros alpha. unfold Airfoil.Cl, Airfoil.Cd. simpl.
  assert (HAs : map (column 0) fs <> [])
    by (destruct fs; [congruence|discriminate]).
  rewrite !averaged_mean
    by (try exact HAs; apply columns_table_ok; exact Hdata).
  rewrite !interp_values_map. split; reflexivity.
Qed.

Lemma readTables_then_lookup_witness :
  let f := [Comment; Fields [0; 0.1; 0.01]; Fields [5; 0.6; 0.02]] in
  [f] <> [] /\
  Forall (fun f => Forall (fun r => length r = 3%nat) (data_rows f)) [f] /\
  Forall (fun f => data_rows f <> []) [f] /\
  exists af,
    Airfoil.readTables (opened [f]) Airfoil.init = Ok af /\
    Airfoil.Cl af 2 = Ok (mean [np.interp_value 2 [0; 5] [0.1; 0.6]]).
Proof.
  intros f.
  assert (H1 : [f] <> []) by discriminate.
  assert (H2 : Forall (fun f => Forall (fun r => length r = 3%nat)
                                  (data_rows f)) [f])
    by (repeat constructor).
  assert (H3 : Forall (fun f => data_rows f <> []) [f])
    by (repeat constructor; discriminate).
  split; [exact H1|split; [exact H2|split; [exact H3|]]].
  destruct (readTables_then_lookup [f] Airfoil.init H1 H2 H3)
    as (af & Hrun & Hlook).
  exists af. split; [exact Hrun|exact (proj1 (Hlook 2))].
Defined.

(** A table without sample points among the loaded ones makes the
    averaging loop raise [ValueError]. *)
Lemma table_values_empty_table (alpha : R) (As Fs : list (list R)) :
  Forall2 (fun a f => length f = length a) As Fs ->
  forall idx,
  (forall i, In i idx -> (i < length As)%nat) ->
  (exists i, In i idx /\ nth i As [] = []) ->
  Airfoil.table_values alpha As (Some Fs) idx = Raise ValueError.
Proof.
  intros Hlen idx. induction idx as [|i idx IH]; intros Hidx (k & Hk & Hempty).
  - destruct Hk.
  - assert (Hi : (i < length As)%nat) by (apply Hidx; left; reflexivity).
    assert (HlenAF : length As = length Fs)
      by (eapply Forall2_length; eassumption).
    assert (Hli : length (nth i Fs []) = length (nth i As [])).
    { clear -Hlen Hi. revert i Hi.
      induction Hlen as [|a f As Fs Haf _ IHl]; intros i Hi; simpl in Hi;
        [lia|].
      destruct i as [|i]; simpl; [exact Haf|]. apply IHl. lia. }
    simpl.
    rewrite (getitem_nth As i []) by exact Hi. simpl.
    rewrite (getitem_nth Fs i []) by lia. simpl.
    destruct (nth i As []) as [|a0 a] eqn:Ea.
    + reflexivity.
    + unfold np.interp, np.interp_check.
      rewrite Hli, Nat.eqb_refl. simpl.
      rewrite IH; [reflexivity| |].
      * intros j Hj. apply Hidx. right. exact Hj.
      * destruct Hk as [<-|Hk]; [congruence|].
        exists k. split; assumption.
Qed.

(** On files that can all be opened, with three fields in every row,
    [readTables] stores their columns. *)
Lemma readTables_opened (fs : list (list line)) (self : Airfoil.t) :
  Forall (fun f => Forall (fun r => length r = 3%nat) (data_rows f)) fs ->
  Airfoil.readTables (opened fs) self =
  Ok (Airfoil.mk (Some (map (column 0) fs)) (Some (map (column 1) fs))
        (Some (map (column 2) fs))).
Proof.
  intros Hrows.
  assert (Hfiles : Forall table_file_ok (opened fs)).
  { unfold opened. apply Forall_map. exact Hrows. }
  unfold Airfoil.readTables.
  destruct (proj1 (readTables_loop_run (opened fs) [] [] []) Hfiles)
    as (fs' & Hfs' & Hrun).
  assert (fs' = fs) as ->.
  { unfold opened in Hfs'. clear -Hfs'. revert fs' Hfs'.
    induction fs as [|f fs IH]; intros [|f' fs'] H; simpl in H;
      try discriminate; [reflexivity|].
    injection H as -> H. f_equal. apply IH. exact H. }
  rewrite Hrun. reflexivity.
Qed.

(** X5: what a lookup raises on an airfoil that holds no usable table:
    [TypeError] before any table is read, [ZeroDivisionError] after
    [readTables] of an empty list of files, and [ValueError] after
    [readTables] of well-formed files of which one has no row (only
    comments, or nothing). *)
Theorem lookup_without_tables (self : Airfoil.t) (alpha : R)
    (fs : list (list line)) :
  Forall (fun f => Forall (fun r => length r = 3%nat) (data_rows f)) fs ->
  Exists (fun f => data_rows f = []) fs ->
  (Airfoil.Cl Airfoil.init alpha = Raise TypeError /\
   Airfoil.Cd Airfoil.init alpha = Raise TypeError) /\
  (exists af, Airfoil.readTables [] self = Ok af /\
     Airfoil.Cl af alpha = Raise ZeroDivisionError /\
     Airfoil.Cd af alpha = Raise ZeroDivisionError) /\
  (exists af, Airfoil.readTables (opened fs) self = Ok af /\
     Airfoil.Cl af alpha = Raise ValueError /\
     Airfoil.Cd af alpha = Raise ValueError).
Proof.
  intros Hrows Hempty.
  split; [split; reflexivity|]. split.
  - eexists. split; [reflexivity|].
    unfold Airfoil.Cl, Airfoil.Cd, Airfoil.averaged, range, fdiv. simpl.
    destruct (Req_dec_T 0 0) as [_|H]; [split; reflexivity|congruence].
  - eexists. split; [apply readTables_opened; exact Hrows|].
    assert (Hraise : forall k,
              Airfoil.averaged alpha (Some (map (column 0) fs))
                (Some (map (column k) fs)) = Raise ValueError).
    { intros k. unfold Airfoil.averaged, range. simpl. rewrite Nat2Z.id.
      rewrite table_values_empty_table; [reflexivity| | |].
      - clear. induction fs as [|f fs IH]; simpl; constructor; [|exact IH].
        rewrite !column_length. reflexivity.
      - intros i Hi. apply in_seq in Hi. lia.
      - apply Exists_exists in Hempty. destruct Hempty as (f & Hin & Hf).
        destruct (In_nth _ _ [] Hin) as (i & Hi & Hnth).
        exists i. split; [apply in_seq; rewrite length_map; lia|].
        transitivity (column 0 (nth i fs [])).
        + exact (map_nth (column 0) fs [] i).
        + rewrite Hnth. unfold column. rewrite Hf. reflexivity. }
    split; apply Hraise.
Qed.

Lemma lookup_without_tables_witness :
  let fs := [[Fields [0; 1; 2]]; [Comment]] in
  Forall (fun f => Forall (fun r => length r = 3%nat) (data_rows f)) fs /\
  Exists (fun f => data_rows f = []) fs /\
  exists af, Airfoil.readTables (opened fs) Airfoil.init = Ok af /\
             Airfoil.Cl af 3 = Raise ValueError.
Proof.
  intros fs.
  assert (H1 : Forall (fun f => Forall (fun r => length r = 3%nat)
                                  (data_rows f)) fs)
    by (repeat constructor).
  assert (H2 : Exists (fun f => data_rows f = []) fs)
    by (right; left; reflexivity).
  split; [exact H1|split; [exact H2|]].
  destruct (lookup_without_tables Airfoil.init 3 fs H1 H2)
    as (_ & _ & af & Hrun & Hcl & _).
  exists af. split; [exact Hrun|exact Hcl].
Defined.

Lemma interp_array_no_points (xs fp : list R) :
  np.interp_array xs [] fp = Raise ValueError.
Proof.
  reflexivity.
Qed.



(** X7: after [readClCdTables] of two non-empty tables, the quantity
    read on the grid that is stored is looked up as in its own file at
    every angle, and the resampled one agrees with its own file at every
    point of the stored grid when that grid is ascending. *)
Theorem readClCdTables_then_lookup
    (fcl fcd : list line) (self : Airfoil.t)
    (alphascl cls alphascd cds : list R) :
  Airfoil.read_pairs fcl = Ok (alphascl, cls) ->
  Airfoil.read_pairs fcd = Ok (alphascd, cds) ->
  alphascl <> [] -> alphascd <> [] ->
  exists af,
    Airfoil.readClCdTables (Some fcl) (Some fcd) self = Ok af /\
    ((length alphascd < length alphascl)%nat ->
     (forall alpha, Airfoil.Cl af alpha = np.interp alpha alphascl cls) /\
     (ascending alphascl ->
      forall i, (i < length alphascl)%nat ->
        Airfoil.Cd af (nth i alphascl 0) =
        np.interp (nth i alphascl 0) alphascd cds)) /\
    ((length alphascl <= length alphascd)%nat ->
     (forall alpha, Airfoil.Cd af alpha = np.interp alpha alphascd cds) /\
     (ascending alphascd ->
      forall i, (i < length alphascd)%nat ->
        Airfoil.Cl af (nth i alphascd 0) =
        np.interp (nth i alphascd 0) alphascl cls)).
Proof.
  intros Hcl Hcd Hnecl Hnecd.
  pose proof (read_pairs_length _ _ _ Hcl) as Hlcl.
  pose proof (read_pairs_length _ _ _ Hcd) as Hlcd.
  assert (Hokcl : table_ok alphascl cls) by (split; assumption).
  assert (Hokcd : table_ok alphascd cds) by (split; assumption).
  assert (Hresample : forall grid xp fp i,
            table_ok xp fp -> grid <> [] -> ascending grid ->
            (i < length grid)%nat ->
            Airfoil.averaged (nth i grid 0) (Some [grid])
              (Some [map (fun x => np.interp_value x xp fp) grid]) =
            np.interp (nth i grid 0) xp fp).
  { intros grid xp fp i Hok Hne Hasc Hi.
    assert (Hg : table_ok grid (map (fun x => np.interp_value x xp fp) grid))
      by (split; [exact Hne|apply length_map]).
    rewrite averaged_single by exact Hg.
    rewrite interp_ok by apply Hg.
    rewrite interp_value_sample by assumption.
    rewrite (nth_indep _ 0 (np.interp_value 0 xp fp))
      by (rewrite length_map; exact Hi).
    rewrite (map_nth (fun x => np.interp_value x xp fp)).
    symmetry. apply interp_ok; apply Hok. }
  unfold Airfoil.readClCdTables. rewrite Hcl, Hcd. simpl.
  destruct (Nat.ltb_spec (length alphascd) (length alphascl)) as [Hlt|Hge].
  - rewrite interp_array_ok by assumption. simpl.
    eexists. split; [reflexivity|]. split; [|intros; lia].
    intros _. unfold Airfoil.Cl, Airfoil.Cd. simpl. split.
    + intros alpha. apply averaged_single. exact Hokcl.
    + intros Hasc i Hi. apply Hresample; assumption.
  - rewrite interp_array_ok by assumption. simpl.
    eexists. split; [reflexivity|]. split; [intros; lia|].
    intros _. unfold Airfoil.Cl, Airfoil.Cd. simpl. split.
    + intros alpha. apply averaged_single. exact Hokcd.
    + intros Hasc i Hi. apply Hresample; assumption.
Qed.

Lemma readClCdTables_then_lookup_witness :
  let fcl := [Fields [0; 1]; Fields [2; 3]; Fields [4; 5]] in
  let fcd := [Fields [0; 7]; Fields [4; 9]] in
  Airfoil.read_pairs fcl = Ok ([0; 2; 4], [1; 3; 5]) /\
  Airfoil.read_pairs fcd = Ok ([0; 4], [7; 9]) /\
  exists af,
    Airfoil.readClCdTables (Some fcl) (Some fcd) Airfoil.init = Ok af /\
    Airfoil.Cl af 1 = np.interp 1 [0; 2; 4] [1; 3; 5] /\
    Airfoil.Cd af 2 = np.interp 2 [0; 4] [7; 9].
Proof.
  intros fcl fcd.
  assert (Hcl : Airfoil.read_pairs fcl = Ok ([0; 2; 4], [1; 3; 5]))
    by reflexivity.
  assert (Hcd : Airfoil.read_pairs fcd = Ok ([0; 4], [7; 9]))
    by reflexivity.
  split; [exact Hcl|split; [exact Hcd|]].
  destruct (readClCdTables_then_lookup fcl fcd Airfoil.init
              [0; 2; 4] [1; 3; 5] [0; 4] [7; 9] Hcl Hcd
              ltac:(discriminate) ltac:(discriminate))
    as (af & Hrun & Hfine & _).
  destruct (Hfine (le_n 3)) as [Hkept Hres].
  exists af. split; [exact Hrun|]. split; [apply Hkept|].
  apply (Hres ltac:(simpl; repeat split; lra) 1%nat (le_S _ _ (le_n 2))).
Defined.

(** ** Airfoil coefficients never leave the tables *)

Lemma sum_bounded (lo hi : R) (l : list R) :
  Forall (fun v => lo <= v <= hi) l ->
  INR (length l) * lo <= fold_right Rplus 0 l <= INR (length l) * hi.
Proof.
  induction 1 as [|v l Hv Hl IH].
  - simpl. lra.
  - change (length (v :: l)) with (S (length l)). rewrite S_INR.
    simpl fold_right. lra.
Qed.

Lemma mean_bounded (lo hi : R) (l : list R) :
  l <> [] -> Forall (fun v => lo <= v <= hi) l -> lo <= mean l <= hi.
Proof.
  intros Hne Hall.
  pose proof (sum_bounded lo hi l Hall) as [Hlo Hhi].
  assert (Hn : 0 < INR (length l)).
  { apply lt_0_INR. destruct l; [congruence|simpl; lia]. }
  unfold mean. split.
  - apply (Rmult_le_reg_l (INR (length l))); [exact Hn|].
    replace (INR (length l) * (fold_right Rplus 0 l / INR (length l)))
      with (fold_right Rplus 0 l) by (field; lra).
    exact Hlo.
  - apply (Rmult_le_reg_l (INR (length l))); [exact Hn|].
    replace (INR (length l) * (fold_right Rplus 0 l / INR (length l)))
      with (fold_right Rplus 0 l) by (field; lra).
    exact Hhi.
Qed.

Lemma interp_values_bounded (lo hi alpha : R) (As Fs : list (list R)) :
  Forall2 table_ok As Fs ->
  Forall (Forall (fun v => lo <= v <= hi)) Fs ->
  Forall (fun v => lo <= v <= hi) (interp_values alpha As Fs).
Proof.
  unfold interp_values.
  induction 1 as [|a f As Fs Hok Hrest IH]; intros Hall; simpl.
  - constructor.
  - inversion Hall as [|f' Fs' Hf HFs]; subst.
    constructor; [|apply IH; exact HFs].
    apply interp_value_bounded; assumption.
Qed.

(** X8: a coefficient looked up in well-formed airfoil tables never
    leaves the range of the tabulated values: when every value of every
    lift (drag) table lies in [[lo, hi]], so does [Cl] ([Cd]) at every
    angle of attack, also beyond the angles the tables cover. *)
Theorem airfoil_lookups_within_tables (lo hi : R)
    (As Cs Ds : list (list R)) (alpha : R) :
  As <> [] ->
  (Forall2 table_ok As Cs ->
   Forall (Forall (fun v => lo <= v <= hi)) Cs ->
   exists cl,
     Airfoil.Cl (Airfoil.mk (Some As) (Some Cs) (Some Ds)) alpha = Ok cl /\
     lo <= cl <= hi) /\
  (Forall2 table_ok As Ds ->
   Forall (Forall (fun v => lo <= v <= hi)) Ds ->
   exists cd,
     Airfoil.Cd (Airfoil.mk (Some As) (Some Cs) (Some Ds)) alpha = Ok cd /\
     lo <= cd <= hi).
Proof.
  intros Hne.
  assert (Hmean : forall Fs,
            Forall2 table_ok As Fs ->
            Forall (Forall (fun v => lo <= v <= hi)) Fs ->
            lo <= mean (interp_values alpha As Fs) <= hi).
  { intros Fs Hok Hall. apply mean_bounded.
    - unfold interp_values. inversion Hok; subst; [congruence|discriminate].
    - apply interp_values_bounded; assumption. }
  split; intros Hok Hall.
  - unfold Airfoil.Cl. cbn [Airfoil._alphas Airfoil._cls].
    rewrite averaged_mean by assumption.
    eexists. split; [reflexivity|]. apply Hmean; assumption.
  - unfold Airfoil.Cd. cbn [Airfoil._alphas Airfoil._cds].
    rewrite averaged_mean by assumption.
    eexists. split; [reflexivity|]. apply Hmean; assumption.
Qed.

Lemma airfoil_lookups_within_tables_witness :
  exists cl,
    Airfoil.Cl (Airfoil.mk (Some [[0; 10]]) (Some [[0.2; 1.1]])
                  (Some [[0; 0]])) 25 = Ok cl /\
    0.2 <= cl <= 1.1.
Proof.
  apply (proj1 (airfoil_lookups_within_tables 0.2 1.1 [[0; 10]]
                  [[0.2; 1.1]] [[0; 0]] 25 ltac:(discriminate))).
  - repeat constructor; discriminate.
  - repeat constructor; lra.
Defined.

(** ** The outline of the blade *)

(** The loop of [plotChord] from station [k >= 1] on: the leading edge is
    at half the growth of the chord since the first station, the
    trailing edge one chord behind it. *)
Lemma plotChord_edges_run (chord : list R) (m : nat) :
  forall (k : nat) (xLE xTE : list R),
  (1 <= k)%nat -> length xLE = k -> length xTE = k ->
  (k + m <= length chord)%nat ->
  (forall j, (j < k)%nat ->
     nth j xLE 0 = 0.5 * (nth j chord 0 - nth 0 chord 0)) ->
  (forall j, (j < k)%nat -> nth j xTE 0 = nth j xLE 0 - nth j chord 0) ->
  exists xLE' xTE',
    Blade.plotChord_edges chord (seq k m) xLE xTE = Ok (xLE', xTE') /\
    length xLE' = (k + m)%nat /\ length xTE' = (k + m)%nat /\
    (forall j, (j < k + m)%nat ->
       nth j xLE' 0 = 0.5 * (nth j chord 0 - nth 0 chord 0)) /\
    (forall j, (j < k + m)%nat ->
       nth j xTE' 0 = nth j xLE' 0 - nth j chord 0).
Proof.
  induction m as [|m IH]; intros k xLE xTE Hk HlLE HlTE Hlen HLE HTE.
  - exists xLE, xTE. rewrite Nat.add_0_r. repeat split; assumption.
  - simpl.
    destruct (Nat.ltb_spec 0 k) as [_|H0]; [|lia].
    rewrite (getitem_nth xLE (k - 1) 0) by lia. simpl.
    rewrite (getitem_nth chord k 0) by lia. simpl.
    rewrite (getitem_nth chord (k - 1) 0) by lia. simpl.
    set (new := nth (k - 1) xLE 0 +
                0.5 * (nth k chord 0 - nth (k - 1) chord 0)).
    assert (Hnew : new = 0.5 * (nth k chord 0 - nth 0 chord 0)).
    { unfold new. rewrite HLE by lia. lra. }
    assert (Hget : nth k (xLE ++ [new]) 0 = new).
    { rewrite app_nth2 by lia. rewrite HlLE, Nat.sub_diag. reflexivity. }
    rewrite (getitem_nth (xLE ++ [new]) k 0)
      by (rewrite length_app; simpl; lia).
    simpl. rewrite Hget.
    destruct (IH (S k) (xLE ++ [new]) (xTE ++ [new - nth k chord 0]))
      as (xLE' & xTE' & Hrun & H1 & H2 & H3 & H4).
    + lia.
    + rewrite length_app. simpl. lia.
    + rewrite length_app. simpl. lia.
    + lia.
    + intros j Hj. destruct (Nat.eq_dec j k) as [->|Hne].
      * rewrite Hget. exact Hnew.
      * rewrite app_nth1 by lia. apply HLE. lia.
    + intros j Hj. destruct (Nat.eq_dec j k) as [->|Hne].
      * rewrite Hget. rewrite app_nth2 by lia.
        rewrite HlTE, Nat.sub_diag. reflexivity.
      * rewrite !app_nth1 by lia. apply HTE. lia.
    + exists xLE', xTE'. rewrite Hrun.
      replace (k + S m)%nat with (S k + m)%nat by lia.
      repeat split; assumption.
Qed.

(** The loop stops with [IndexError] at the first station without a
    chord. *)
Lemma plotChord_edges_short (chord : list R) (m : nat) :
  forall (k : nat) (xLE xTE : list R),
  length xLE = Nat.max k 1 ->
  (k <= length chord)%nat -> (length chord < k + m)%nat ->
  Blade.plotChord_edges chord (seq k m) xLE xTE = Raise IndexError.
Proof.
  induction m as [|m IH]; intros k xLE xTE HlLE Hk Hlen; [lia|].
  simpl.
  destruct (Nat.eq_dec k (length chord)) as [Hend|Hmore].
  - assert (Hc : getitem chord k = Raise IndexError).
    { unfold getitem.
      replace (nth_error chord k) with (@None R)
        by (symmetry; apply nth_error_None; lia).
      reflexivity. }
    destruct (Nat.ltb_spec 0 k) as [Hpos|H0].
    + rewrite (getitem_nth xLE (k - 1) 0) by lia. simpl.
      rewrite Hc. reflexivity.
    + simpl. rewrite (getitem_nth xLE k 0) by lia. simpl.
      rewrite Hc. reflexivity.
  - destruct (Nat.ltb_spec 0 k) as [Hpos|H0].
    + rewrite (getitem_nth xLE (k - 1) 0) by lia. simpl.
      rewrite (getitem_nth chord k 0) by lia. simpl.
      rewrite (getitem_nth chord (k - 1) 0) by lia. simpl.
      rewrite (getitem_nth _ k 0) by (rewrite length_app; simpl; lia).
      simpl. apply IH; [rewrite length_app; simpl; lia|lia|lia].
    + simpl. rewrite (getitem_nth xLE k 0) by lia. simpl.
      rewrite (getitem_nth chord k 0) by lia. simpl.
      apply IH; [lia|lia|lia].
Qed.

(** X9: for a blade of [n >= 1] stations with a chord at each, the
    outline [plotChord] draws is a closed loop of [2n + 1] points: the
    stations outwards along the leading edge, at
    [(chord[i] - chord[0])/2], and back along the trailing edge, at
    [-(chord[i] + chord[0])/2], so that it is [chord[i]] wide at station
    [i] and symmetric about a straight line.  With fewer chords than
    stations, or with no station, [plotChord] raises [IndexError]. *)
Theorem plotChord_outline (bl : Blade.t) :
  let n := length (Blade._radial bl) in
  ((1 <= n)%nat -> (n <= length (Blade._chord bl))%nat ->
   exists rLoop xLoop,
     Blade.plotChord bl = Ok (rLoop, xLoop) /\
     length rLoop = (2 * n + 1)%nat /\ length xLoop = (2 * n + 1)%nat /\
     nth (2 * n) rLoop 0 = nth 0 rLoop 0 /\
     nth (2 * n) xLoop 0 = nth 0 xLoop 0 /\
     forall i, (i < n)%nat ->
       nth i rLoop 0 = nth i (Blade._radial bl) 0 /\
       nth (2 * n - 1 - i) rLoop 0 = nth i (Blade._radial bl) 0 /\
       nth i xLoop 0 =
         0.5 * (nth i (Blade._chord bl) 0 - nth 0 (Blade._chord bl) 0) /\
       nth (2 * n - 1 - i) xLoop 0 =
         -0.5 * (nth i (Blade._chord bl) 0 + nth 0 (Blade._chord bl) 0)) /\
  ((length (Blade._chord bl) < n)%nat \/ n = 0%nat ->
   Blade.plotChord bl = Raise IndexError).
Proof.
  intros n. unfold Blade.plotChord. fold n. split.
  - intros Hn Hlen.
    destruct n as [|m] eqn:En; [lia|].
    change (seq 0 (S m)) with (0%nat :: seq 1 m).
    cbn [Blade.plotChord_edges Nat.ltb Nat.leb rbind].
    rewrite (getitem_nth (Blade._chord bl) 0 0) by lia.
    cbn [getitem nth_error rbind].
    destruct (plotChord_edges_run (Blade._chord bl) m 1 [0]
                [0 - nth 0 (Blade._chord bl) 0])
      as (xLE & xTE & Hrun & HlLE & HlTE & HLE & HTE);
      try reflexivity; try lia.
    { intros [|j] Hj; [simpl; lra|lia]. }
    { intros [|j] Hj; [reflexivity|lia]. }
    cbn [app]. rewrite Hrun. cbn [rbind].
    rewrite (getitem_nth xLE 0 0) by lia. cbn [rbind].
    rewrite (getitem_nth (Blade._radial bl) 0 0) by (fold n; lia).
    cbn [rbind].
    eexists; eexists. split; [reflexivity|].
    assert (Hr : length (Blade._radial bl) = S m) by exact En.
    rewrite !length_app, !length_rev, Hr, HlLE, HlTE. simpl length.
    split; [lia|]. split; [lia|].
    split.
    { rewrite app_nth2 by (rewrite length_app, length_rev, Hr; lia).
      rewrite length_app, length_rev, Hr.
      replace (2 * S m - (S m + S m))%nat with 0%nat by lia.
      rewrite <- app_assoc, app_nth1 by lia. reflexivity. }
    split.
    { rewrite app_nth2 by (rewrite length_app, length_rev, HlLE, HlTE; lia).
      rewrite length_app, length_rev, HlLE, HlTE.
      replace (2 * S m - (1 + m + (1 + m)))%nat with 0%nat by lia.
      rewrite <- app_assoc, app_nth1 by lia. reflexivity. }
    intros i Hi.
    assert (Hfront : forall (l l' : list R) (x : R), length l = S m ->
              nth i ((l ++ rev l') ++ [x]) 0 = nth i l 0).
    { intros l l' x Hl. rewrite <- app_assoc, app_nth1 by lia.
      reflexivity. }
    assert (Hrear : forall (l l' : list R) (x : R),
              length l = S m -> length l' = S m ->
              nth (2 * S m - 1 - i) ((l ++ rev l') ++ [x]) 0 = nth i l' 0).
    { intros l l' x Hl Hl'.
      rewrite <- app_assoc, app_nth2 by lia.
      rewrite app_nth1 by (rewrite length_rev; lia).
      rewrite rev_nth by lia. f_equal. lia. }
    rewrite (Hfront _ _ _ Hr), (Hrear _ _ _ Hr Hr).
    rewrite (Hfront xLE xTE _ ltac:(lia)), (Hrear xLE xTE _ ltac:(lia)
                                              ltac:(lia)).
    split; [reflexivity|]. split; [reflexivity|].
    split; [apply HLE; lia|].
    rewrite HTE, HLE by lia. lra.
  - intros [Hshort|Hnone].
    + rewrite (plotChord_edges_short (Blade._chord bl) n 0 [0] []);
        [reflexivity|reflexivity|lia|lia].
    + subst n. apply length_zero_iff_nil in Hnone.
      rewrite Hnone. reflexivity.
Qed.

Lemma plotChord_outline_witness :
  (exists rLoop xLoop,
     Blade.plotChord blade0 = Ok (rLoop, xLoop) /\
     length rLoop = 7%nat /\ length xLoop = 7%nat) /\
  Blade.plotChord (Blade.mk [1.5; 5; 30] [0.75; 2] [0; 0; 0] flat_airfoil) =
    Raise IndexError.
Proof.
  split.
  - destruct (proj1 (plotChord_outline blade0))
      as (rLoop & xLoop & Hrun & Hr & Hx & _);
      [simpl; lia|simpl; lia|].
    exists rLoop, xLoop. split; [exact Hrun|split; [exact Hr|exact Hx]].
  - apply (proj2 (plotChord_outline
                    (Blade.mk [1.5; 5; 30] [0.75; 2] [0; 0; 0] flat_airfoil))).
    left. simpl. lia.
Defined.

(** ** Discretizing the blade *)

Lemma silent_bind {S A B : Type} (m : M S A) (k : A -> M S B) :
  silent m -> (forall a, silent (k a)) -> silent (bind m k).
Proof.
  intros Hm Hk s o. unfold bind. specialize (Hm s o).
  destruct (m s o) as [[[a|e] s'] o']; simpl in *.
  - rewrite Hk. exact Hm.
  - exact Hm.
Qed.

Lemma silent_modify {S : Type} (f : S -> S) : silent (modify f).
Proof.
  intros s o. reflexivity.
Qed.

Lemma silent_get {S : Type} : silent (@get S).
Proof.
  intros s o. reflexivity.
Qed.

Lemma silent_lift {S A : Type} (r : result A) : silent (@lift S A r).
Proof.
  intros s o. reflexivity.
Qed.

Lemma silent_ret {S A : Type} (a : A) : silent (@ret S A a).
Proof.
  intros s o. reflexivity.
Qed.

Lemma silent_for_each {S A : Type} (xs : list A) (body : A -> M S unit) :
  (forall x, silent (body x)) -> silent (for_each xs body).
Proof.
  intros Hbody. induction xs as [|x xs IH]; simpl.
  - apply silent_ret.
  - apply silent_bind; [apply Hbody|intros _; exact IH].
Qed.

Lemma keeps_for_each (Rel : Rotor.t -> Rotor.t -> Prop) {A : Type}
    (xs : list A) (body : A -> M Rotor.t unit) :
  (forall s, Rel s s) ->
  (forall s1 s2 s3, Rel s1 s2 -> Rel s2 s3 -> Rel s1 s3) ->
  (forall x, keeps Rel (body x)) -> keeps Rel (for_each xs body).
Proof.
  intros Hrefl Htrans Hbody. induction xs as [|x xs IH]; simpl.
  - apply keeps_ret. exact Hrefl.
  - apply keeps_bind; [exact Htrans|apply Hbody|intros _; exact IH].
Qed.

Lemma discretize_keeps_refl (s : Rotor.t) : discretize_keeps s s.
Proof.
  repeat split. exists []. rewrite app_nil_r. reflexivity.
Qed.

Lemma discretize_keeps_trans (s1 s2 s3 : Rotor.t) :
  discretize_keeps s1 s2 -> discretize_keeps s2 s3 -> discretize_keeps s1 s3.
Proof.
  intros (H1 & H2 & H3 & H4 & H5 & H6 & rs & H7)
         (K1 & K2 & K3 & K4 & K5 & K6 & rs' & K7).
  repeat split; try congruence.
  exists (rs ++ rs'). rewrite K7, H7, app_assoc. reflexivity.
Qed.

Lemma discretize_keeps_field (s s' : Rotor.t) :
  Rotor._blade s' = Rotor._blade s ->
  Rotor._nblades s' = Rotor._nblades s ->
  Rotor._thrust s' = Rotor._thrust s ->
  Rotor._power s' = Rotor._power s ->
  Rotor._CT s' = Rotor._CT s ->
  Rotor._CP s' = Rotor._CP s ->
  Rotor._rstrip s' = Rotor._rstrip s ->
  discretize_keeps s s'.
Proof.
  intros. repeat split; try assumption.
  exists []. rewrite app_nil_r. assumption.
Qed.

Lemma discretize_keeps_all (N : Z) :
  keeps discretize_keeps (Rotor.discretize N).
Proof.
  pose proof discretize_keeps_refl as Hrefl.
  pose proof discretize_keeps_trans as Htrans.
  assert (Hfield : forall f : Rotor.t -> Rotor.t,
            (forall s, Rotor._blade (f s) = Rotor._blade s /\
                       Rotor._nblades (f s) = Rotor._nblades s /\
                       Rotor._thrust (f s) = Rotor._thrust s /\
                       Rotor._power (f s) = Rotor._power s /\
                       Rotor._CT (f s) = Rotor._CT s /\
                       Rotor._CP (f s) = Rotor._CP s /\
                       Rotor._rstrip (f s) = Rotor._rstrip s) ->
            keeps discretize_keeps (modify f)).
  { intros f Hf. apply keeps_modify. intros s.
    destruct (Hf s) as (H1 & H2 & H3 & H4 & H5 & H6 & H7).
    apply discretize_keeps_field; assumption. }
  assert (Hstrip : forall Ri dR strip,
            keeps discretize_keeps (Rotor.discretize_strip Ri dR strip)).
  { intros Ri dR strip. unfold Rotor.discretize_strip.
    apply keeps_bind; [exact Htrans| |intros _].
    { apply keeps_modify. intros s. repeat split.
      eexists. reflexivity. }
    apply keeps_bind; [exact Htrans|apply keeps_get; exact Hrefl|intros self].
    apply keeps_bind; [exact Htrans|apply keeps_lift; exact Hrefl|intros c].
    apply keeps_bind;
      [exact Htrans|apply Hfield; intros s; repeat split|intros _].
    apply keeps_bind; [exact Htrans|apply keeps_get; exact Hrefl|intros self'].
    apply keeps_bind; [exact Htrans|apply keeps_lift; exact Hrefl|intros tw].
    apply Hfield; intros s; repeat split. }
  unfold Rotor.discretize.
  apply keeps_bind;
    [exact Htrans|apply Hfield; intros s; repeat split|intros _].
  apply keeps_bind;
    [exact Htrans|apply Hfield; intros s; repeat split|intros _].
  apply keeps_bind; [exact Htrans|apply keeps_get; exact Hrefl|intros self].
  apply keeps_bind; [exact Htrans|apply keeps_lift; exact Hrefl|intros Ri].
  apply keeps_bind; [exact Htrans|apply keeps_lift; exact Hrefl|intros Ro].
  apply keeps_bind; [exact Htrans|apply keeps_lift; exact Hrefl|intros dR].
  apply keeps_bind;
    [exact Htrans|apply Hfield; intros s; repeat split|intros _].
  apply keeps_bind;
    [exact Htrans
    |apply keeps_for_each; [exact Hrefl|exact Htrans|intros x; apply Hstrip]
    |intros _].
  repeat (apply keeps_bind;
            [exact Htrans|apply Hfield; intros s; repeat split|intros _]).
  apply Hfield; intros s; repeat split.
Qed.

Lemma discretize_silent (N : Z) : silent (Rotor.discretize N).
Proof.
  unfold Rotor.discretize.
  repeat (apply silent_bind; [|intros ?]);
    try apply silent_modify; try apply silent_get; try apply silent_lift.
  apply silent_for_each. intros strip. unfold Rotor.discretize_strip.
  repeat (apply silent_bind; [|intros ?]);
    try apply silent_modify; try apply silent_get; try apply silent_lift.
Qed.

(** X10: whatever the number of strips and the state of the rotor, and
    whether it returns or raises, [discretize] prints nothing and leaves
    the blade, the blade count and the aggregates of the last [calc]
    (thrust, power and their coefficients) as they were; the strip
    centres that were there stay, at the front of the new ones. *)
Theorem discretize_frame (nstrips : Z) (self : Rotor.t) (out : stdout) :
  let run := Rotor.discretize nstrips self out in
  let self' := snd (fst run) in
  snd run = out /\
  Rotor._blade self' = Rotor._blade self /\
  Rotor._nblades self' = Rotor._nblades self /\
  Rotor._thrust self' = Rotor._thrust self /\
  Rotor._power self' = Rotor._power self /\
  Rotor._CT self' = Rotor._CT self /\
  Rotor._CP self' = Rotor._CP self /\
  exists rs, Rotor._rstrip self' = Rotor._rstrip self ++ rs.
Proof.
  intros run self'. split.
  - apply discretize_silent.
  - exact (discretize_keeps_all nstrips self out).
Qed.

Lemma INR_lt_IZR (i : nat) (N : Z) :
  (i < Z.to_nat N)%nat -> INR i + 1 <= IZR N.
Proof.
  intros Hi.
  assert (HN : (0 <= N)%Z) by lia.
  rewrite <- (Z2Nat.id N HN), <- INR_IZR_INZ.
  rewrite <- S_INR. apply le_INR. lia.
Qed.

(** X11: the first [discretize(N)], [N >= 1], of a rotor whose blade
    spans [Ri < Ro] cuts the span into [N] strips of width
    [dR = (Ro - Ri)/N] that tile it: strip [i] runs from [Ri + i*dR] to
    [Ri + (i+1)*dR], its centre lies strictly inside the span, and the
    chord and twist stored for it are the blade's at that centre. *)
Theorem discretize_strips_tile_span (N : Z) (s : Rotor.t) (o : stdout)
    (Ri : R) (radial' : list R) :
  let bl := Rotor._blade s in
  let Ro := last (Ri :: radial') 0 in
  let dR := (Ro - Ri) / IZR N in
  Blade._radial bl = Ri :: radial' ->
  table_ok (Blade._radial bl) (Blade._chord bl) ->
  table_ok (Blade._radial bl) (Blade._twist bl) ->
  Rotor._rstrip s = [] -> (1 <= N)%Z -> Ri < Ro ->
  exists s',
    Rotor.discretize N s o = (Ok tt, s', o) /\
    Rotor._dR s' = Some dR /\ 0 < dR /\ Ri + IZR N * dR = Ro /\
    length (Rotor._rstrip s') = Z.to_nat N /\
    forall i, (i < Z.to_nat N)%nat ->
      let r := nth i (Rotor._rstrip s') 0 in
      r - dR / 2 = Ri + INR i * dR /\
      r + dR / 2 = Ri + INR (S i) * dR /\
      Ri < r < Ro /\
      Blade.chord bl r = Ok (nth i (Rotor._chordstrip s') 0) /\
      Blade.twist bl r = Ok (nth i (Rotor._twiststrip s') 0).
Proof.
  intros bl Ro dR Hrad Hch Htw Hnew HN Hspan.
  assert (HN0 : 0 < IZR N) by (apply IZR_lt; lia).
  assert (HdR : 0 < dR) by (apply Rdiv_lt_0_compat; lra).
  assert (Hsum : IZR N * dR = Ro - Ri) by (unfold dR; field; lra).
  exists (discretized N Ri Ro s). split.
  { apply (discretize_run N s o Ri radial'); try assumption. lra. }
  unfold discretized. cbn [Rotor._dR Rotor._rstrip Rotor._chordstrip
                           Rotor._twiststrip].
  rewrite Hnew. cbn [app]. unfold range.
  fold bl. fold dR.
  split; [reflexivity|]. split; [exact HdR|]. split; [lra|].
  split; [rewrite length_map, length_seq; reflexivity|].
  intros i Hi.
  set (c := fun i : nat => Ri + (INR i + 0.5) * dR).
  assert (Hnth : forall (g : R -> R),
            nth i (map g (map c (seq 0 (Z.to_nat N)))) 0 = g (c i)).
  { intros g. rewrite map_map.
    rewrite (nth_indep _ 0 (g (c 0%nat)))
      by (rewrite length_map, length_seq; exact Hi).
    rewrite (map_nth (fun i => g (c i)) (seq 0 (Z.to_nat N)) 0%nat i).
    rewrite seq_nth by exact Hi. reflexivity. }
  assert (Hr : nth i (map c (seq 0 (Z.to_nat N))) 0 = c i).
  { rewrite <- (map_id (map c (seq 0 (Z.to_nat N)))). apply (Hnth id). }
  cbv zeta. fold c. rewrite Hr, !Hnth.
  pose proof (INR_lt_IZR i N Hi) as Hle.
  pose proof (pos_INR i) as Hi0.
  rewrite S_INR. unfold c.
  split; [lra|]. split; [lra|].
  split; [split; nra|].
  unfold Blade.chord, Blade.twist.
  destruct Hch as [Hne Hlc]. destruct Htw as [_ Hlt].
  rewrite !interp_ok by assumption. split; reflexivity.
Qed.

Lemma discretize_strips_tile_span_witness :
  exists s',
    Rotor.discretize 2 (Rotor.init blade0 5) [] = (Ok tt, s', []) /\
    Rotor._dR s' = Some ((30 - 1.5) / 2) /\
    length (Rotor._rstrip s') = 2%nat.
Proof.
  destruct (discretize_strips_tile_span 2 (Rotor.init blade0 5) []
              1.5 [5; 30])
    as (s' & Hrun & HdR & _ & _ & Hlen & _).
  - reflexivity.
  - split; [discriminate|reflexivity].
  - split; [discriminate|reflexivity].
  - reflexivity.
  - lia.
  - simpl. lra.
  - exists s'. split; [exact Hrun|]. split; [exact HdR|exact Hlen].
Defined.

(** X12: a [discretize] that fails does not leave the rotor as it was.
    With zero strips it raises [ZeroDivisionError], and on a blade
    without stations [IndexError], after the stored chords and twists
    have been dropped: a rotor that had been discretized is left with
    strip centres but neither chords nor twists.  On a blade whose chord
    list does not match its stations it raises [ValueError] at the first
    strip, whose centre has been added by then. *)
Theorem discretize_failure_not_atomic (self : Rotor.t) (out : stdout) :
  let bl := Rotor._blade self in
  let dropped := Rotor.set_twiststrip [] (Rotor.set_chordstrip [] self) in
  (Blade._radial bl <> [] ->
   Rotor.discretize 0 self out = (Raise ZeroDivisionError, dropped, out)) /\
  (Blade._radial bl = [] ->
   forall N, Rotor.discretize N self out = (Raise IndexError, dropped, out)) /\
  (forall N Ri radial',
     Blade._radial bl = Ri :: radial' ->
     length (Blade._chord bl) <> length (Blade._radial bl) ->
     (1 <= N)%Z ->
     let dR := (last (Ri :: radial') 0 - Ri) / IZR N in
     Rotor.discretize N self out =
     (Raise ValueError,
      Rotor.set_rstrip (Rotor._rstrip self ++ [Ri + (0 + 0.5) * dR])
        (Rotor.set_dR (Some dR) dropped),
      out)).
Proof.
  intros bl dropped. split; [|split].
  - intros Hrad. unfold Rotor.discretize, bind, modify, get, lift.
    cbn [Rotor._blade Rotor.set_chordstrip Rotor.set_twiststrip].
    unfold Blade.innerRadius, Blade.outerRadius. fold bl.
    destruct (Blade._radial bl) as [|Ri radial']; [congruence|].
    cbn [getitem nth_error]. unfold fdiv.
    destruct (Req_dec_T (IZR 0) 0) as [_|H0]; [reflexivity|].
    exfalso. apply H0. reflexivity.
  - intros Hrad N. unfold Rotor.discretize, bind, modify, get, lift.
    cbn [Rotor._blade Rotor.set_chordstrip Rotor.set_twiststrip].
    unfold Blade.innerRadius. fold bl. rewrite Hrad. reflexivity.
  - intros N Ri radial' Hrad Hlen HN dR.
    assert (HN0 : IZR N <> 0) by (apply not_0_IZR; lia).
    unfold Rotor.discretize, bind, modify, get, lift.
    cbn [Rotor._blade Rotor.set_chordstrip Rotor.set_twiststrip].
    unfold Blade.innerRadius, Blade.outerRadius. fold bl. rewrite Hrad.
    cbn [getitem nth_error]. unfold fdiv.
    destruct (Req_dec_T (IZR N) 0) as [H0|_]; [contradiction|].
    fold dR. unfold range.
    destruct (Z.to_nat N) as [|n] eqn:En; [lia|].
    cbn [seq for_each]. unfold bind at 1.
    unfold Rotor.discretize_strip, bind, modify, get, lift.
    cbn [Rotor._blade Rotor._rstrip Rotor.set_rstrip Rotor.set_dR
         Rotor.set_chordstrip Rotor.set_twiststrip].
    unfold Blade.chord, np.interp, np.interp_check. fold bl.
    rewrite Hrad in *.
    destruct (Nat.eqb_spec (length (Blade._chord bl))
                (length (Ri :: radial'))) as [Heq|_]; [contradiction|].
    reflexivity.
Qed.

Lemma discretize_failure_not_atomic_witness :
  Rotor.discretize 0 rotor2 [] =
    (Raise ZeroDivisionError,
     Rotor.set_twiststrip [] (Rotor.set_chordstrip [] rotor2), []) /\
  length (Rotor._rstrip rotor2) = 2%nat.
Proof.
  split; [|reflexivity].
  apply (proj1 (discretize_failure_not_atomic rotor2 [])).
  discriminate.
Defined.

(** ** What [calc] stores *)

Lemma setitem_nth_error {A : Type} (l l' : list A) (i : nat) (v : A) :
  setitem l i v = Ok l' ->
  nth_error l' i = Some v /\
  forall j, j <> i -> nth_error l' j = nth_error l j.
Proof.
  revert l' i. induction l as [|a l IH]; intros l' i H; simpl in H.
  - discriminate.
  - destruct i as [|i].
    + injection H as <-. split; [reflexivity|].
      intros [|j] Hj; [congruence|reflexivity].
    + destruct (setitem l i v) as [l''|] eqn:E; [|discriminate].
      injection H as <-. destruct (IH _ _ E) as [Hi Hother].
      split; [exact Hi|].
      intros [|j] Hj; [reflexivity|]. simpl. apply Hother. congruence.
Qed.

(** The [# Integrate] block returns only with denominators other than
    zero, and sets the four aggregates from the strip outputs. *)
Lemma integrate_Ok (rho om Ro : R) (s s' : Rotor.t) (o o' : stdout) :
  Rotor.integrate rho om Ro s o = (Ok tt, s', o') ->
  o' = o /\
  s' = Rotor.set_CP
         (Some (np.sum (Rotor._dP s) / (rho * (PI * Ro ^ 2) * (om * Ro) ^ 3)))
         (Rotor.set_CT
            (Some (np.sum (Rotor._dT s) /
                   (rho * (PI * Ro ^ 2) * (om * Ro) ^ 2)))
            (Rotor.set_power (Some (np.sum (Rotor._dP s)))
               (Rotor.set_thrust (Some (np.sum (Rotor._dT s))) s))).
Proof.
  unfold Rotor.integrate, bind, modify, get, lift.
  cbn [Rotor._thrust Rotor._power Rotor.set_thrust Rotor.set_power
       Rotor.set_CT Rotor._dT Rotor._dP unNone].
  unfold fdiv.
  destruct (Req_dec_T (rho * (PI * Ro ^ 2) * (om * Ro) ^ 2) 0);
    [discriminate|].
  destruct (Req_dec_T (rho * (PI * Ro ^ 2) * (om * Ro) ^ 3) 0);
    [discriminate|].
  intros H. injection H as <- <-. split; reflexivity.
Qed.

(** A pass of [calc] over a strip that returns: the inflow loop has left
    locals, the warning is printed exactly when the last error exceeds
    the tolerance, the strip's entries are written and the aggregates
    recomputed. *)
Lemma calc_strip_Ok
    (rho V om theta0 : R) (maxiters : Z) (tol relax Ro : R)
    (strip : nat) (loc loc' : option Rotor.strip_out)
    (s s' : Rotor.t) (o o' : stdout) :
  Rotor.calc_strip rho V om theta0 maxiters tol relax Ro strip loc s o =
    (Ok loc', s', o') ->
  exists r vi0 vi err out,
    nth_error (Rotor._rstrip s) strip = Some r /\
    nth_error (Rotor._inflow s) strip = Some vi0 /\
    Rotor.inflow_loop s rho V om theta0 relax Ro tol strip r
      (Z.to_nat maxiters) vi0 1e6 loc = Ok (vi, err, Some out) /\
    loc' = Some out /\
    o' = (if Rgt_dec err tol then o ++ [Rotor.warning strip] else o) /\
    stored s' strip vi out /\
    (forall j, j <> strip -> same_outputs_at s s' j) /\
    aggregated rho om Ro s'.
Proof.
  unfold Rotor.calc_strip, bind, get, lift.
  unfold getitem at 1.
  destruct (nth_error (Rotor._rstrip s) strip) as [r|]; [|discriminate].
  unfold getitem at 1.
  destruct (nth_error (Rotor._inflow s) strip) as [vi0|]; [|discriminate].
  destruct (Rotor.inflow_loop s rho V om theta0 relax Ro tol strip r
              (Z.to_nat maxiters) vi0 1e6 loc) as [[[vi err] loc1]|]
    eqn:Hloop; [|discriminate].
  assert (Hw : forall (s0 : Rotor.t) (o0 : stdout),
            (if Rgt_dec err tol then print (Rotor.warning strip)
             else ret tt) s0 o0 =
            (Ok tt, s0,
             if Rgt_dec err tol then o0 ++ [Rotor.warning strip] else o0)).
  { intros s0 o0. destruct (Rgt_dec err tol); reflexivity. }
  rewrite Hw. clear Hw.
  set (o1 := if Rgt_dec err tol then o ++ [Rotor.warning strip] else o).
  unfold update at 1.
  destruct (setitem (Rotor._inflow s) strip vi) as [li|] eqn:Ei;
    [|discriminate].
  cbn [rbind].
  destruct loc1 as [out|]; [|discriminate]. cbn [bound].
  unfold update at 1.
  cbn [Rotor._alpha Rotor.set_inflow Rotor.set_alpha Rotor.set_cl Rotor.set_cd
       Rotor.set_dT Rotor.set_dP].
  destruct (setitem (Rotor._alpha s) strip (Rotor.o_alpha out))
    as [la|] eqn:Ea; [|discriminate].
  cbn [rbind].
  unfold update at 1.
  cbn [Rotor._cl Rotor.set_inflow Rotor.set_alpha Rotor.set_cl Rotor.set_cd
       Rotor.set_dT Rotor.set_dP].
  destruct (setitem (Rotor._cl s) strip (Rotor.o_cl out))
    as [lc|] eqn:Ec; [|discriminate].
  cbn [rbind].
  unfold update at 1.
  cbn [Rotor._cd Rotor.set_inflow Rotor.set_alpha Rotor.set_cl Rotor.set_cd
       Rotor.set_dT Rotor.set_dP].
  destruct (setitem (Rotor._cd s) strip (Rotor.o_cd out))
    as [ld|] eqn:Ed; [|discriminate].
  cbn [rbind].
  unfold update at 1.
  cbn [Rotor._dT Rotor.set_inflow Rotor.set_alpha Rotor.set_cl Rotor.set_cd
       Rotor.set_dT Rotor.set_dP].
  destruct (setitem (Rotor._dT s) strip (Rotor.o_dT out))
    as [lT|] eqn:ET; [|discriminate].
  cbn [rbind].
  unfold update at 1.
  cbn [Rotor._dP Rotor.set_inflow Rotor.set_alpha Rotor.set_cl Rotor.set_cd
       Rotor.set_dT Rotor.set_dP].
  destruct (setitem (Rotor._dP s) strip (Rotor.o_dP out))
    as [lP|] eqn:EP; [|discriminate].
  cbn [rbind].
  match goal with
  | |- context [Rotor.integrate rho om Ro ?s5 o1] =>
      destruct (Rotor.integrate rho om Ro s5 o1) as [[[[]|e] s6] o6] eqn:Hint;
        [|discriminate]
  end.
  apply integrate_Ok in Hint. destruct Hint as [-> ->].
  unfold ret. intros H. injection H as <- <- <-.
  destruct (setitem_nth_error _ _ _ _ Ei) as [Hi Hi'].
  destruct (setitem_nth_error _ _ _ _ Ea) as [Ha Ha'].
  destruct (setitem_nth_error _ _ _ _ Ec) as [Hc Hc'].
  destruct (setitem_nth_error _ _ _ _ Ed) as [Hd Hd'].
  destruct (setitem_nth_error _ _ _ _ ET) as [HT HT'].
  destruct (setitem_nth_error _ _ _ _ EP) as [HP HP'].
  exists r, vi0, vi, err, out.
  split; [reflexivity|]. split; [reflexivity|]. split; [exact Hloop|].
  split; [reflexivity|]. split; [reflexivity|].
  split; [|split].
  - unfold stored. cbn. repeat split; assumption.
  - intros j Hj. unfold same_outputs_at. cbn. repeat split; auto.
  - unfold aggregated. cbn. repeat split; reflexivity.
Qed.

(** After a loop over at least one strip, the aggregates are those of
    the strip outputs. *)
Lemma calc_strips_aggregated
    (rho V om theta0 : R) (maxiters : Z) (tol relax Ro : R)
    (strips : list nat) :
  forall loc s o s' o',
  strips <> [] ->
  Rotor.calc_strips rho V om theta0 maxiters tol relax Ro strips loc s o =
    (Ok tt, s', o') ->
  aggregated rho om Ro s'.
Proof.
  induction strips as [|strip strips IH]; intros loc s o s' o' Hne Hrun;
    [congruence|].
  simpl in Hrun. unfold bind in Hrun.
  destruct (Rotor.calc_strip rho V om theta0 maxiters tol relax Ro strip
              loc s o) as [[[loc1|e] s1] o1] eqn:Hstrip; [|discriminate].
  destruct strips as [|strip' strips].
  - simpl in Hrun. unfold ret in Hrun. injection Hrun as <- <-.
    destruct (calc_strip_Ok _ _ _ _ _ _ _ _ _ _ _ _ _ _ _ Hstrip)
      as (r & vi0 & vi & err & out & _ & _ & _ & _ & _ & _ & _ & Hagg).
    exact Hagg.
  - eapply IH; [discriminate|exact Hrun].
Qed.

(** X13: when [calc] returns on a rotor with at least one strip, the
    thrust and the power it leaves are the sums of the strip thrusts
    [dT] and strip powers [dP] it leaves, and the coefficients are
    [CT = thrust/(rho*A*(om*Ro)^2)] and [CP = power/(rho*A*(om*Ro)^3)]
    with [A = pi*Ro^2], [om = 2*pi*rpm/60] and [Ro] the outer radius of
    the blade. *)
Theorem calc_aggregates
    (rho V rpm theta0 : R) (maxiters : Z) (tol relax : R)
    (self self' : Rotor.t) (out out' : stdout) :
  Rotor._rstrip self <> [] ->
  Rotor.calc rho V rpm theta0 maxiters tol relax self out =
    (Ok tt, self', out') ->
  exists Ro,
    Blade.outerRadius (Rotor._blade self) = Ok Ro /\
    let om := 2 * PI * rpm / 60 in
    let A := PI * Ro ^ 2 in
    Rotor._thrust self' = Some (np.sum (Rotor._dT self')) /\
    Rotor._power self' = Some (np.sum (Rotor._dP self')) /\
    Rotor._CT self' =
      Some (np.sum (Rotor._dT self') / (rho * A * (om * Ro) ^ 2)) /\
    Rotor._CP self' =
      Some (np.sum (Rotor._dP self') / (rho * A * (om * Ro) ^ 3)).
Proof.
  intros Hne Hrun.
  unfold Rotor.calc, bind, get, lift in Hrun.
  destruct (Blade.outerRadius (Rotor._blade self)) as [Ro|e];
    [|discriminate].
  exists Ro. split; [reflexivity|].
  replace (2 * PI * rpm / 60) with (rpm * 1 / 60 * 2 * PI) by lra.
  eapply calc_strips_aggregated; [|exact Hrun].
  destruct (Rotor._rstrip self); [congruence|discriminate].
Qed.

Lemma calc_aggregates_witness :
  exists s',
    Rotor.calc 1 0 60 0 5000 1e-12 0.01 rotor2 [] = (Ok tt, s', []) /\
    Rotor._thrust s' = Some (np.sum (Rotor._dT s')) /\
    Rotor._power s' = Some (np.sum (Rotor._dP s')).
Proof.
  destruct (calc_hover rotor2 2 [] 1 60 0 5000 1e-12 0.01
              rotor2_hover_ready)
    as (s' & Hrun & _); try lia; try lra; try discriminate.
  { simpl. lra. }
  exists s'. split; [exact Hrun|].
  destruct (calc_aggregates 1 0 60 0 5000 1e-12 0.01 rotor2 s' [] []
              ltac:(discriminate) Hrun)
    as (Ro & _ & Hth & Hpw & _).
  split; [exact Hth|exact Hpw].
Defined.

(** ** [calc] on rotors and arguments it was not meant for *)

(** X14: on a rotor that has never been discretized, [calc] returns at
    once, whatever its arguments: it writes and prints nothing, so that
    thrust, power and the coefficients keep the values they had ([None]
    on a new rotor).  It raises [IndexError], also without writing, when
    the blade has no stations. *)
Theorem calc_undiscretized
    (rho V rpm theta0 : R) (maxiters : Z) (tol relax : R)
    (self : Rotor.t) (out : stdout) :
  Rotor._rstrip self = [] ->
  (Blade._radial (Rotor._blade self) <> [] ->
   Rotor.calc rho V rpm theta0 maxiters tol relax self out =
     (Ok tt, self, out)) /\
  (Blade._radial (Rotor._blade self) = [] ->
   Rotor.calc rho V rpm theta0 maxiters tol relax self out =
     (Raise IndexError, self, out)).
Proof.
  intros Hnew. unfold Rotor.calc, bind, get, lift, Blade.outerRadius.
  rewrite Hnew. split; intros Hrad.
  - destruct (Blade._radial (Rotor._blade self)); [congruence|reflexivity].
  - rewrite Hrad. reflexivity.
Qed.

Lemma calc_undiscretized_witness :
  Rotor.calc 1 0 60 0 5000 1e-12 0.01 (Rotor.init blade0 5) [] =
    (Ok tt, Rotor.init blade0 5, []) /\
  Rotor._thrust (Rotor.init blade0 5) = None.
Proof.
  split; [|reflexivity].
  apply (proj1 (calc_undiscretized 1 0 60 0 5000 1e-12 0.01
                  (Rotor.init blade0 5) [] eq_refl)).
  discriminate.
Defined.

Lemma set_inflow_same (s : Rotor.t) :
  Rotor.set_inflow (Rotor._inflow s) s = s.
Proof.
  destruct s. reflexivity.
Qed.

Lemma setitem_same {A : Type} (l : list A) (i : nat) (v : A) :
  nth_error l i = Some v -> setitem l i v = Ok l.
Proof.
  revert i. induction l as [|a l IH]; intros i H.
  - destruct i; discriminate.
  - destruct i as [|i]; simpl in *.
    + injection H as ->. reflexivity.
    + rewrite IH by exact H. reflexivity.
Qed.

(** The inflow loop does not run without iterations to spend or with an
    error within the tolerance. *)
Lemma inflow_loop_skipped
    (self : Rotor.t) (rho V om theta0 relax Ro tol : R) (strip : nat)
    (r : R) (fuel : nat) (vi err : R) (loc : option Rotor.strip_out) :
  fuel = 0%nat \/ ~ err > tol ->
  Rotor.inflow_loop self rho V om theta0 relax Ro tol strip r fuel
    vi err loc = Ok (vi, err, loc).
Proof.
  intros [->|Herr]; [reflexivity|].
  destruct fuel as [|fuel]; [reflexivity|]. simpl.
  destruct (Rgt_dec err tol); [contradiction|reflexivity].
Qed.

(** X15: with [maxiters <= 0], or with a tolerance of [1e6] or more,
    the inflow loop never runs and [calc] raises [UnboundLocalError] at
    the first strip, when it stores the angle of attack the loop would
    have computed.  The rotor is as it was; the convergence warning for
    strip 0 has been printed when the tolerance is below [1e6]. *)
Theorem calc_without_iterations
    (rho V rpm theta0 : R) (maxiters : Z) (tol relax : R)
    (self : Rotor.t) (out : stdout) (r0 vi0 : R) :
  Blade._radial (Rotor._blade self) <> [] ->
  nth_error (Rotor._rstrip self) 0 = Some r0 ->
  nth_error (Rotor._inflow self) 0 = Some vi0 ->
  (maxiters <= 0)%Z \/ 1e6 <= tol ->
  Rotor.calc rho V rpm theta0 maxiters tol relax self out =
  (Raise UnboundLocalError, self,
   if Rgt_dec 1e6 tol then out ++ [Rotor.warning 0] else out).
Proof.
  intros Hrad Hr Hvi Hskip.
  unfold Rotor.calc, bind, get, lift, Blade.outerRadius.
  destruct (Blade._radial (Rotor._blade self)) as [|Ri radial'];
    [congruence|].
  destruct (Rotor._rstrip self) as [|r rs] eqn:Ers; [discriminate|].
  injection Hr as ->.
  cbn [length seq Rotor.calc_strips]. unfold bind.
  unfold Rotor.calc_strip, bind, get, lift.
  rewrite Ers. unfold getitem. rewrite Hvi. cbn [nth_error].
  rewrite inflow_loop_skipped
    by (destruct Hskip as [Hm|Ht]; [left; lia|right; lra]).
  destruct (Rgt_dec 1e6 tol); unfold print, ret, update;
    rewrite (setitem_same _ _ _ Hvi); cbn [rbind bound];
    rewrite set_inflow_same; reflexivity.
Qed.

Lemma calc_without_iterations_witness :
  Rotor.calc 1 0 60 0 0 1e-12 0.01 rotor2 [] =
    (Raise UnboundLocalError, rotor2, [Rotor.warning 0]).
Proof.
  pose proof (calc_without_iterations 1 0 60 0 0 1e-12 0.01 rotor2 []
                (1.5 + (0 + 0.5) * ((30 - 1.5) / 2)) 0) as H.
  destruct (Rgt_dec 1e6 1e-12) as [_|Hn]; [|exfalso; lra].
  apply H.
  - discriminate.
  - reflexivity.
  - reflexivity.
  - left. lia.
Defined.

(** X16: at a rotor speed of zero, or on a strip centred on the axis,
    the first iteration of the inflow loop divides by the tangential
    speed [om*r = 0]: [calc] raises [ZeroDivisionError] with the rotor as
    it was and nothing printed. *)
Theorem calc_zero_tangential_speed
    (rho V rpm theta0 : R) (maxiters : Z) (tol relax : R)
    (self : Rotor.t) (out : stdout) (r0 vi0 : R) :
  Blade._radial (Rotor._blade self) <> [] ->
  nth_error (Rotor._rstrip self) 0 = Some r0 ->
  nth_error (Rotor._inflow self) 0 = Some vi0 ->
  (1 <= maxiters)%Z -> tol < 1e6 ->
  rpm = 0 \/ r0 = 0 ->
  Rotor.calc rho V rpm theta0 maxiters tol relax self out =
  (Raise ZeroDivisionError, self, out).
Proof.
  intros Hrad Hr Hvi Hmax Htol Hzero.
  unfold Rotor.calc, bind, get, lift, Blade.outerRadius.
  destruct (Blade._radial (Rotor._blade self)) as [|Ri radial'];
    [congruence|].
  destruct (Rotor._rstrip self) as [|r rs] eqn:Ers; [discriminate|].
  injection Hr as ->.
  cbn [length seq Rotor.calc_strips]. unfold bind.
  unfold Rotor.calc_strip, bind, get, lift.
  rewrite Ers. unfold getitem. rewrite Hvi. cbn [nth_error].
  destruct (Z.to_nat maxiters) as [|fuel] eqn:Ef; [lia|].
  cbn [Rotor.inflow_loop].
  destruct (Rgt_dec 1e6 tol) as [_|Hn]; [|exfalso; lra].
  unfold Rotor.inflow_step. unfold fdiv at 1.
  destruct (Req_dec_T (rpm * 1 / 60 * 2 * PI * r0) 0) as [_|Hne].
  - reflexivity.
  - exfalso. apply Hne. destruct Hzero as [->| ->]; lra.
Qed.

Lemma calc_zero_tangential_speed_witness :
  Rotor.calc 1 0 0 0 5000 1e-12 0.01 rotor2 [] =
    (Raise ZeroDivisionError, rotor2, []).
Proof.
  apply (calc_zero_tangential_speed 1 0 0 0 5000 1e-12 0.01 rotor2 []
           (1.5 + (0 + 0.5) * ((30 - 1.5) / 2)) 0).
  - discriminate.
  - reflexivity.
  - reflexivity.
  - lia.
  - lra.
  - left. reflexivity.
Defined.

(** ** The strip outputs are those of the last iteration *)

(** An iteration of the inflow loop reads the configuration of the rotor
    only. *)
Lemma inflow_step_same_configuration
    (s s' : Rotor.t) (rho V om theta0 relax Ro : R) (strip : nat)
    (r vi : R) :
  same_configuration s s' ->
  Rotor.inflow_step s' rho V om theta0 relax Ro strip r vi =
  Rotor.inflow_step s rho V om theta0 relax Ro strip r vi.
Proof.
  intros (Hbl & Hnb & _ & Hch & Htw & HdR).
  unfold Rotor.inflow_step. rewrite Hbl, Hnb, Hch, Htw, HdR. reflexivity.
Qed.

(** An inflow loop that is entered leaves what its last iteration
    computed. *)
Lemma inflow_loop_ran
    (self : Rotor.t) (rho V om theta0 relax Ro tol : R) (strip : nat)
    (r : R) (fuel : nat) (vi err : R) (loc : option Rotor.strip_out)
    (vi' err' : R) (loc' : option Rotor.strip_out) :
  (1 <= fuel)%nat -> err > tol ->
  Rotor.inflow_loop self rho V om theta0 relax Ro tol strip r fuel
    vi err loc = Ok (vi', err', loc') ->
  exists vi0 it,
    Rotor.inflow_step self rho V om theta0 relax Ro strip r vi0 = Ok it /\
    loc' = Some (Rotor.i_out it) /\
    vi' = Rotor.i_vi it /\ err' = Rotor.i_inflow_err it.
Proof.
  intros Hfuel Herr H.
  destruct fuel as [|fuel]; [lia|]. simpl in H.
  destruct (Rgt_dec err tol); [|contradiction].
  destruct (Rotor.inflow_step self rho V om theta0 relax Ro strip r vi)
    as [it|] eqn:Hstep; simpl in H; [|discriminate].
  destruct (inflow_loop_locals _ _ _ _ _ _ _ _ _ _ _ _ _ _ _ _ _ H)
    as [(-> & -> & ->)|Hlater].
  - exists vi, it. repeat split. exact Hstep.
  - exact Hlater.
Qed.

Lemma calc_strip_keeps_configuration
    (rho V om theta0 : R) (maxiters : Z) (tol relax Ro : R)
    (strip : nat) (loc : option Rotor.strip_out) :
  keeps same_configuration
    (Rotor.calc_strip rho V om theta0 maxiters tol relax Ro strip loc).
Proof.
  apply keeps_calc_strip; try (intros; repeat split; fail).
  apply same_configuration_trans.
Qed.

Lemma same_outputs_at_trans (s1 s2 s3 : Rotor.t) (j : nat) :
  same_outputs_at s1 s2 j -> same_outputs_at s2 s3 j ->
  same_outputs_at s1 s3 j.
Proof.
  unfold same_outputs_at.
  intros (H1 & H2 & H3 & H4 & H5 & H6) (K1 & K2 & K3 & K4 & K5 & K6).
  repeat split; congruence.
Qed.

Lemma stored_same_outputs (s s' : Rotor.t) (j : nat) (vi : R)
    (out : Rotor.strip_out) :
  stored s j vi out -> same_outputs_at s s' j -> stored s' j vi out.
Proof.
  unfold stored, same_outputs_at.
  intros (H1 & H2 & H3 & H4 & H5 & H6) (K1 & K2 & K3 & K4 & K5 & K6).
  repeat split; congruence.
Qed.

Lemma app_eq_self {A : Type} (l ws : list A) : l ++ ws = l -> ws = [].
Proof.
  intros H. apply (app_inv_head l). rewrite app_nil_r. exact H.
Qed.

(** The loop of [calc] over distinct strips, when the inflow loop is
    entered: every strip visited holds the outputs of an iteration of
    its inflow loop, whose error is within the tolerance when nothing
    was printed; the strips not visited hold what they held. *)
Lemma calc_strips_stores
    (rho V om theta0 : R) (maxiters : Z) (tol relax Ro : R)
    (self : Rotor.t) :
  (1 <= Z.to_nat maxiters)%nat -> 1e6 > tol ->
  forall strips loc s o s' o',
  NoDup strips ->
  same_configuration self s ->
  Rotor.calc_strips rho V om theta0 maxiters tol relax Ro strips loc s o =
    (Ok tt, s', o') ->
  (exists ws, o' = o ++ ws) /\
  (forall j, ~ In j strips -> same_outputs_at s s' j) /\
  (forall strip, In strip strips ->
     exists r vi0 it,
       nth_error (Rotor._rstrip self) strip = Some r /\
       Rotor.inflow_step self rho V om theta0 relax Ro strip r vi0 = Ok it /\
       stored s' strip (Rotor.i_vi it) (Rotor.i_out it) /\
       (o' = o -> Rotor.i_inflow_err it <= tol)).
Proof.
  intros Hfuel Htol.
  induction strips as [|k rest IH]; intros loc s o s' o' Hnd Hcfg Hrun.
  - simpl in Hrun. unfold ret in Hrun. injection Hrun as <- <-.
    split; [exists []; rewrite app_nil_r; reflexivity|].
    split; [intros j _; repeat split|intros strip []].
  - simpl in Hrun. unfold bind in Hrun.
    pose proof (calc_strip_keeps_configuration rho V om theta0 maxiters tol
                  relax Ro k loc s o) as Hkeep.
    destruct (Rotor.calc_strip rho V om theta0 maxiters tol relax Ro k
                loc s o) as [[[loc1|e] s1] o1] eqn:Hstrip; [|discriminate].
    simpl in Hkeep.
    destruct (calc_strip_Ok _ _ _ _ _ _ _ _ _ _ _ _ _ _ _ Hstrip)
      as (r & vi0 & vi & err & out & Hr & _ & Hloop & _ & Ho1 & Hst &
          Hoth & _).
    destruct (inflow_loop_ran _ _ _ _ _ _ _ _ _ _ _ _ _ _ _ _ _
                Hfuel Htol Hloop)
      as (vi00 & it & Hstep & Hout & -> & ->).
    injection Hout as ->.
    assert (Hcfg1 : same_configuration self s1)
      by (eapply same_configuration_trans; eassumption).
    apply NoDup_cons_iff in Hnd. destruct Hnd as [Hk Hnd'].
    destruct (IH loc1 s1 o1 s' o' Hnd' Hcfg1 Hrun)
      as ((ws & Hws) & Hoth' & Hin').
    assert (Hw1 : exists w1, o1 = o ++ w1 /\
                    (w1 = [] -> Rotor.i_inflow_err it <= tol)).
    { rewrite Ho1. destruct (Rgt_dec (Rotor.i_inflow_err it) tol).
      - eexists. split; [reflexivity|discriminate].
      - exists []. split; [rewrite app_nil_r; reflexivity|].
        intros _. lra. }
    destruct Hw1 as (w1 & Hw1 & Hconv).
    assert (Hquiet : o' = o -> w1 = [] /\ ws = []).
    { intros Hsame. rewrite Hws, Hw1, <- app_assoc in Hsame.
      apply app_eq_self in Hsame. apply app_eq_nil in Hsame. exact Hsame. }
    split; [|split].
    + exists (w1 ++ ws). rewrite Hws, Hw1, app_assoc. reflexivity.
    + intros j Hj. apply same_outputs_at_trans with s1.
      * apply Hoth. intros ->. apply Hj. left. reflexivity.
      * apply Hoth'. intros Hjin. apply Hj. right. exact Hjin.
    + intros strip [<-|Hin].
      * exists r, vi00, it.
        split; [destruct Hcfg as (_ & _ & Hrs & _); rewrite <- Hrs; exact Hr|].
        split.
        { rewrite <- (inflow_step_same_configuration self s rho V om theta0
                        relax Ro k r vi00 Hcfg).
          exact Hstep. }
        split.
        { eapply stored_same_outputs; [exact Hst|]. apply Hoth'. exact Hk. }
        intros Hsame. apply Hconv. apply Hquiet. exact Hsame.
      * destruct (Hin' strip Hin) as (r' & vi0' & it' & H1 & H2 & H3 & H4).
        exists r', vi0', it'.
        split; [exact H1|]. split; [exact H2|]. split; [exact H3|].
        intros Hsame. apply H4.
        destruct (Hquiet Hsame) as [-> ->].
        rewrite Hws, !app_nil_r. rewrite Hw1, app_nil_r. reflexivity.
Qed.

(** X17: when [calc] returns, what it leaves for each strip (inflow,
    angle of attack, lift and drag coefficients, strip thrust and strip
    power) are the values of one and the same iteration of the inflow
    loop of that strip, run on the rotor as it was configured at the
    call.  When nothing was printed, the inflow error of that iteration
    is within the tolerance for every strip. *)
Theorem calc_stores_last_iterates
    (rho V rpm theta0 : R) (maxiters : Z) (tol relax : R)
    (self self' : Rotor.t) (out out' : stdout) :
  Rotor.calc rho V rpm theta0 maxiters tol relax self out =
    (Ok tt, self', out') ->
  let om := rpm * 1 / 60 * 2 * PI in
  forall strip r, nth_error (Rotor._rstrip self) strip = Some r ->
  exists Ro vi0 it,
    Blade.outerRadius (Rotor._blade self) = Ok Ro /\
    Rotor.inflow_step self rho V om theta0 relax Ro strip r vi0 = Ok it /\
    stored self' strip (Rotor.i_vi it) (Rotor.i_out it) /\
    (out' = out -> Rotor.i_inflow_err it <= tol).
Proof.
  intros Hrun om strip r Hr.
  unfold Rotor.calc, bind, get, lift in Hrun. fold om in Hrun.
  destruct (Blade.outerRadius (Rotor._blade self)) as [Ro|e];
    [|discriminate].
  assert (Hstrip : (strip < length (Rotor._rstrip self))%nat).
  { apply nth_error_Some. congruence. }
  assert (Hran : (1 <= Z.to_nat maxiters)%nat /\ 1e6 > tol).
  { destruct (length (Rotor._rstrip self)) as [|n]; [lia|].
    cbn [seq Rotor.calc_strips] in Hrun. unfold bind in Hrun.
    destruct (Rotor.calc_strip rho V om theta0 maxiters tol relax Ro 0
                None self out) as [[[loc1|e] s1] o1] eqn:H0; [|discriminate].
    destruct (calc_strip_Ok _ _ _ _ _ _ _ _ _ _ _ _ _ _ _ H0)
      as (r0 & vi0 & vi & err & out0 & _ & _ & Hloop & _).
    destruct (Nat.eq_dec (Z.to_nat maxiters) 0) as [Hz|Hnz].
    - rewrite inflow_loop_skipped in Hloop by (left; exact Hz).
      discriminate.
    - destruct (Rgt_dec 1e6 tol) as [Hgt|Hle]; [split; [lia|exact Hgt]|].
      rewrite inflow_loop_skipped in Hloop by (right; exact Hle).
      discriminate. }
  destruct Hran as [Hfuel Htol].
  destruct (calc_strips_stores rho V om theta0 maxiters tol relax Ro self
              Hfuel Htol _ _ _ _ _ _ (seq_NoDup _ _)
              ltac:(repeat split) Hrun)
    as (_ & _ & Hin).
  destruct (Hin strip) as (r' & vi0 & it & Hr' & Hstep & Hst & Hconv).
  { apply in_seq. lia. }
  assert (r' = r) by congruence. subst r'.
  exists Ro, vi0, it.
  split; [reflexivity|]. split; [exact Hstep|].
  split; [exact Hst|exact Hconv].
Qed.

Lemma calc_stores_last_iterates_witness :
  exists s' Ro vi0 it,
    Rotor.calc 1 0 60 0 5000 1e-12 0.01 rotor2 [] = (Ok tt, s', []) /\
    Rotor.inflow_step rotor2 1 0 (60 * 1 / 60 * 2 * PI) 0 0.01 Ro 0
      (1.5 + (0 + 0.5) * ((30 - 1.5) / 2)) vi0 = Ok it /\
    nth_error (Rotor._inflow s') 0 = Some (Rotor.i_vi it) /\
    Rotor.i_inflow_err it <= 1e-12.
Proof.
  destruct (calc_hover rotor2 2 [] 1 60 0 5000 1e-12 0.01
              rotor2_hover_ready)
    as (s' & Hrun & _); try lia; try lra; try discriminate.
  { simpl. lra. }
  destruct (calc_stores_last_iterates 1 0 60 0 5000 1e-12 0.01 rotor2 s'
              [] [] Hrun 0%nat (1.5 + (0 + 0.5) * ((30 - 1.5) / 2))
              eq_refl)
    as (Ro & vi0 & it & _ & Hstep & Hst & Hconv).
  exists s', Ro, vi0, it.
  split; [exact Hrun|]. split; [exact Hstep|].
  split; [exact (proj1 Hst)|exact (Hconv eq_refl)].
Defined.

(** ** One iteration of the inflow loop *)

(** What a completed iteration has computed. *)
Lemma inflow_step_Ok
    (self : Rotor.t) (rho V om theta0 relax Ro : R) (strip : nat)
    (r vi : R) (it : Rotor.iterate) :
  Rotor.inflow_step self rho V om theta0 relax Ro strip r vi = Ok it ->
  exists dR,
    Rotor._dR self = Some dR /\
    4 * PI * rho * r * dR <> 0 /\ om * r <> 0 /\ om * Ro <> 0 /\
    Rotor.i_vim it =
      -0.5 * V +
      sqrt (Rmax (0.25 * V ^ 2 +
                  Rotor.o_dT (Rotor.i_out it) / (4 * PI * rho * r * dR)) 0) /\
    Rotor.i_inflow_err it = sqrt ((Rotor.i_vim it - vi) ^ 2) / (om * Ro) /\
    Rotor.i_vi it = relax * Rotor.i_vim it + (1 - relax) * vi.
Proof.
  unfold Rotor.inflow_step, rbind.
  unfold fdiv at 1.
  destruct (Req_dec_T (om * r) 0) as [|Homr]; [discriminate|].
  destruct (getitem (Rotor._twiststrip self) strip) as [tw|]; [|discriminate].
  destruct (Airfoil.Cl _ _) as [cl|]; [|discriminate].
  destruct (Airfoil.Cd _ _) as [cd|]; [|discriminate].
  destruct (getitem (Rotor._chordstrip self) strip) as [ch|]; [|discriminate].
  destruct (Rotor.tip_loss _ _ _ _ _ _) as [Ft|]; [|discriminate].
  destruct (Rotor._dR self) as [dR|]; simpl; [|discriminate].
  unfold Rotor.momentum_arg, fdiv, rbind.
  destruct (Req_dec_T (4 * PI * rho * r * dR) 0) as [|Ha]; [discriminate|].
  destruct (Req_dec_T (om * Ro) 0) as [|HomRo]; [discriminate|].
  intros H. injection H as <-. simpl.
  exists dR. repeat split; assumption.
Qed.

Lemma sqrt_pow2_Rabs (x : R) : sqrt (x ^ 2) = Rabs x.
Proof.
  rewrite <- Rsqr_pow2. apply sqrt_Rsqr_abs.
Qed.

(** X18: an iteration of the inflow loop that completes moves the
    inflow from [vi] towards the momentum-theory candidate [vim] by the
    fraction [relax], so that for [0 <= relax <= 1] the new inflow lies
    between the two; its error is [|vim - vi|/(om*Ro)], zero exactly
    when the inflow is a fixed point of the iteration.  The candidate is
    never below [-V/2], and when the strip thrust has the sign of
    [rho*r*dR] (a positive thrust, in air, on a strip off the axis) the
    candidate and the flow [V + vim] through the disk are not
    negative. *)
Theorem inflow_step_update
    (self : Rotor.t) (rho V om theta0 relax Ro : R) (strip : nat)
    (r vi : R) (it : Rotor.iterate) :
  Rotor.inflow_step self rho V om theta0 relax Ro strip r vi = Ok it ->
  let vim := Rotor.i_vim it in
  Rotor.i_vi it = vi + relax * (vim - vi) /\
  (0 <= relax <= 1 -> Rmin vi vim <= Rotor.i_vi it <= Rmax vi vim) /\
  Rotor.i_inflow_err it = Rabs (vim - vi) / (om * Ro) /\
  (Rotor.i_inflow_err it = 0 <-> vim = vi) /\
  (vim = vi -> Rotor.i_vi it = vi) /\
  - V / 2 <= vim /\
  exists dR,
    Rotor._dR self = Some dR /\
    (0 <= Rotor.o_dT (Rotor.i_out it) / (4 * PI * rho * r * dR) ->
     0 <= vim /\ 0 <= V + vim).
Proof.
  intros Hstep vim.
  destruct (inflow_step_Ok _ _ _ _ _ _ _ _ _ _ _ Hstep)
    as (dR & HdR & Ha & Homr & HomRo & Hvim & Herr & Hvi).
  fold vim in Hvim, Herr, Hvi.
  rewrite sqrt_pow2_Rabs in Herr.
  split; [rewrite Hvi; lra|].
  split.
  { intros [H0 H1]. rewrite Hvi.
    unfold Rmin, Rmax. destruct (Rle_dec vi vim); split; nra. }
  split; [exact Herr|].
  split.
  { rewrite Herr. split.
    - intros H0.
      assert (Habs : Rabs (vim - vi) = 0).
      { apply (Rmult_eq_reg_r (/ (om * Ro)));
          [|apply Rinv_neq_0_compat; exact HomRo].
        rewrite Rmult_0_l. exact H0. }
      destruct (Req_dec (vim - vi) 0) as [Hz|Hnz]; [lra|].
      apply Rabs_no_R0 in Hnz. contradiction.
    - intros ->. replace (vi - vi) with 0 by lra.
      rewrite Rabs_R0. unfold Rdiv. apply Rmult_0_l. }
  split; [intros Heq; rewrite Hvi, Heq; lra|].
  pose proof (sqrt_pos
                (Rmax (0.25 * V ^ 2 +
                       Rotor.o_dT (Rotor.i_out it) /
                       (4 * PI * rho * r * dR)) 0)) as Hs.
  split; [rewrite Hvim; lra|].
  exists dR. split; [exact HdR|].
  set (q := Rotor.o_dT (Rotor.i_out it) / (4 * PI * rho * r * dR)) in *.
  clearbody q. intros Hq.
  assert (Hge : Rabs (V / 2) <= sqrt (Rmax (0.25 * V ^ 2 + q) 0)).
  { rewrite <- sqrt_pow2_Rabs. apply sqrt_le_1_alt.
    apply Rle_trans with (0.25 * V ^ 2 + q); [|apply Rmax_l].
    replace ((V / 2) ^ 2) with (0.25 * V ^ 2)
      by (unfold Rdiv; replace 0.25 with (/ 2 * / 2) by lra; ring).
    lra. }
  pose proof (Rle_abs (V / 2)) as H1.
  pose proof (Rle_abs (- (V / 2))) as H2.
  rewrite Rabs_Ropp in H2.
  rewrite Hvim. split; lra.
Qed.

Lemma inflow_step_update_witness :
  exists it,
    Rotor.inflow_step rotor1 1 0 1 0 0.01 2 0 1.5 0 = Ok it /\
    Rotor.i_vi it = 0 + 0.01 * (Rotor.i_vim it - 0) /\
    - 0 / 2 <= Rotor.i_vim it.
Proof.
  destruct rotor1_step as [it Hstep].
  exists it. split; [exact Hstep|].
  destruct (inflow_step_update rotor1 1 0 1 0 0.01 2 0 1.5 0 it Hstep)
    as (Hvi & _ & _ & _ & _ & Hlow & _).
  split; [exact Hvi|exact Hlow].
Defined.




(** ** [calc] returns on a rotor that is set up *)

(** The inflow loop of a strip of such a rotor terminates without
    raising, from any inflow. *)
Lemma inflow_loop_total (s : Rotor.t) (n : nat)
    (rho V om theta0 relax Ro tol : R) (strip : nat) (r : R) (fuel : nat) :
  calc_ready s n Ro -> (strip < n)%nat -> 0 < r < Ro ->
  0 < rho -> 0 < om ->
  forall vi err loc,
  exists res,
    Rotor.inflow_loop s rho V om theta0 relax Ro tol strip r fuel
      vi err loc = Ok res.
Proof.
  intros Hs Hstrip Hr Hrho Hom.
  destruct (cr_airfoil _ _ _ Hs) as (As & Cs & Ds & Haf & HAs & HCs & HDs).
  destruct (cr_dR _ _ _ Hs) as (dR & HdR & HdRpos).
  induction fuel as [|fuel IH]; intros vi err loc; simpl.
  - eexists. reflexivity.
  - destruct (Rgt_dec err tol); [|eexists; reflexivity].
    destruct (inflow_step_total s rho V om theta0 relax Ro strip r vi dR
                As Cs Ds Haf HAs HCs HDs) as [it Hit]; try assumption.
    + rewrite (cr_twiststrip _ _ _ Hs). exact Hstrip.
    + rewrite (cr_chordstrip _ _ _ Hs). exact Hstrip.
    + exact (cr_nblades _ _ _ Hs).
    + rewrite Hit. cbn [rbind]. apply IH.
Qed.

(** A pass of [calc] over a strip of such a rotor returns, and the rotor
    is still set up. *)
Lemma calc_strip_total (s : Rotor.t) (n : nat) (o : stdout)
    (rho V om theta0 : R) (maxiters : Z) (tol relax Ro : R) (strip : nat)
    (loc : option Rotor.strip_out) :
  calc_ready s n Ro -> (strip < n)%nat ->
  0 < rho -> 0 < om -> (1 <= maxiters)%Z -> tol < 1e6 ->
  exists loc' s' o',
    Rotor.calc_strip rho V om theta0 maxiters tol relax Ro strip loc s o =
      (Ok loc', s', o') /\
    calc_ready s' n Ro.
Proof.
  intros Hs Hstrip Hrho Hom Hmax Htol.
  pose proof Hs as [Haf HRo Hnb HdR Hrad Hlr Hlc Hlt Hli Hla Hlcl Hlcd
                    HlT HlP].
  pose proof PI_RGT_0 as Hpi.
  destruct (getitem_Forall _ _ strip Hrad ltac:(lia)) as (r & Hgr & Hr).
  assert (HRopos : 0 < Ro) by lra.
  destruct (nth_error (Rotor._inflow s) strip) as [vi0|] eqn:Evi;
    [|apply nth_error_None in Evi; lia].
  destruct (inflow_loop_total s n rho V om theta0 relax Ro tol strip r
              (Z.to_nat maxiters) Hs Hstrip Hr Hrho Hom vi0 1e6 loc)
    as [[[vi err] loc1] Hloop].
  assert (Hfuel : (1 <= Z.to_nat maxiters)%nat) by lia.
  assert (Htol' : 1e6 > tol) by lra.
  destruct (inflow_loop_ran _ _ _ _ _ _ _ _ _ _ _ _ _ _ _ _ _
              Hfuel Htol' Hloop)
    as (vi00 & it & _ & -> & _ & _).
  destruct (setitem_in_range (Rotor._inflow s) strip vi ltac:(lia))
    as [li Ei].
  destruct (setitem_in_range (Rotor._alpha s) strip
              (Rotor.o_alpha (Rotor.i_out it)) ltac:(lia)) as [la Ea].
  destruct (setitem_in_range (Rotor._cl s) strip
              (Rotor.o_cl (Rotor.i_out it)) ltac:(lia)) as [lc Ec].
  destruct (setitem_in_range (Rotor._cd s) strip
              (Rotor.o_cd (Rotor.i_out it)) ltac:(lia)) as [ld Ed].
  destruct (setitem_in_range (Rotor._dT s) strip
              (Rotor.o_dT (Rotor.i_out it)) ltac:(lia)) as [lT ET].
  destruct (setitem_in_range (Rotor._dP s) strip
              (Rotor.o_dP (Rotor.i_out it)) ltac:(lia)) as [lP EP].
  pose proof (setitem_length _ _ _ _ Ei) as Li.
  pose proof (setitem_length _ _ _ _ Ea) as La.
  pose proof (setitem_length _ _ _ _ Ec) as Lc.
  pose proof (setitem_length _ _ _ _ Ed) as Ld.
  pose proof (setitem_length _ _ _ _ ET) as LT.
  pose proof (setitem_length _ _ _ _ EP) as LP.
  assert (HomRo : 0 < om * Ro) by (apply Rmult_lt_0_compat; assumption).
  assert (HA : 0 < rho * (PI * Ro ^ 2)).
  { apply Rmult_lt_0_compat; [lra|]. apply Rmult_lt_0_compat; [lra|].
    apply pow_lt. lra. }
  assert (H2 : rho * (PI * Ro ^ 2) * (om * Ro) ^ 2 <> 0).
  { apply Rgt_not_eq. apply Rmult_lt_0_compat; [lra|]. apply pow_lt. lra. }
  assert (H3 : rho * (PI * Ro ^ 2) * (om * Ro) ^ 3 <> 0).
  { apply Rgt_not_eq. apply Rmult_lt_0_compat; [lra|]. apply pow_lt. lra. }
  unfold Rotor.calc_strip, bind, get, lift.
  rewrite Hgr. unfold getitem at 1. rewrite Evi. rewrite Hloop.
  assert (Hw : forall (s0 : Rotor.t) (o0 : stdout),
            (if Rgt_dec err tol then print (Rotor.warning strip)
             else ret tt) s0 o0 =
            (Ok tt, s0,
             if Rgt_dec err tol then o0 ++ [Rotor.warning strip] else o0)).
  { intros s0 o0. destruct (Rgt_dec err tol); reflexivity. }
  rewrite Hw. clear Hw.
  unfold update at 1. rewrite Ei. cbn [rbind bound].
  repeat (unfold update at 1;
          cbn [Rotor._alpha Rotor._cl Rotor._cd Rotor._dT Rotor._dP
               Rotor.set_inflow Rotor.set_alpha Rotor.set_cl Rotor.set_cd
               Rotor.set_dT Rotor.set_dP];
          rewrite ?Ea, ?Ec, ?Ed, ?ET, ?EP;
          cbn [rbind]).
  unfold Rotor.integrate, bind, modify, get, lift, ret.
  cbn [Rotor._dT Rotor._dP Rotor._thrust Rotor._power Rotor.set_thrust
       Rotor.set_power Rotor.set_CT Rotor.set_dP Rotor.set_dT unNone].
  unfold fdiv.
  destruct (Req_dec_T (rho * (PI * Ro ^ 2) * (om * Ro) ^ 2) 0) as [H0|_];
    [contradiction|].
  destruct (Req_dec_T (rho * (PI * Ro ^ 2) * (om * Ro) ^ 3) 0) as [H0|_];
    [contradiction|].
  eexists; eexists; eexists. split; [reflexivity|].
  constructor; cbn; try assumption; congruence.
Qed.

Lemma calc_strips_total (n : nat)
    (rho V om theta0 : R) (maxiters : Z) (tol relax Ro : R)
    (strips : list nat) :
  0 < rho -> 0 < om -> (1 <= maxiters)%Z -> tol < 1e6 ->
  (forall i, In i strips -> (i < n)%nat) ->
  forall loc s o, calc_ready s n Ro ->
  exists s' o',
    Rotor.calc_strips rho V om theta0 maxiters tol relax Ro strips loc s o =
      (Ok tt, s', o') /\
    calc_ready s' n Ro.
Proof.
  intros Hrho Hom Hmax Htol.
  induction strips as [|strip strips IH]; intros Hin loc s o Hs.
  - exists s, o. split; [reflexivity|exact Hs].
  - destruct (calc_strip_total s n o rho V om theta0 maxiters tol relax Ro
                strip loc Hs (Hin strip (or_introl eq_refl))
                Hrho Hom Hmax Htol)
      as (loc' & s1 & o1 & Hrun & Hs1).
    destruct (IH (fun i Hi => Hin i (or_intror Hi)) loc' s1 o1 Hs1)
      as (s' & o' & Hrun' & Hs').
    exists s', o'. simpl. unfold bind. rewrite Hrun.
    split; [exact Hrun'|exact Hs'].
Qed.

(** The first [discretize] of a new rotor with blades sets it up, when
    the blade starts off the axis and has well-formed tables. *)
Lemma discretize_calc_ready (N : Z) (bl : Blade.t) (b : Z) (o : stdout)
    (Ri : R) (radial' : list R) (As Cs Ds : list (list R)) :
  Blade._radial bl = Ri :: radial' ->
  table_ok (Blade._radial bl) (Blade._chord bl) ->
  table_ok (Blade._radial bl) (Blade._twist bl) ->
  Blade._airfoil bl = Airfoil.mk (Some As) (Some Cs) (Some Ds) ->
  As <> [] -> Forall2 table_ok As Cs -> Forall2 table_ok As Ds ->
  0 < Ri < last (Ri :: radial') 0 -> (0 < b)%Z -> (1 <= N)%Z ->
  exists s,
    Rotor.discretize N (Rotor.init bl b) o = (Ok tt, s, o) /\
    calc_ready s (Z.to_nat N) (last (Ri :: radial') 0).
Proof.
  intros Hrad Hch Htw Haf HAs HCs HDs [HRi Hspan] Hb HN.
  set (Ro := last (Ri :: radial') 0) in *.
  assert (HN0 : 0 < IZR N) by (apply IZR_lt; lia).
  assert (HdR : 0 < (Ro - Ri) / IZR N) by (apply Rdiv_lt_0_compat; lra).
  exists (discretized N Ri Ro (Rotor.init bl b)). split.
  { apply (discretize_run N (Rotor.init bl b) o Ri radial');
      try assumption. lra. }
  unfold discretized, range.
  constructor; cbn [Rotor._blade Rotor._nblades Rotor._dR Rotor._rstrip
                    Rotor._chordstrip Rotor._twiststrip Rotor._inflow
                    Rotor._alpha Rotor._cl Rotor._cd Rotor._dT Rotor._dP
                    Rotor.init app];
    rewrite ?length_map, ?length_seq, ?repeat_length; try reflexivity.
  - exists As, Cs, Ds. repeat split; assumption.
  - unfold Blade.outerRadius. rewrite Hrad.
    destruct radial'; reflexivity.
  - exact Hb.
  - eexists. split; [reflexivity|exact HdR].
  - apply Forall_forall. intros r Hin.
    apply in_map_iff in Hin. destruct Hin as (i & <- & Hi).
    apply in_seq in Hi.
    pose proof (INR_lt_IZR i N ltac:(lia)) as Hle.
    pose proof (pos_INR i) as Hi0.
    assert (Hsum : IZR N * ((Ro - Ri) / IZR N) = Ro - Ri)
      by (field; lra).
    set (dR := (Ro - Ri) / IZR N) in *.
    split; nra.
Qed.

(** On a rotor that is set up, [calc] returns and leaves it set up;
    with at least one strip the aggregates are those of the strips. *)
Lemma calc_returns_on_ready_rotor_aux (s : Rotor.t) (n : nat) (Ro : R)
    (o : stdout) (rho V rpm theta0 : R) (maxiters : Z) (tol relax : R) :
  calc_ready s n Ro ->
  0 < rho -> 0 < rpm -> (1 <= maxiters)%Z -> tol < 1e6 -> (0 < n)%nat ->
  exists s' o',
    Rotor.calc rho V rpm theta0 maxiters tol relax s o = (Ok tt, s', o') /\
    calc_ready s' n Ro /\
    aggregated rho (rpm * 1 / 60 * 2 * PI) Ro s'.
Proof.
  intros Hs Hrho Hrpm Hmax Htol Hn.
  pose proof PI_RGT_0 as Hpi.
  assert (Hom : 0 < rpm * 1 / 60 * 2 * PI).
  { apply Rmult_lt_0_compat; [lra|exact Hpi]. }
  unfold Rotor.calc, bind, get, lift.
  rewrite (cr_Ro _ _ _ Hs).
  destruct (calc_strips_total n rho V (rpm * 1 / 60 * 2 * PI) theta0
              maxiters tol relax Ro (seq 0 (length (Rotor._rstrip s)))
              Hrho Hom Hmax Htol) with (loc := @None Rotor.strip_out)
              (s := s) (o := o)
    as (s' & o' & Hrun & Hs').
  - intros i Hi. apply in_seq in Hi. rewrite (cr_rstrip _ _ _ Hs) in Hi. lia.
  - exact Hs.
  - exists s', o'. split; [exact Hrun|]. split; [exact Hs'|].
    eapply calc_strips_aggregated; [|exact Hrun].
    rewrite (cr_rstrip _ _ _ Hs). destruct n; [lia|discriminate].
Qed.



(** ** The forces on the vehicle *)

(** What [computeForces] has done when it returns. *)
Lemma computeForces_Ok
    (v v' : Vehicle.t) (out out' : stdout) (Vwind rho theta0 g : R)
    (f : Vehicle.forces) :
  Vehicle.computeForces Vwind rho theta0 g v out = (Ok f, v', out') ->
  exists Vvehicle,
    Vehicle._Vvehicle v = Some Vvehicle /\
    Vehicle._rw v <> 0 /\ Vehicle._trans v <> 0 /\
    let vrel := Vvehicle - Vwind in
    let rpm := rotor_rpm_of v Vvehicle in
    Vehicle.aero_drag f =
      Some (if Rlt_dec vrel 0
            then Vehicle._CDb v * 0.5 * rho * vrel ^ 2 * Vehicle._A v
            else - Vehicle._CDf v * 0.5 * rho * vrel ^ 2 * Vehicle._A v) /\
    Vehicle._Fdrag_aero v' = Vehicle.aero_drag f /\
    Vehicle._Fdrag_rotor v' = Vehicle.rotor_drag f /\
    Vehicle.rotor_thrust f = Rotor._thrust (Vehicle._rotor v') /\
    (rpm > 0 ->
     exists power,
       Rotor._power (Vehicle._rotor v') = Some power /\
       Vehicle._eta_trans v <> 0 /\
       Vehicle.rotor_drag f =
         Some (- (power / (rpm * 1 / 60 * 2 * PI) /
                  (Vehicle._trans v * Vehicle._eta_trans v)) /
               Vehicle._rw v) /\
       Rotor.calc rho vrel rpm theta0 Rotor.maxiters_default
         Rotor.tol_default Rotor.relax_default (Vehicle._rotor v) out =
       (Ok tt, Vehicle._rotor v', out')) /\
    (~ rpm > 0 ->
     Vehicle.rotor_drag f = Some 0 /\
     out' = out ++ [Vehicle.diagnostic] /\
     Vehicle._rotor v' =
       Rotor.set_power (Some 0)
         (Rotor.set_thrust (Some 0) (Vehicle._rotor v))).
Proof.
  unfold Vehicle.computeForces, bind, get, raise, rotor_rpm_of.
  destruct (Vehicle._Vvehicle v) as [Vvehicle|]; [|discriminate].
  unfold lift, fdiv.
  destruct (Req_dec_T (2 * PI * Vehicle._rw v) 0) as [|Hrw]; [discriminate|].
  destruct (Req_dec_T (Vehicle._trans v) 0) as [|Htr]; [discriminate|].
  assert (Hrw' : Vehicle._rw v <> 0).
  { intros H0. apply Hrw. rewrite H0. apply Rmult_0_r. }
  set (rpm := Vvehicle / (2 * PI * Vehicle._rw v) * 60 / Vehicle._trans v).
  set (vrel := Vvehicle - Vwind).
  assert (Haero : forall (s : Vehicle.t) (o : stdout),
            (if Rlt_dec vrel 0
             then modify (fun s =>
                    Vehicle.set_Fdrag_aero
                      (Some (Vehicle._CDb s * 0.5 * rho * vrel ^ 2 *
                             Vehicle._A s)) s)
             else modify (fun s =>
                    Vehicle.set_Fdrag_aero
                      (Some (- Vehicle._CDf s * 0.5 * rho * vrel ^ 2 *
                             Vehicle._A s)) s)) s o =
            (Ok tt,
             Vehicle.set_Fdrag_aero
               (Some (if Rlt_dec vrel 0
                      then Vehicle._CDb s * 0.5 * rho * vrel ^ 2 *
                           Vehicle._A s
                      else - Vehicle._CDf s * 0.5 * rho * vrel ^ 2 *
                           Vehicle._A s)) s, o)).
  { intros s o. destruct (Rlt_dec vrel 0); reflexivity. }
  destruct (Rgt_dec rpm 0) as [Hpos|Hneg].
  - unfold Vehicle.on_rotor.
    destruct (Rotor.calc rho vrel rpm theta0
                Rotor.maxiters_default Rotor.tol_default
                Rotor.relax_default (Vehicle._rotor v) out)
      as [[[[]|e] rot'] o'] eqn:Hcalc; [|discriminate].
    rewrite Haero.
    unfold modify, unNone, ret.
    cbn [Vehicle._rotor Vehicle.set_rotor Vehicle.set_Fdrag_aero
         Vehicle._trans Vehicle._eta_trans Vehicle._rw].
    destruct (Rotor._power rot') as [power|] eqn:Hpower; [|discriminate].
    destruct (Req_dec_T (rpm * 1 / 60 * 2 * PI) 0); [discriminate|].
    destruct (Req_dec_T (Vehicle._trans v * Vehicle._eta_trans v) 0)
      as [|Heta]; [discriminate|].
    destruct (Req_dec_T (Vehicle._rw v) 0); [discriminate|].
    intros H; injection H as <- <- <-.
    exists Vvehicle.
    split; [reflexivity|]. split; [exact Hrw'|]. split; [exact Htr|].
    split; [reflexivity|]. split; [reflexivity|].
    split; [reflexivity|]. split; [reflexivity|].
    split; [|intros Hn; contradiction].
    intros _. exists power.
    split; [exact Hpower|].
    split; [intros H0; apply Heta; rewrite H0; apply Rmult_0_r|].
    split; [reflexivity|exact Hcalc].
  - unfold modify in Haero.
    unfold print, Vehicle.on_rotor, modify. cbv beta iota.
    rewrite Haero. unfold ret.
    intros H; injection H as <- <- <-.
    exists Vvehicle.
    split; [reflexivity|]. split; [exact Hrw'|]. split; [exact Htr|].
    split; [reflexivity|]. split; [reflexivity|].
    split; [reflexivity|]. split; [reflexivity|].
    split; [intros Hp; contradiction|].
    intros _. repeat split.
Qed.

(** X21: the aerodynamic drag [computeForces] returns never pushes the
    vehicle against the relative wind: with drag coefficients, air
    density and frontal area that are not negative, its product with the
    relative wind [Vvehicle - Vwind] is not positive.  Its size is
    [CD*rho/2*(Vvehicle - Vwind)^2*A] with [CD = CDb] for a wind from
    behind and [CD = CDf] otherwise, and it vanishes at the speed of the
    wind. *)
Theorem aero_drag_opposes_relative_wind
    (v v' : Vehicle.t) (out out' : stdout) (Vwind rho theta0 g : R)
    (f : Vehicle.forces) :
  Vehicle.computeForces Vwind rho theta0 g v out = (Ok f, v', out') ->
  exists Vvehicle F,
    Vehicle._Vvehicle v = Some Vvehicle /\
    Vehicle.aero_drag f = Some F /\ Vehicle._Fdrag_aero v' = Some F /\
    let vrel := Vvehicle - Vwind in
    (vrel < 0 ->
     F = Vehicle._CDb v * rho / 2 * vrel ^ 2 * Vehicle._A v) /\
    (0 <= vrel ->
     F = - (Vehicle._CDf v * rho / 2 * vrel ^ 2 * Vehicle._A v)) /\
    (vrel = 0 -> F = 0) /\
    (0 <= Vehicle._CDf v -> 0 <= Vehicle._CDb v -> 0 <= rho ->
     0 <= Vehicle._A v -> F * vrel <= 0).
Proof.
  intros Hrun.
  destruct (computeForces_Ok _ _ _ _ _ _ _ _ _ Hrun)
    as (Vvehicle & HV & _ & _ & Haero & Hstored & _).
  cbv zeta in Haero.
  eexists Vvehicle, _. split; [exact HV|]. split; [exact Haero|].
  split; [rewrite Hstored; exact Haero|].
  set (vrel := Vvehicle - Vwind).
  assert (Hsq : 0 <= vrel ^ 2) by (apply pow2_ge_0).
  destruct (Rlt_dec vrel 0) as [Hlt|Hge].
  - split; [intros _; lra|]. split; [intros H; lra|].
    split; [intros H; lra|].
    intros _ Hb Hrho HA.
    assert (0 <= Vehicle._CDb v * 0.5 * rho * vrel ^ 2 * Vehicle._A v).
    { apply Rmult_le_pos; [|assumption].
      apply Rmult_le_pos; [|assumption].
      apply Rmult_le_pos; [|assumption].
      apply Rmult_le_pos; [assumption|lra]. }
    nra.
  - split; [intros H; lra|]. split; [intros _; lra|].
    split; [intros ->; simpl; lra|].
    intros Hf _ Hrho HA.
    assert (0 <= Vehicle._CDf v * 0.5 * rho * vrel ^ 2 * Vehicle._A v).
    { apply Rmult_le_pos; [|assumption].
      apply Rmult_le_pos; [|assumption].
      apply Rmult_le_pos; [|assumption].
      apply Rmult_le_pos; [assumption|lra]. }
    nra.
Qed.

Lemma aero_drag_opposes_relative_wind_witness :
  exists v' F,
    Vehicle.computeForces 10 1 0 32 (vehicle2 10) [] =
      (Ok (Vehicle.mk_forces (Some 0) (Some 0) (Some 0) (Some (-6.4))),
       v', []) /\
    Vehicle._Fdrag_aero v' = Some F /\ F * (10 - 10) <= 0.
Proof.
  destruct computeForces_at_wind_speed as [v' Hrun].
  destruct (aero_drag_opposes_relative_wind _ _ _ _ _ _ _ _ _ Hrun)
    as (Vvehicle & F & HV & _ & Hst & _ & _ & _ & Hsign).
  injection HV as <-.
  exists v', F. split; [exact Hrun|]. split; [exact Hst|].
  apply Hsign; simpl; lra.
Defined.

(** X22: with a positive rotor speed, the drag on the wheels that turns
    the rotor takes from the vehicle the power the rotor absorbs,
    divided by the efficiency of the transmission:
    [rotor_drag * Vvehicle * gear_efficiency = - power], whatever the
    wheel radius and the gear ratio. *)
Theorem rotor_drag_power_balance
    (v v' : Vehicle.t) (out out' : stdout) (Vwind rho theta0 g : R)
    (f : Vehicle.forces) (Vvehicle : R) :
  Vehicle.computeForces Vwind rho theta0 g v out = (Ok f, v', out') ->
  Vehicle._Vvehicle v = Some Vvehicle ->
  rotor_rpm_of v Vvehicle > 0 ->
  exists power Fd,
    Rotor._power (Vehicle._rotor v') = Some power /\
    Vehicle.rotor_drag f = Some Fd /\ Vehicle._Fdrag_rotor v' = Some Fd /\
    Fd * Vvehicle * Vehicle._eta_trans v = - power.
Proof.
  intros Hrun HV Hrpm.
  destruct (computeForces_Ok _ _ _ _ _ _ _ _ _ Hrun)
    as (V' & HV' & Hrw & Htr & _ & _ & Hstored & _ & Hpos & _).
  assert (V' = Vvehicle) by congruence. subst V'.
  destruct (Hpos Hrpm) as (power & Hpower & Heta & Hdrag & _).
  eexists power, _. split; [exact Hpower|]. split; [exact Hdrag|].
  split; [rewrite Hstored; exact Hdrag|].
  pose proof PI_RGT_0 as Hpi.
  assert (HVne : Vvehicle <> 0).
  { intros ->. unfold rotor_rpm_of, Rdiv in Hrpm.
    rewrite !Rmult_0_l in Hrpm. lra. }
  unfold rotor_rpm_of. field.
  repeat split; try assumption. lra.
Qed.

Lemma rotor_drag_power_balance_witness :
  exists v' power Fd,
    Vehicle.computeForces 10 1 0 32 (vehicle2 10) [] =
      (Ok (Vehicle.mk_forces (Some 0) (Some 0) (Some 0) (Some (-6.4))),
       v', []) /\
    Rotor._power (Vehicle._rotor v') = Some power /\
    Vehicle._Fdrag_rotor v' = Some Fd /\
    Fd * 10 * 1 = - power.
Proof.
  destruct computeForces_at_wind_speed as [v' Hrun].
  destruct (rotor_drag_power_balance _ _ _ _ _ _ _ _ _ 10 Hrun eq_refl)
    as (power & Fd & Hp & _ & Hst & Hbal).
  { pose proof PI_RGT_0 as Hpi.
    assert (Hinv : 0 < / (2 * PI * 1)) by (apply Rinv_0_lt_compat; lra).
    unfold rotor_rpm_of, vehicle2. simpl. unfold Rdiv. nra. }
  exists v', power, Fd.
  split; [exact Hrun|]. split; [exact Hp|]. split; [exact Hst|exact Hbal].
Defined.

Lemma computeForces_aero (Vwind rho Vvehicle : R) (s : Vehicle.t)
    (o : stdout) :
  let vrel := Vvehicle - Vwind in
  (if Rlt_dec vrel 0
   then modify (fun s =>
          Vehicle.set_Fdrag_aero
            (Some (Vehicle._CDb s * 0.5 * rho * vrel ^ 2 * Vehicle._A s)) s)
   else modify (fun s =>
          Vehicle.set_Fdrag_aero
            (Some (- Vehicle._CDf s * 0.5 * rho * vrel ^ 2 * Vehicle._A s))
            s)) s o =
  (Ok tt,
   Vehicle.set_Fdrag_aero
     (Some (if Rlt_dec vrel 0
            then Vehicle._CDb s * 0.5 * rho * vrel ^ 2 * Vehicle._A s
            else - Vehicle._CDf s * 0.5 * rho * vrel ^ 2 * Vehicle._A s)) s,
   o).
Proof.
  intros vrel. destruct (Rlt_dec vrel 0); reflexivity.
Qed.

Lemma vehicle_keeps_refl (v : Vehicle.t) : vehicle_keeps v v.
Proof.
  repeat split.
Qed.

(** What [computeForces] keeps, whether it returns or raises. *)
Lemma computeForces_keeps
    (Vwind rho theta0 g : R) (v : Vehicle.t) (out : stdout) :
  vehicle_keeps v (snd (fst (Vehicle.computeForces Vwind rho theta0 g v out))).
Proof.
  unfold Vehicle.computeForces, bind, get, raise.
  destruct (Vehicle._Vvehicle v) as [Vvehicle|] eqn:HV;
    [|apply vehicle_keeps_refl].
  unfold lift, fdiv.
  destruct (Req_dec_T (2 * PI * Vehicle._rw v) 0);
    [apply vehicle_keeps_refl|].
  destruct (Req_dec_T (Vehicle._trans v) 0); [apply vehicle_keeps_refl|].
  set (rpm := Vvehicle / (2 * PI * Vehicle._rw v) * 60 / Vehicle._trans v).
  pose proof (computeForces_aero Vwind rho Vvehicle) as Haero.
  cbv zeta in Haero.
  destruct (Rgt_dec rpm 0) as [Hpos|Hneg].
  - unfold Vehicle.on_rotor.
    pose proof (calc_keeps_configuration rho (Vvehicle - Vwind) rpm theta0
                  Rotor.maxiters_default Rotor.tol_default
                  Rotor.relax_default (Vehicle._rotor v) out) as Hkeep.
    destruct (Rotor.calc rho (Vvehicle - Vwind) rpm theta0
                Rotor.maxiters_default Rotor.tol_default
                Rotor.relax_default (Vehicle._rotor v) out)
      as [[[[]|e] rot'] o']; simpl in Hkeep.
    + rewrite Haero.
      unfold modify, unNone, ret.
      cbn [Vehicle._rotor Vehicle.set_rotor Vehicle.set_Fdrag_aero
           Vehicle._trans Vehicle._eta_trans Vehicle._rw].
      destruct (Rotor._power rot') as [power|];
        [|cbn; repeat split; try exact HV; apply Hkeep].
      destruct (Req_dec_T (rpm * 1 / 60 * 2 * PI) 0);
        [cbn; repeat split; try exact HV; apply Hkeep|].
      destruct (Req_dec_T (Vehicle._trans v * Vehicle._eta_trans v) 0);
        [cbn; repeat split; try exact HV; apply Hkeep|].
      destruct (Req_dec_T (Vehicle._rw v) 0);
        cbn; repeat split; try exact HV; apply Hkeep.
    + cbn. repeat split; try exact HV; apply Hkeep.
  - unfold modify in Haero.
    unfold print, Vehicle.on_rotor, modify. cbv beta iota.
    rewrite Haero. unfold ret. cbn. repeat split.
Qed.

(** X23: whatever its arguments and the state of the vehicle, and
    whether it returns or raises, [computeForces] leaves the parameters
    of the vehicle and its speed as they were, and the rotor as it was
    configured: blade, blade count, strips and strip width.  What it
    writes is among the three stored forces and the outputs of the
    rotor. *)
Theorem computeForces_frame
    (Vwind rho theta0 g : R) (v : Vehicle.t) (out : stdout) :
  let v' := snd (fst (Vehicle.computeForces Vwind rho theta0 g v out)) in
  Vehicle._rw v' = Vehicle._rw v /\
  Vehicle._trans v' = Vehicle._trans v /\
  Vehicle._eta_trans v' = Vehicle._eta_trans v /\
  Vehicle._CDf v' = Vehicle._CDf v /\
  Vehicle._CDb v' = Vehicle._CDb v /\
  Vehicle._Crr v' = Vehicle._Crr v /\
  Vehicle._A v' = Vehicle._A v /\
  Vehicle._m v' = Vehicle._m v /\
  Vehicle._Vvehicle v' = Vehicle._Vvehicle v /\
  Rotor._blade (Vehicle._rotor v') = Rotor._blade (Vehicle._rotor v) /\
  Rotor._nblades (Vehicle._rotor v') = Rotor._nblades (Vehicle._rotor v) /\
  Rotor._rstrip (Vehicle._rotor v') = Rotor._rstrip (Vehicle._rotor v) /\
  Rotor._chordstrip (Vehicle._rotor v') =
    Rotor._chordstrip (Vehicle._rotor v) /\
  Rotor._twiststrip (Vehicle._rotor v') =
    Rotor._twiststrip (Vehicle._rotor v) /\
  Rotor._dR (Vehicle._rotor v') = Rotor._dR (Vehicle._rotor v).
Proof.
  intros v'.
  destruct (computeForces_keeps Vwind rho theta0 g v out)
    as (H1 & H2 & H3 & H4 & H5 & H6 & H7 & H8 & H9 & K1 & K2 & K3 & K4 &
        K5 & K6).
  repeat split; assumption.
Qed.

(** X24: before the speed has been set, as on a new vehicle,
    [computeForces] exits with status 1, whatever its arguments; it has
    not touched the vehicle or its rotor and has printed nothing on the
    standard output. *)
Theorem computeForces_before_setSpeed
    (Vwind rho theta0 g : R) (v : Vehicle.t) (out : stdout) :
  Vehicle._Vvehicle v = None ->
  Vehicle.computeForces Vwind rho theta0 g v out =
  (Raise (SystemExit 1), v, out).
Proof.
  intros HV. unfold Vehicle.computeForces, bind, get, raise.
  rewrite HV. reflexivity.
Qed.

Lemma computeForces_before_setSpeed_witness :
  Vehicle.computeForces 10 1 0 32
    (Vehicle.init 1 1 1 0.3 0.4 0.01 20 20 rotor2) [] =
  (Raise (SystemExit 1), Vehicle.init 1 1 1 0.3 0.4 0.01 20 20 rotor2, []).
Proof.
  apply (computeForces_before_setSpeed 10 1 0 32
           (Vehicle.init 1 1 1 0.3 0.4 0.01 20 20 rotor2) []).
  reflexivity.
Defined.




(** ** Accuracy of the integrator *)

(** X26: on a linear equation [y' = lam*y] over floats, a step
    multiplies [y] by the Taylor polynomial of degree four of
    [exp(lam*dt)]: [1 + z + z^2/2 + z^3/6 + z^4/24] with [z = lam*dt]. *)
Theorem rk4_step_linear_equation (lam t y dt : R) :
  let z := lam * dt in
  let f := fun (_ : R) (y : R) => lam * y in
  RK4.step (RK4.mk f t y dt) =
  RK4.mk f (t + dt)
    ((1 + z + z ^ 2 / 2 + z ^ 3 / 6 + z ^ 4 / 24) * y) dt.
Proof.
  intros z f. unfold RK4.step, z, f. cbn.
  f_equal. replace 0.5 with (/ 2) by lra. field.
Qed.

(** X27: when the derivative depends on the time only and is a
    polynomial of degree three or less, a step over floats is exact: it
    adds to [y] the integral of the polynomial over [[t, t + dt]]. *)
Theorem rk4_step_cubic_quadrature (a b c d t y dt : R) :
  let p := fun (t : R) (_ : R) => a + b * t + c * t ^ 2 + d * t ^ 3 in
  let P := fun t => a * t + b * t ^ 2 / 2 + c * t ^ 3 / 3 + d * t ^ 4 / 4 in
  RK4.step (RK4.mk p t y dt) =
  RK4.mk p (t + dt) (y + (P (t + dt) - P t)) dt.
Proof.
  intros p P. unfold RK4.step, p, P. cbn.
  f_equal. replace 0.5 with (/ 2) by lra. field.
Qed.

(** ** The equation of motion and its integration *)

Lemma array2_eta (x : Sim.state) : x = Sim.array2 (Sim.item0 x) (Sim.item1 x).
Proof.
  unfold Sim.array2, Sim.item0, Sim.item1.
  rewrite (Vector.eta x) at 1. f_equal.
  rewrite (Vector.eta (Vector.tl x)) at 1. f_equal.
  apply (Vector.case0 (fun v => v = Vector.nil R)). reflexivity.
Qed.

Lemma item0_vadd (x y : Sim.state) :
  Sim.item0 (Vector.map2 Rplus x y) = Sim.item0 x + Sim.item0 y.
Proof.
  rewrite (array2_eta x), (array2_eta y). reflexivity.
Qed.

Lemma item1_vadd (x y : Sim.state) :
  Sim.item1 (Vector.map2 Rplus x y) = Sim.item1 x + Sim.item1 y.
Proof.
  rewrite (array2_eta x), (array2_eta y). reflexivity.
Qed.

Lemma item0_vscale (a : R) (x : Sim.state) :
  Sim.item0 (Vector.map (Rmult a) x) = a * Sim.item0 x.
Proof.
  rewrite (array2_eta x). reflexivity.
Qed.

Lemma item1_vscale (a : R) (x : Sim.state) :
  Sim.item1 (Vector.map (Rmult a) x) = a * Sim.item1 x.
Proof.
  rewrite (array2_eta x). reflexivity.
Qed.

(** What [motion] has done when it returns: the speed of the vehicle is
    [x[1]], the four forces are stored, and the derivative holds the
    speed and the sum of the forces over the mass. *)
Lemma motion_Ok (G : Sim.globals) (t : R) (x xdot : Sim.state)
    (v v' : Vehicle.t) (out out' : stdout) :
  Sim.motion G t x v out = (Ok xdot, v', out') ->
  exists T Fa Fr Frr,
    Vehicle._Vvehicle v' = Some (Sim.item1 x) /\
    Rotor._thrust (Vehicle._rotor v') = Some T /\
    Vehicle._Fdrag_aero v' = Some Fa /\
    Vehicle._Fdrag_rotor v' = Some Fr /\
    Vehicle._Frr v' = Some Frr /\
    Vehicle._m v' = Vehicle._m v /\ Vehicle._m v <> 0 /\
    Frr = - Vehicle._Crr v * Vehicle._m v * Sim.g G /\
    xdot = Sim.array2 (Sim.item1 x)
             ((0 + T + Fa + Fr + Frr) / Vehicle._m v).
Proof.
  unfold Sim.motion, bind, Vehicle.setSpeed, modify, lift, get.
  destruct (np.interp (Sim.item1 x) (Sim.v_schedule G)
              (Sim.collective_schedule G)) as [theta0|]; [|discriminate].
  set (v1 := Vehicle.set_Vvehicle (Some (Sim.item1 x)) v).
  pose proof (computeForces_keeps (Sim.Vwind G) (Sim.rho G) theta0 (Sim.g G)
                v1 out) as Hkeep.
  destruct (Vehicle.computeForces (Sim.Vwind G) (Sim.rho G) theta0 (Sim.g G)
              v1 out) as [[[f|e] v2] o2] eqn:Hrun; [|discriminate].
  simpl in Hkeep.
  destruct (computeForces_Ok _ _ _ _ _ _ _ _ _ Hrun)
    as (Vv & _ & _ & _ & _ & Haero & Hrot & Hth & _).
  destruct (computeForces_rolling _ _ _ _ _ _ _ _ _ Hrun)
    as (Hroll & Hfrr & _).
  rewrite <- Hfrr in Hroll.
  unfold Sim.sum_values.
  rewrite Hth, <- Haero, <- Hrot, <- Hfrr.
  destruct (Rotor._thrust (Vehicle._rotor v2)) as [T|] eqn:HT;
    [|discriminate].
  destruct (Vehicle._Fdrag_aero v2) as [Fa|] eqn:HFa; [|discriminate].
  destruct (Vehicle._Fdrag_rotor v2) as [Fr|] eqn:HFr; [|discriminate].
  destruct (Vehicle._Frr v2) as [Frr|] eqn:HFrr; [|discriminate].
  cbn [unNone rbind]. unfold fdiv.
  destruct Hkeep as (_ & _ & _ & _ & _ & _ & _ & Hm & HV & _).
  assert (Hm' : Vehicle._m v2 = Vehicle._m v) by exact Hm.
  rewrite Hm'.
  destruct (Req_dec_T (Vehicle._m v) 0) as [|Hne]; [discriminate|].
  unfold ret. intros H. injection H as <- <- <-.
  exists T, Fa, Fr, Frr.
  split; [exact HV|]. split; [exact HT|]. split; [exact HFa|].
  split; [exact HFr|]. split; [exact HFrr|].
  split; [exact Hm'|]. split; [exact Hne|].
  split; [|reflexivity].
  injection Hroll as ->. reflexivity.
Qed.

(** On such a vehicle, with the speed set and in air of positive
    density, [computeForces] returns the four forces at every speed, and
    the vehicle is still set up. *)
Lemma computeForces_total (v : Vehicle.t) (n : nat) (Ro : R) (out : stdout)
    (Vwind rho theta0 g Vvehicle : R) :
  vehicle_ready v n Ro -> Vehicle._Vvehicle v = Some Vvehicle -> 0 < rho ->
  exists T Fa Fr Frr v' out',
    Vehicle.computeForces Vwind rho theta0 g v out =
      (Ok (Vehicle.mk_forces (Some T) (Some Fa) (Some Fr) (Some Frr)),
       v', out') /\
    vehicle_ready v' n Ro /\
    Vehicle._Vvehicle v' = Some Vvehicle.
Proof.
  intros [Hrot Hn Hrw Htr Heta Hm] HV Hrho.
  pose proof PI_RGT_0 as Hpi.
  unfold Vehicle.computeForces, bind, get. rewrite HV.
  unfold lift, fdiv.
  destruct (Req_dec_T (2 * PI * Vehicle._rw v) 0) as [H0|_];
    [exfalso; revert H0; apply two_PI_rw_neq_0; exact Hrw|].
  destruct (Req_dec_T (Vehicle._trans v) 0) as [H0|_]; [contradiction|].
  set (rpm := Vvehicle / (2 * PI * Vehicle._rw v) * 60 / Vehicle._trans v).
  pose proof (computeForces_aero Vwind rho Vvehicle) as Haero.
  cbv zeta in Haero.
  destruct (Rgt_dec rpm 0) as [Hpos|Hneg].
  - unfold Vehicle.on_rotor.
    destruct (calc_returns_on_ready_rotor_aux (Vehicle._rotor v) n Ro out rho
                (Vvehicle - Vwind) rpm theta0 Rotor.maxiters_default
                Rotor.tol_default Rotor.relax_default Hrot Hrho Hpos)
      as (rot' & o' & Hcalc & Hrot' & Hagg);
      [unfold Rotor.maxiters_default; lia
      |unfold Rotor.tol_default; lra|exact Hn|].
    rewrite Hcalc, Haero.
    unfold modify, unNone, ret.
    cbn [Vehicle._rotor Vehicle.set_rotor Vehicle.set_Fdrag_aero
         Vehicle._trans Vehicle._eta_trans Vehicle._rw].
    destruct Hagg as (Hth & Hpw & _).
    rewrite Hpw. cbn [rbind].
    assert (Hom : rpm * 1 / 60 * 2 * PI <> 0).
    { apply Rgt_not_eq. apply Rmult_lt_0_compat; lra. }
    destruct (Req_dec_T (rpm * 1 / 60 * 2 * PI) 0) as [H0|_];
      [contradiction|].
    destruct (Req_dec_T (Vehicle._trans v * Vehicle._eta_trans v) 0)
      as [H0|_].
    { exfalso. apply Rmult_integral in H0. destruct H0; contradiction. }
    destruct (Req_dec_T (Vehicle._rw v) 0) as [H0|_]; [contradiction|].
    cbn -[pow]. rewrite Hth.
    do 6 eexists. split; [reflexivity|].
    split; [constructor; cbn; assumption|exact HV].
  - unfold modify in Haero.
    unfold print, Vehicle.on_rotor, modify. cbv beta iota.
    rewrite Haero. unfold ret. cbn -[pow].
    do 6 eexists. split; [reflexivity|].
    split; [|exact HV].
    constructor; cbn; try assumption.
    destruct Hrot. constructor; cbn; assumption.
Qed.

(** On such a vehicle, with a well-formed collective schedule, [motion]
    returns at every state, and the vehicle is still set up. *)
Lemma motion_total (G : Sim.globals) (t : R) (x : Sim.state)
    (v : Vehicle.t) (n : nat) (Ro : R) (out : stdout) :
  vehicle_ready v n Ro ->
  table_ok (Sim.v_schedule G) (Sim.collective_schedule G) ->
  0 < Sim.rho G ->
  exists xdot v' out',
    Sim.motion G t x v out = (Ok xdot, v', out') /\
    vehicle_ready v' n Ro.
Proof.
  intros Hv [Hne Hlen] Hrho.
  unfold Sim.motion, bind, Vehicle.setSpeed, modify, lift, get.
  rewrite interp_ok by assumption.
  set (v1 := Vehicle.set_Vvehicle (Some (Sim.item1 x)) v).
  assert (Hv1 : vehicle_ready v1 n Ro).
  { destruct Hv. constructor; cbn; assumption. }
  destruct (computeForces_total v1 n Ro out (Sim.Vwind G) (Sim.rho G)
              (np.interp_value (Sim.item1 x) (Sim.v_schedule G)
                 (Sim.collective_schedule G))
              (Sim.g G) (Sim.item1 x) Hv1 eq_refl Hrho)
    as (T & Fa & Fr & Frr & v' & out' & Hrun & Hv' & _).
  rewrite Hrun. cbn [Sim.sum_values Vehicle.rotor_thrust Vehicle.aero_drag
                     Vehicle.rotor_drag Vehicle.rolling unNone rbind].
  unfold fdiv.
  destruct (Req_dec_T (Vehicle._m v') 0) as [H0|_];
    [exfalso; exact (vr_m _ _ _ Hv' H0)|].
  do 3 eexists. split; [reflexivity|exact Hv'].
Qed.

(** On such a vehicle a step of the integrator over [motion] returns,
    whatever the time, the state and the step length, and the vehicle is
    still set up. *)
Lemma step_total (G : Sim.globals) (t dt : R) (y : Sim.state)
    (v : Vehicle.t) (n : nat) (Ro : R) (out : stdout) :
  vehicle_ready v n Ro ->
  table_ok (Sim.v_schedule G) (Sim.collective_schedule G) ->
  0 < Sim.rho G ->
  exists y' v' out',
    RK4_effects.step (RK4_effects.mk (Sim.motion G) t y dt) v out =
      (Ok (RK4_effects.mk (Sim.motion G) (t + dt) y' dt), v', out') /\
    vehicle_ready v' n Ro.
Proof.
  intros Hv Htab Hrho.
  unfold RK4_effects.step, bind.
  cbn [RK4_effects.func RK4_effects.t RK4_effects.y RK4_effects.dt].
  destruct (motion_total G t y v n Ro out Hv Htab Hrho)
    as (k1 & v1 & o1 & H1 & Hv1).
  rewrite H1.
  destruct (motion_total G (t + 0.5 * dt)
              (vadd y (vscale dt (vscale 0.5 k1))) v1 n Ro o1 Hv1 Htab Hrho)
    as (k2 & v2 & o2 & H2 & Hv2).
  rewrite H2.
  destruct (motion_total G (t + 0.5 * dt)
              (vadd y (vscale dt (vscale 0.5 k2))) v2 n Ro o2 Hv2 Htab Hrho)
    as (k3 & v3 & o3 & H3 & Hv3).
  rewrite H3.
  destruct (motion_total G (t + dt) (vadd y (vscale dt k3)) v3 n Ro o3
              Hv3 Htab Hrho)
    as (k4 & v4 & o4 & H4 & Hv4).
  rewrite H4.
  do 3 eexists. split; [reflexivity|exact Hv4].
Qed.

(** The vehicle of the examples on the rotor [rotor2], which the first
    [discretize(2)] of a new rotor leaves, is set up. *)
Lemma rotor2_calc_ready : calc_ready rotor2 2 30.
Proof.
  destruct (discretize_calc_ready 2 blade0 5 [] 1.5 [5; 30]
              [[0; 10]] [[0; 0]] [[0; 0]])
    as (s & Hdisc & Hs); try reflexivity; try lia.
  - split; [discriminate|reflexivity].
  - split; [discriminate|reflexivity].
  - discriminate.
  - repeat constructor; discriminate.
  - repeat constructor; discriminate.
  - simpl. lra.
  - destruct rotor2_discretized as [Hrun _].
    rewrite Hrun in Hdisc. injection Hdisc as <-. exact Hs.
Qed.

Lemma vehicle2_ready (Vvehicle : R) : vehicle_ready (vehicle2 Vvehicle) 2 30.
Proof.
  constructor; cbn; try lra; try lia. exact rotor2_calc_ready.
Qed.

(** X28: when [motion] returns, the derivative of the position is the
    speed [x[1]], and the derivative of the speed obeys Newton's second
    law for the forces the vehicle then holds: mass times acceleration is
    the sum of the rotor thrust, the aerodynamic drag, the drag that
    turns the rotor and the rolling resistance [- Crr*m*g].  The speed
    of the vehicle has been set to [x[1]]. *)
Theorem motion_newton (G : Sim.globals) (t : R) (x xdot : Sim.state)
    (v v' : Vehicle.t) (out out' : stdout) :
  Sim.motion G t x v out = (Ok xdot, v', out') ->
  exists T Fa Fr Frr,
    Vehicle._Vvehicle v' = Some (Sim.item1 x) /\
    Rotor._thrust (Vehicle._rotor v') = Some T /\
    Vehicle._Fdrag_aero v' = Some Fa /\
    Vehicle._Fdrag_rotor v' = Some Fr /\
    Vehicle._Frr v' = Some Frr /\
    Frr = - Vehicle._Crr v * Vehicle._m v * Sim.g G /\
    Sim.item0 xdot = Sim.item1 x /\
    Vehicle._m v' * Sim.item1 xdot = T + Fa + Fr + Frr.
Proof.
  intros Hrun.
  destruct (motion_Ok _ _ _ _ _ _ _ _ Hrun)
    as (T & Fa & Fr & Frr & HV & HT & HFa & HFr & HFrr & Hm & Hne & Hroll &
        ->).
  exists T, Fa, Fr, Frr.
  repeat (split; [assumption|]).
  split; [reflexivity|].
  rewrite Hm. unfold Sim.item1, Sim.array2. cbn. field. exact Hne.
Qed.

Lemma motion_newton_witness :
  exists xdot v' out' T Fa Fr Frr,
    Sim.motion (Sim.mk_globals 10 1 32 [5; 20] [0; 8]) 0 (Sim.array2 0 12)
      (vehicle2 5) [] = (Ok xdot, v', out') /\
    Vehicle._Vvehicle v' = Some 12 /\
    Rotor._thrust (Vehicle._rotor v') = Some T /\
    Vehicle._Fdrag_aero v' = Some Fa /\
    Vehicle._Fdrag_rotor v' = Some Fr /\
    Vehicle._Frr v' = Some Frr /\
    Vehicle._m v' * Sim.item1 xdot = T + Fa + Fr + Frr.
Proof.
  destruct (motion_total (Sim.mk_globals 10 1 32 [5; 20] [0; 8]) 0
              (Sim.array2 0 12) (vehicle2 5) 2 30 [] (vehicle2_ready 5))
    as (xdot & v' & out' & Hrun & _).
  - split; [discriminate|reflexivity].
  - simpl. lra.
  - destruct (motion_newton _ _ _ _ _ _ _ _ Hrun)
      as (T & Fa & Fr & Frr & HV & HT & HFa & HFr & HFrr & _ & _ & Hlaw).
    exists xdot, v', out', T, Fa, Fr, Frr.
    split; [exact Hrun|]. split; [exact HV|].
    repeat (split; [assumption|]). exact Hlaw.
Defined.

(** X29: a step of the integrator over [motion] that returns advances
    the speed by the classical formula on the four accelerations
    [a1 .. a4] found at the stage speeds [s1 = y[1]],
    [s2 = s1 + dt/2*a1], [s3 = s1 + dt/2*a2] and [s4 = s1 + dt*a3], and
    the position by [dt/6*(s1 + 2*s2 + 2*s3 + s4)].  The vehicle is left
    at the fourth stage: its speed is [s4], not the new speed of the
    integrator, and the forces it holds are those at [s4], whose sum is
    the mass times [a4]. *)
Theorem step_with_motion (G : Sim.globals) (t dt : R) (y : Sim.state)
    (self' : @RK4_effects.obj Vehicle.t Sim.state)
    (v v' : Vehicle.t) (out out' : stdout) :
  RK4_effects.step (RK4_effects.mk (Sim.motion G) t y dt) v out =
    (Ok self', v', out') ->
  exists a1 a2 a3 a4 : R,
    let s1 := Sim.item1 y in
    let s2 := s1 + dt / 2 * a1 in
    let s3 := s1 + dt / 2 * a2 in
    let s4 := s1 + dt * a3 in
    RK4_effects.t self' = t + dt /\
    RK4_effects.dt self' = dt /\
    Sim.item0 (RK4_effects.y self') =
      Sim.item0 y + dt / 6 * (s1 + 2 * s2 + 2 * s3 + s4) /\
    Sim.item1 (RK4_effects.y self') =
      s1 + dt / 6 * (a1 + 2 * a2 + 2 * a3 + a4) /\
    exists Vvehicle T Fa Fr Frr,
      Vehicle._Vvehicle v' = Some Vvehicle /\ Vvehicle = s4 /\
      Rotor._thrust (Vehicle._rotor v') = Some T /\
      Vehicle._Fdrag_aero v' = Some Fa /\
      Vehicle._Fdrag_rotor v' = Some Fr /\
      Vehicle._Frr v' = Some Frr /\
      Vehicle._m v' * a4 = T + Fa + Fr + Frr.
Proof.
  unfold RK4_effects.step, bind.
  cbn [RK4_effects.func RK4_effects.t RK4_effects.y RK4_effects.dt].
  destruct (Sim.motion G t y v out) as [[[k1|e] v1] o1] eqn:H1;
    [|discriminate].
  destruct (Sim.motion G (t + 0.5 * dt)
              (vadd y (vscale dt (vscale 0.5 k1))) v1 o1)
    as [[[k2|e] v2] o2] eqn:H2; [|discriminate].
  destruct (Sim.motion G (t + 0.5 * dt)
              (vadd y (vscale dt (vscale 0.5 k2))) v2 o2)
    as [[[k3|e] v3] o3] eqn:H3; [|discriminate].
  destruct (Sim.motion G (t + dt) (vadd y (vscale dt k3)) v3 o3)
    as [[[k4|e] v4] o4] eqn:H4; [|discriminate].
  unfold ret. intros H. injection H as <- <- <-.
  cbn [RK4_effects.t RK4_effects.y RK4_effects.dt].
  assert (Hpos : forall (tt : R) (x k : Sim.state) (w w' : Vehicle.t)
                   (o o' : stdout),
            Sim.motion G tt x w o = (Ok k, w', o') ->
            Sim.item0 k = Sim.item1 x).
  { intros tt x k w w' o o' Hrun.
    destruct (motion_Ok _ _ _ _ _ _ _ _ Hrun)
      as (T & Fa & Fr & Frr & _ & _ & _ & _ & _ & _ & _ & _ & ->).
    reflexivity. }
  pose proof (Hpos _ _ _ _ _ _ _ H1) as P1.
  pose proof (Hpos _ _ _ _ _ _ _ H2) as P2.
  pose proof (Hpos _ _ _ _ _ _ _ H3) as P3.
  pose proof (Hpos _ _ _ _ _ _ _ H4) as P4.
  cbn [vadd vscale Vec_array] in *.
  rewrite item1_vadd, item1_vscale in P2, P3, P4.
  rewrite item1_vscale in P2, P3.
  exists (Sim.item1 k1), (Sim.item1 k2), (Sim.item1 k3), (Sim.item1 k4).
  cbv zeta.
  split; [reflexivity|]. split; [reflexivity|].
  split.
  { rewrite !item0_vadd, !item0_vscale, !item0_vadd, !item0_vscale.
    rewrite P1, P2, P3, P4. lra. }
  split.
  { rewrite !item1_vadd, !item1_vscale, !item1_vadd, !item1_vscale. lra. }
  destruct (motion_Ok _ _ _ _ _ _ _ _ H4)
    as (T & Fa & Fr & Frr & HV & HT & HFa & HFr & HFrr & Hm & Hne & _ & Hk4).
  exists (Sim.item1 (vadd y (vscale dt k3))), T, Fa, Fr, Frr.
  split; [exact HV|].
  split; [cbn [vadd vscale Vec_array];
          rewrite item1_vadd, item1_vscale; reflexivity|].
  repeat (split; [assumption|]).
  rewrite Hk4, Hm. unfold Sim.item1, Sim.array2. cbn. field. exact Hne.
Qed.

Lemma step_with_motion_witness :
  exists self' v' out' a3,
    RK4_effects.step
      (RK4_effects.mk (Sim.motion (Sim.mk_globals 10 1 32 [5; 20] [0; 8])) 0
         (Sim.array2 0 12) 0.5)
      (vehicle2 5) [] = (Ok self', v', out') /\
    RK4_effects.t self' = 0 + 0.5 /\
    Vehicle._Vvehicle v' = Some (12 + 0.5 * a3).
Proof.
  destruct (step_total (Sim.mk_globals 10 1 32 [5; 20] [0; 8]) 0 0.5
              (Sim.array2 0 12) (vehicle2 5) 2 30 [] (vehicle2_ready 5))
    as (y' & v' & out' & Hrun & _).
  - split; [discriminate|reflexivity].
  - simpl. lra.
  - destruct (step_with_motion _ _ _ _ _ _ _ _ _ Hrun)
      as (a1 & a2 & a3 & a4 & Ht & _ & _ & _ & Vv & T & Fa & Fr & Frr &
          HV & HVv & _).
    eexists _, v', out', a3.
    split; [exact Hrun|]. split; [exact Ht|].
    rewrite HV, HVv. reflexivity.
Defined.

(** X30: integrating the motion never raises on a vehicle that is set
    up ([vehicle_ready]: wheel radius, gear ratio, gear efficiency and
    mass other than zero, and a rotor with at least one strip on which
    [calc] can run), in air of positive density and with a well-formed
    collective schedule: whatever the initial time and state, the step
    length and the wind, any number [k] of steps of the integrator over
    [motion] returns, at positive rotor speeds through [calc] and
    otherwise without it; the time has advanced by [k*dt], and the
    vehicle is still set up.  The vehicle of the examples is set up
    ([vehicle2_ready]). *)
Theorem simulation_steps_return (G : Sim.globals) (dt : R)
    (n : nat) (Ro : R) (k : nat) :
  table_ok (Sim.v_schedule G) (Sim.collective_schedule G) ->
  0 < Sim.rho G ->
  forall (t : R) (y : Sim.state) (v : Vehicle.t) (out : stdout),
  vehicle_ready v n Ro ->
  exists y' v' out',
    steps k (RK4_effects.mk (Sim.motion G) t y dt) v out =
      (Ok (RK4_effects.mk (Sim.motion G) (t + INR k * dt) y' dt), v', out') /\
    vehicle_ready v' n Ro.
Proof.
  intros Htab Hrho.
  induction k as [|k IH]; intros t y v out Hv.
  - exists y, v, out. split; [|exact Hv].
    cbn [steps]. unfold ret.
    replace (t + INR 0 * dt) with t by (simpl; lra). reflexivity.
  - destruct (step_total G t dt y v n Ro out Hv Htab Hrho)
      as (y1 & v1 & o1 & Hrun & Hv1).
    destruct (IH (t + dt) y1 v1 o1 Hv1) as (y' & v' & out' & Hrest & Hv').
    exists y', v', out'. split; [|exact Hv'].
    cbn [steps]. unfold bind. rewrite Hrun, Hrest.
    replace (t + INR (S k) * dt) with (t + dt + INR k * dt)
      by (rewrite S_INR; lra).
    reflexivity.
Qed.

Lemma simulation_steps_return_witness :
  exists y' v' out',
    steps 1000
      (RK4_effects.mk (Sim.motion (Sim.mk_globals 10 1 32 [5; 20] [0; 8]))
         0 (Sim.array2 0 5) 0.5)
      (vehicle2 5) [] =
    (Ok (RK4_effects.mk (Sim.motion (Sim.mk_globals 10 1 32 [5; 20] [0; 8]))
           (0 + INR 1000 * 0.5) y' 0.5), v', out').
Proof.
  destruct (simulation_steps_return (Sim.mk_globals 10 1 32 [5; 20] [0; 8])
              0.5 2 30 1000)
    with (t := 0) (y := Sim.array2 0 5) (v := vehicle2 5) (out := @nil string)
    as (y' & v' & out' & Hrun & _).
  - split; [discriminate|reflexivity].
  - simpl. lra.
  - apply vehicle2_ready.
  - exists y', v', out'. exact Hrun.
Defined.
